(** * Rotary positional embedding: operator bindings of vllm-ascend

    A shallow embedding of the two host-side entry points of the
    [rotary_embedding] custom operator:

    - [vllm_ascend.rotary_embedding] (csrc/torch_binding.cpp), the NPU
      backend, which wraps a kernel call in an [OpCommand] custom handler;
    - [rotary_embedding], the generic GPU backend, which launches
      [vllm::rotary_embedding_kernel] on a grid of thread blocks.

    The host code only reads tensor metadata, does integer arithmetic and
    submits work.  It is modelled in a small monad that threads the trace
    of externally visible events and stops at the first C++ exception or
    undefined operation.  The device kernels are not part of the sources;
    their numerical behaviour is modelled from the specification and kept
    apart from the host code: over an arbitrary element type for what
    does not depend on rounding, and over the binary floating-point
    formats of the standard library ([SpecFloat]) for what does. *)

From Stdlib Require Import ZArith List Lia Bool String FinFun Ring_theory Ring.
From Stdlib Require Import QArith Qabs Qpower Lqa SpecFloat.
Import ListNotations.
Open Scope Z_scope.

Set Implicit Arguments.

(** ** Fixed-width integers

    Values are kept in [Z]; every conversion to a narrower C++ type is
    written out as the reduction it performs. *)

(** Conversion to [uint32_t] (and to the [unsigned int] of [dim3]). *)
Definition to_uint32 (z : Z) : Z := z mod 2 ^ 32.

(** Conversion to [int] (32-bit two's complement). *)
Definition to_int32 (z : Z) : Z := (z + 2 ^ 31) mod 2 ^ 32 - 2 ^ 31.

(** Conversion to [int64_t]. *)
Definition to_int64 (z : Z) : Z := (z + 2 ^ 63) mod 2 ^ 64 - 2 ^ 63.

Definition fits_int32 (z : Z) : Prop := - 2 ^ 31 <= z < 2 ^ 31.
Definition fits_uint32 (z : Z) : Prop := 0 <= z < 2 ^ 32.

(** [int * int]; signed overflow is undefined in C++, the model takes the
    two's-complement result that the targeted compilers produce. *)
Definition mul_int32 (a b : Z) : Z := to_int32 (a * b).

(** [int64_t + int64_t], same convention. *)
Definition add_int64 (a b : Z) : Z := to_int64 (a + b).

(** ** Outcomes of host code *)

Inductive ScalarType : Type :=
| Byte | Char | Short | Int | Long | Half | Float | Double | Bool | BFloat16.

Definition ScalarType_eqb (a b : ScalarType) : bool :=
  match a, b with
  | Byte, Byte | Char, Char | Short, Short | Int, Int | Long, Long
  | Half, Half | Float, Float | Double, Double | Bool, Bool
  | BFloat16, BFloat16 => true
  | _, _ => false
  end.

(** The C++ exceptions the entry points can raise. *)
Inductive exn : Type :=
| IndexError (dim ndim : Z)
    (* Dimension out of range: [dim] is not a dimension of a tensor of
       rank [ndim] *)
| ScalarTypeError (expected actual : ScalarType)
    (* data_ptr<T>() on a tensor whose element type is not T *)
| NotImplementedError (op : string) (t : ScalarType)
    (* the dtype dispatch has no case for [t] *)
| DtypeError (t : ScalarType)
    (* the dtype helper of the NPU backend rejects [t] *)
| StreamError.
    (* no current device stream *)

(** Operations without defined behaviour. *)
Inductive ub : Type :=
| DivisionByZero.

Inductive outcome (A : Type) : Type :=
| Ok (a : A)
| Throws (e : exn)
| Undefined (u : ub).

Arguments Ok {A} a.
Arguments Throws {A} e.
Arguments Undefined {A} u.

Definition is_ok {A} (o : outcome A) : bool :=
  match o with Ok _ => true | _ => false end.

(** ** Tensor metadata (the part of [at::Tensor] the bindings read) *)

Record Tensor : Type := mkTensor {
  sizes : list Z;
  strides : list Z;
  scalar_type : ScalarType;
  device : Z;
  data_ptr : Z
}.

Definition dim (t : Tensor) : Z := Z.of_nat (List.length (sizes t)).

(** [numel()]: the product of all sizes. *)
Definition numel (t : Tensor) : Z := fold_right Z.mul 1 (sizes t).

(** Dimension wrapping of [size(d)] and [stride(d)]: [d] must lie in
    [-rank, rank - 1]; a tensor of rank 0 has no dimension at all. *)
Definition maybe_wrap_dim (d ndim : Z) : outcome Z :=
  if (- ndim <=? d) && (d <? ndim)
  then Ok (if d <? 0 then d + ndim else d)
  else Throws (IndexError d ndim).

Definition size (t : Tensor) (d : Z) : outcome Z :=
  match maybe_wrap_dim d (dim t) with
  | Ok i => Ok (nth (Z.to_nat i) (sizes t) 0)
  | Throws e => Throws e
  | Undefined u => Undefined u
  end.

Definition stride (t : Tensor) (d : Z) : outcome Z :=
  match maybe_wrap_dim d (dim t) with
  | Ok i => Ok (nth (Z.to_nat i) (strides t) 0)
  | Throws e => Throws e
  | Undefined u => Undefined u
  end.

(** [data_ptr<T>()]: checks the element type. *)
Definition typed_data_ptr (T : ScalarType) (t : Tensor) : outcome Z :=
  if ScalarType_eqb (scalar_type t) T then Ok (data_ptr t)
  else Throws (ScalarTypeError T (scalar_type t)).

(** A tensor as the framework builds them: as many strides as sizes, no
    negative size, and an element count that fits [int64_t]. *)
Definition wf_tensor (t : Tensor) : bool :=
  (List.length (sizes t) =? List.length (strides t))%nat
  && forallb (fun s => 0 <=? s) (sizes t)
  && (numel t <? 2 ^ 63).

(** ** Events and the host monad *)

(** Transform variant: the [IS_NEOX] template argument of the GPU kernel,
    the [is_neox] argument of the NPU kernel. *)
Inductive style : Type := Neox | Interleaved.

Definition style_of (is_neox : bool) : style :=
  if is_neox then Neox else Interleaved.

(** The arguments both kernels receive. *)
Record kernel_args : Type := mkArgs {
  positions_ptr : Z;
  query_ptr : Z;
  key_ptr : Z;
  cos_sin_cache_ptr : Z;
  rot_dim : Z;
  query_stride : Z;
  key_stride : Z;
  num_heads : Z;
  num_kv_heads : Z;
  head_size : Z
}.

(** A launch [kernel<scalar_t, IS_NEOX><<<grid, block, 0, stream>>>(args)]. *)
Record gpu_launch : Type := mkGpuLaunch {
  g_scalar_t : ScalarType;
  g_style : style;
  g_grid : Z;
  g_block : Z;
  g_stream : Z;
  g_args : kernel_args
}.

(** A call [rotary_embedding_kernel(dtype_num, is_neox, stream, ...,
    num_tokens, loop_cnt, aivNum)] of the NPU backend.  The destination
    pointers and strides are passed separately from the source ones. *)
Record npu_launch : Type := mkNpuLaunch {
  n_dtype_num : Z;
  n_is_neox : bool;
  n_stream : Z;
  n_args : kernel_args;
  n_query_dst : Z;
  n_key_dst : Z;
  n_dst_query_stride : Z;
  n_dst_key_stride : Z;
  n_num_tokens : Z;
  n_loop_cnt : Z;
  n_aivNum : Z
}.

Inductive event : Type :=
| SetDevice (d : Z)                      (* OptionalCUDAGuard *)
| GetRuntimePlatformInfosByDevice (d : Z)
| GetCoreNumByType (d : Z) (core : string)
| GpuLaunch (l : gpu_launch)
| NpuLaunch (l : npu_launch).

Definition trace : Type := list event.

(** Host computations: the trace so far goes in, an outcome and the
    extended trace come out. *)
Definition host (A : Type) : Type := trace -> outcome A * trace.

Definition ret {A} (a : A) : host A := fun tr => (Ok a, tr).

Definition bind {A B} (m : host A) (k : A -> host B) : host B :=
  fun tr =>
    match m tr with
    | (Ok a, tr') => k a tr'
    | (Throws e, tr') => (Throws e, tr')
    | (Undefined u, tr') => (Undefined u, tr')
    end.

Definition lift {A} (o : outcome A) : host A := fun tr => (o, tr).

Definition emit (e : event) : host unit := fun tr => (Ok tt, tr ++ [e]).

Declare Scope host_scope.
Delimit Scope host_scope with host.
Notation "x <- m ;; k" := (bind m (fun x => k))
  (at level 61, m at next level, right associativity) : host_scope.
Notation "m ;;; k" := (bind m (fun _ => k))
  (at level 61, right associativity) : host_scope.

(** C++ integer division on [int64_t]: truncates towards zero; a zero
    divisor is undefined. *)
Definition div_int64 (a b : Z) : host Z :=
  if b =? 0 then lift (Undefined DivisionByZero) else ret (Z.quot a b).

(** The arguments of the GPU launch whose evaluation can throw: the typed
    pointers [positions.data_ptr<int64_t>()], [query.data_ptr<scalar_t>()],
    [key.data_ptr<scalar_t>()] and [cos_sin_cache.data_ptr<scalar_t>()]. *)
Inductive launch_arg : Type := ArgPositions | ArgQuery | ArgKey | ArgCache.

(** ** External collaborators

    What the bindings use but the sources do not define: the current
    device streams, the platform-information service, the dtype helper
    [get_dtype_from_torch] of utils.h and the case list of the macro
    [VLLM_DISPATCH_FLOATING_TYPES].  C++ does not fix the order in which
    the arguments of a call are evaluated either: the order the compiler
    chose for the arguments of the GPU launch is [argument_order].  They
    are parameters of the model. *)
Record Env : Type := mkEnv {
  getCurrentNPUStream : option Z;
  getCurrentCUDAStream : Z -> option Z;      (* by current device *)
  core_num : Z -> string -> Z;               (* by device id and core type *)
  get_dtype_from_torch : ScalarType -> outcome Z;
  dispatch_floating_types : ScalarType -> bool;
  argument_order : list launch_arg           (* chosen by the compiler *)
}.

Definition stream_of (s : option Z) : host Z :=
  match s with
  | Some h => ret h
  | None => lift (Throws StreamError)
  end.

(** The arguments of one call of the operator. *)
Record Call : Type := mkCall {
  positions : Tensor;
  query : Tensor;
  key : Tensor;
  c_head_size : Z;
  cos_sin_cache : Tensor;
  is_neox : bool
}.

Definition wf_call (c : Call) : bool :=
  wf_tensor (positions c) && wf_tensor (query c) && wf_tensor (key c)
  && wf_tensor (cos_sin_cache c)
  && (- 2 ^ 63 <=? c_head_size c) && (c_head_size c <? 2 ^ 63).

(** ** The shape descriptor

    The values both entry points compute before they submit anything. *)
Record shape : Type := mkShape {
  s_num_tokens : Z;
  s_rot_dim : Z;
  s_num_heads : Z;
  s_num_kv_heads : Z;
  s_query_stride : Z;
  s_key_stride : Z
}.

Local Open Scope host_scope.

Module vllm_ascend.

(** The statements of [vllm_ascend::rotary_embedding] that read the
    tensors, in source order: the shape descriptor and the typed pointer
    to the position ids. *)
Definition resolve (c : Call) : host (shape * Z) :=
  n <- lift (size (query c) (-1)) ;;
  num_tokens <- div_int64 (numel (query c)) n ;;
  r <- lift (size (cos_sin_cache c) 1) ;;
  let rot_dim := to_int32 r in
  qw <- lift (size (query c) (-1)) ;;
  qh <- div_int64 qw (c_head_size c) ;;
  let num_heads := to_int32 qh in
  kw <- lift (size (key c) (-1)) ;;
  kh <- div_int64 kw (c_head_size c) ;;
  let num_kv_heads := to_int32 kh in
  position_ids_ptr <- lift (typed_data_ptr Long (positions c)) ;;
  query_stride <- lift (stride (query c) (-2)) ;;
  key_stride <- lift (stride (key c) (-2)) ;;
  ret (mkShape num_tokens rot_dim num_heads num_kv_heads
         query_stride key_stride, position_ids_ptr).

(** The body of the lambda passed to [SetCustomHandler]; its captures are
    the parameters.  [num_tokens + aivNum - 1] is computed in [int64_t]
    and the quotient is stored in a [uint32_t].  The kernel receives the
    query and key pointers and strides twice. *)
Definition custom_handler (env : Env) (scalar_type : ScalarType)
    (is_neox : bool) (num_tokens stream position_ids_ptr query_ptr key_ptr
     cos_sin_cache_ptr rot_dim query_stride key_stride num_heads
     num_kv_heads head_size : Z) : host Z :=
  dtype_num <- lift (get_dtype_from_torch env scalar_type) ;;
  let device_id := 0 in
  emit (GetRuntimePlatformInfosByDevice device_id) ;;;
  emit (GetCoreNumByType device_id "aiv") ;;;
  let aivNum := to_uint32 (core_num env device_id "aiv") in
  q <- div_int64 (add_int64 (add_int64 num_tokens aivNum) (- 1)) aivNum ;;
  let loop_cnt := to_uint32 q in
  emit (NpuLaunch
          (mkNpuLaunch dtype_num is_neox stream
             (mkArgs position_ids_ptr query_ptr key_ptr cos_sin_cache_ptr
                rot_dim query_stride key_stride num_heads num_kv_heads
                head_size)
             query_ptr key_ptr query_stride key_stride
             num_tokens loop_cnt aivNum)) ;;;
  ret 0.

(** [vllm_ascend::rotary_embedding]: the handler runs when the command is
    run, after every statement of [resolve] and the stream lookup. *)
Definition rotary_embedding (env : Env) (c : Call) : host unit :=
  sp <- resolve c ;;
  let sh := fst sp in
  let position_ids_ptr := snd sp in
  let query_ptr := data_ptr (query c) in
  let key_ptr := data_ptr (key c) in
  let cos_sin_cache_ptr := data_ptr (cos_sin_cache c) in
  let scalar_type := scalar_type (query c) in
  stream <- stream_of (getCurrentNPUStream env) ;;
  custom_handler env scalar_type (is_neox c) (s_num_tokens sh) stream
    position_ids_ptr query_ptr key_ptr cos_sin_cache_ptr (s_rot_dim sh)
    (s_query_stride sh) (s_key_stride sh) (s_num_heads sh)
    (s_num_kv_heads sh) (c_head_size c) ;;;
  ret tt.

End vllm_ascend.

(** The generic GPU backend: the statements before the launch
    configuration. *)
Definition resolve (c : Call) : host shape :=
  n <- lift (size (query c) (-1)) ;;
  num_tokens <- div_int64 (numel (query c)) n ;;
  r <- lift (size (cos_sin_cache c) 1) ;;
  let rot_dim := to_int32 r in
  qw <- lift (size (query c) (-1)) ;;
  qh <- div_int64 qw (c_head_size c) ;;
  let num_heads := to_int32 qh in
  kw <- lift (size (key c) (-1)) ;;
  kh <- div_int64 kw (c_head_size c) ;;
  let num_kv_heads := to_int32 kh in
  query_stride <- lift (stride (query c) (-2)) ;;
  key_stride <- lift (stride (key c) (-2)) ;;
  ret (mkShape num_tokens rot_dim num_heads num_kv_heads
         query_stride key_stride).

(** [dim3 grid(num_tokens)]: the constructor takes [unsigned int]. *)
Definition grid_dim (sh : shape) : Z := to_uint32 (s_num_tokens sh).

(** [dim3 block(std::min<int64_t>(num_heads * rot_dim / 2, 512))]: the
    product and the quotient are computed in [int], the minimum in
    [int64_t], and the constructor takes [unsigned int]. *)
Definition block_threads (sh : shape) : Z :=
  Z.quot (mul_int32 (s_num_heads sh) (s_rot_dim sh)) 2.

Definition block_dim (sh : shape) : Z :=
  to_uint32 (Z.min (block_threads sh) 512).

(** [VLLM_DISPATCH_FLOATING_TYPES(type, name, body)]: runs [body] with
    [scalar_t] bound to [type] when the macro has a case for it. *)
Definition VLLM_DISPATCH_FLOATING_TYPES {A} (env : Env) (t : ScalarType)
    (name : string) (body : ScalarType -> host A) : host A :=
  if dispatch_floating_types env t then body t
  else lift (Throws (NotImplementedError name t)).

(** The typed pointer that is one argument of the launch. *)
Definition arg_ptr (scalar_t : ScalarType) (c : Call) (a : launch_arg)
  : outcome Z :=
  match a with
  | ArgPositions => typed_data_ptr Long (positions c)
  | ArgQuery => typed_data_ptr scalar_t (query c)
  | ArgKey => typed_data_ptr scalar_t (key c)
  | ArgCache => typed_data_ptr scalar_t (cos_sin_cache c)
  end.

(** The arguments of the launch, evaluated one after the other in a given
    order: the first that throws ends the call. *)
Fixpoint eval_args (scalar_t : ScalarType) (c : Call)
    (order : list launch_arg) : host unit :=
  match order with
  | [] => ret tt
  | a :: rest => lift (arg_ptr scalar_t c a) ;;; eval_args scalar_t c rest
  end.

(** The generic GPU backend.  The four typed pointers are arguments of
    one launch, so they are evaluated in the compiler's order, not in the
    order they are written in.  [data_ptr<T>()] has no effect but to
    throw: evaluating the arguments in that order and then binding their
    values as they are written is evaluating each once in that order,
    with the arguments [argument_order] leaves out coming last. *)
Definition rotary_embedding (env : Env) (c : Call) : host unit :=
  sh <- resolve c ;;
  let grid := grid_dim sh in
  let block := block_dim sh in
  emit (SetDevice (device (query c))) ;;;
  stream <- stream_of (getCurrentCUDAStream env (device (query c))) ;;
  VLLM_DISPATCH_FLOATING_TYPES env (scalar_type (query c)) "rotary_embedding"
    (fun scalar_t =>
       eval_args scalar_t c (argument_order env) ;;;
       p <- lift (typed_data_ptr Long (positions c)) ;;
       q <- lift (typed_data_ptr scalar_t (query c)) ;;
       k <- lift (typed_data_ptr scalar_t (key c)) ;;
       cs <- lift (typed_data_ptr scalar_t (cos_sin_cache c)) ;;
       let args :=
         mkArgs p q k cs (s_rot_dim sh) (s_query_stride sh)
           (s_key_stride sh) (s_num_heads sh) (s_num_kv_heads sh)
           (c_head_size c) in
       if is_neox c
       then emit (GpuLaunch (mkGpuLaunch scalar_t Neox grid block stream args))
       else emit (GpuLaunch
                    (mkGpuLaunch scalar_t Interleaved grid block stream args))).

(** ** Device side

    The kernels are invoked by the bindings but defined elsewhere.  Their
    effect on device memory is modelled from the specification, over an
    arbitrary element type: nothing below depends on how the products,
    sums and differences of the element type round. *)

(** The arithmetic of the kernel's element type ([scalar_t]). *)
Class Scalar (T : Type) : Type := {
  smul : T -> T -> T;
  sadd : T -> T -> T;
  ssub : T -> T -> T
}.

(** Exact integer arithmetic, used to run the model on examples. *)
#[export] Instance Scalar_Z : Scalar Z :=
  {| smul := Z.mul; sadd := Z.add; ssub := Z.sub |}.

(** Device memory holding elements: base pointer, then element offset. *)
Definition cells (T : Type) : Type := Z -> Z -> T.

Definition upd {T} (m : cells T) (p k : Z) (v : T) : cells T :=
  fun p' k' => if (p' =? p) && (k' =? k) then v else m p' k'.

(** Two memories with the same content on a set of cells. *)
Definition agree {T} (P : Z -> Z -> Prop) (m m' : cells T) : Prop :=
  forall p k, P p k -> m p k = m' p k.

(** [for (i = 0; i < n; i++) m = body(i, m)] *)
Definition range (n : Z) : list Z := map Z.of_nat (seq 0 (Z.to_nat n)).

Definition loop {A} (body : Z -> A -> A) (l : list Z) (m : A) : A :=
  fold_left (fun m i => body i m) l m.

Definition for_range {A} (n : Z) (body : Z -> A -> A) (m : A) : A :=
  loop body (range n) m.

Module vllm.

Section Kernel.
Context {T : Type} `{Scalar T}.

(** Modelled from the spec: the rotation of one pair, absent from the
    sources (section 4.2: x1' = x1*cos - x2*sin, x2' = x2*cos + x1*sin,
    written back in place; section 9: both elements are read before
    either is written). *)
Definition rotate_pair (arr x_index y_index cache cos_index sin_index : Z)
    (m : cells T) : cells T :=
  let cos := m cache cos_index in
  let sin := m cache sin_index in
  let x1 := m arr x_index in
  let x2 := m arr y_index in
  upd (upd m arr x_index (ssub (smul x1 cos) (smul x2 sin)))
    arr y_index (sadd (smul x2 cos) (smul x1 sin)).

(** Modelled from the spec: which elements of a head's slice form the
    pair of index [i] (section 4.2 and glossary): neox pairs element [i]
    with element [i + rot_dim/2], interleaved pairs the adjacent elements
    [2i] and [2i+1]. *)
Definition x_index (st : style) (embed_dim i : Z) : Z :=
  match st with Neox => i | Interleaved => 2 * i end.

(** Modelled from the spec: the second element of pair [i], absent from
    the sources like the first. *)
Definition y_index (st : style) (embed_dim i : Z) : Z :=
  match st with Neox => i + embed_dim | Interleaved => 2 * i + 1 end.

(** Modelled from the spec: where the cos and sin of pair [i] sit in a
    cache row (sections 3 and 4.2): cos in the first half and sin in the
    second half for neox, the analogous interleaved layout for the other
    style. *)
Definition cos_index (st : style) (embed_dim i : Z) : Z :=
  match st with Neox => i | Interleaved => 2 * i end.

(** Modelled from the spec: the place of the sin of pair [i] in a cache
    row, absent from the sources like that of the cos. *)
Definition sin_index (st : style) (embed_dim i : Z) : Z :=
  match st with Neox => i + embed_dim | Interleaved => 2 * i + 1 end.

(** Modelled from the spec: the rotation of pair [i] of the head slice
    that starts at offset [base] of buffer [arr]; [row] is the offset of
    the token's row in the cache, which the kernel receives as a bare
    pointer together with [rot_dim]. *)
Definition rotate_slot (st : style) (a : kernel_args) (arr base row i : Z)
    (m : cells T) : cells T :=
  let embed_dim := Z.quot (rot_dim a) 2 in
  rotate_pair arr (base + x_index st embed_dim i)
    (base + y_index st embed_dim i)
    (cos_sin_cache_ptr a) (row + cos_index st embed_dim i)
    (row + sin_index st embed_dim i) m.

(** Modelled from the spec: the transform of one head's slice, for each
    rotation pair index in [0, rot_dim/2). *)
Definition rotate_head (st : style) (a : kernel_args) (arr base row : Z)
    (m : cells T) : cells T :=
  for_range (Z.quot (rot_dim a) 2) (rotate_slot st a arr base row) m.

(** Modelled from the spec: the transform of one token's row of a buffer
    with [heads] heads and row stride [stride]. *)
Definition rotate_token (st : style) (a : kernel_args)
    (arr stride heads row t : Z) (m : cells T) : cells T :=
  for_range heads
    (fun h => rotate_head st a arr (t * stride + h * head_size a) row) m.

(** Modelled from the spec: the offset of the cache row of token [t],
    row [position[t]] of a table with [rot_dim] columns (sections 3 and
    4.2); [pos] is the content of the position buffer. *)
Definition row_of (pos : Z -> Z) (a : kernel_args) (t : Z) : Z :=
  pos t * rot_dim a.

(** Modelled from the spec: the work unit of token [t] (sections 2 and
    4.2): the query row over [num_heads] heads, then the key row over
    [num_kv_heads] heads, with the cache row of the token's position. *)
Definition token_unit (st : style) (pos : Z -> Z) (a : kernel_args)
    (t : Z) (m : cells T) : cells T :=
  rotate_token st a (key_ptr a) (key_stride a) (num_kv_heads a)
    (row_of pos a t) t
    (rotate_token st a (query_ptr a) (query_stride a) (num_heads a)
       (row_of pos a t) t m).

(** Modelled from the spec: [vllm::rotary_embedding_kernel], absent from
    the sources, run on [units] work units, one per token. *)
Definition rotary_embedding_kernel (st : style) (pos : Z -> Z)
    (a : kernel_args) (units : Z) (m : cells T) : cells T :=
  for_range units (token_unit st pos a) m.

End Kernel.

End vllm.

(** Device state: element buffers and the (read-only) integer buffers. *)
Record device_state (T : Type) : Type := mkDevice {
  floats : cells T;
  words : Z -> Z -> Z
}.

Section Device.
Context {T : Type} `{Scalar T}.

(** Modelled from the spec: what a submitted event does to the device.
    A GPU launch runs one unit per block of the grid; the GPU kernel has
    no token-count argument.  The NPU kernel, absent from the sources,
    receives the token count itself; how it spreads the tokens over the
    cores is a scheduling matter (section 5), and the shim passes the
    same buffers as source and destination, so the transform is in
    place. *)
Definition run_event (e : event) (d : device_state T) : device_state T :=
  match e with
  | GpuLaunch l =>
      mkDevice
        (vllm.rotary_embedding_kernel (g_style l)
           (words d (positions_ptr (g_args l))) (g_args l) (g_grid l)
           (floats d))
        (words d)
  | NpuLaunch l =>
      mkDevice
        (vllm.rotary_embedding_kernel (style_of (n_is_neox l))
           (words d (positions_ptr (n_args l))) (n_args l)
           (n_num_tokens l) (floats d))
        (words d)
  | _ => d
  end.

End Device.

(** The kernel submissions of a trace. *)
Definition is_launch (e : event) : bool :=
  match e with
  | GpuLaunch _ | NpuLaunch _ => true
  | _ => false
  end.

Definition launches (tr : trace) : list event := filter is_launch tr.

(** The device after a trace.  Only kernel submissions touch the device;
    what a submission does there is the parameter [kernel]. *)
Definition device_after {D} (kernel : event -> D -> D) (tr : trace) (d : D)
  : D :=
  fold_left (fun d e => kernel e d) (launches tr) d.

(** The transform variant a submission runs. *)
Definition variant (e : event) : option style :=
  match e with
  | GpuLaunch l => Some (g_style l)
  | NpuLaunch l => Some (style_of (n_is_neox l))
  | _ => None
  end.

(** The number of parallel work units a submission is sized for: the
    blocks of a GPU grid, the cores ([aivNum]) of an NPU kernel call. *)
Definition work_units (e : event) : option Z :=
  match e with
  | GpuLaunch l => Some (g_grid l)
  | NpuLaunch l => Some (n_aivNum l)
  | _ => None
  end.

(** ** Vocabulary of the statements *)

(** The width of the last dimension, the second dimension and the stride
    of the last-but-one dimension, for tensors of sufficient rank. *)
Definition last_dim (t : Tensor) : Z :=
  nth (Z.to_nat (dim t - 1)) (sizes t) 0.

Definition second_dim (t : Tensor) : Z := nth 1 (sizes t) 0.

Definition row_stride (t : Tensor) : Z :=
  nth (Z.to_nat (dim t - 2)) (strides t) 0.

(** The shape preconditions of section 4.1 of the specification:
    [head_size] divides the last dimension of query and key, [rot_dim] is
    even and at most [head_size]. *)
Definition violates_shape_precondition (c : Call) : bool :=
  negb (last_dim (query c) mod c_head_size c =? 0)
  || negb (last_dim (key c) mod c_head_size c =? 0)
  || Z.odd (second_dim (cos_sin_cache c))
  || (c_head_size c <? second_dim (cos_sin_cache c)).

(** What the entry points do need of the shapes: the ranks the accessors
    are called with and non-zero divisors. *)
Definition shapes_ok (c : Call) : bool :=
  (2 <=? dim (query c)) && negb (last_dim (query c) =? 0)
  && (2 <=? dim (cos_sin_cache c)) && negb (c_head_size c =? 0)
  && (2 <=? dim (key c)).

(** The shape descriptor in closed form. *)
Definition resolved_shape (c : Call) : shape :=
  mkShape (Z.quot (numel (query c)) (last_dim (query c)))
    (to_int32 (second_dim (cos_sin_cache c)))
    (to_int32 (Z.quot (last_dim (query c)) (c_head_size c)))
    (to_int32 (Z.quot (last_dim (key c)) (c_head_size c)))
    (row_stride (query c)) (row_stride (key c)).

Definition is_some {A} (o : option A) : bool :=
  match o with Some _ => true | None => false end.

Definition stream_val (o : option Z) : Z :=
  match o with Some s => s | None => 0 end.

Definition ok_val (o : outcome Z) : Z :=
  match o with Ok v => v | _ => 0 end.

(** [aivNum] as the handler reads it. *)
Definition aiv_num (env : Env) : Z := to_uint32 (core_num env 0 "aiv").

(** The calls each entry point carries through to a submission. *)
Definition npu_accepts (env : Env) (c : Call) : bool :=
  shapes_ok c
  && ScalarType_eqb (scalar_type (positions c)) Long
  && is_some (getCurrentNPUStream env)
  && is_ok (get_dtype_from_torch env (scalar_type (query c)))
  && negb (aiv_num env =? 0).

Definition gpu_accepts (env : Env) (c : Call) : bool :=
  shapes_ok c
  && is_some (getCurrentCUDAStream env (device (query c)))
  && dispatch_floating_types env (scalar_type (query c))
  && ScalarType_eqb (scalar_type (positions c)) Long
  && ScalarType_eqb (scalar_type (key c)) (scalar_type (query c))
  && ScalarType_eqb (scalar_type (cos_sin_cache c)) (scalar_type (query c)).

(** The exception of the first argument, in a given order, whose typed
    pointer throws. *)
Fixpoint first_failure (scalar_t : ScalarType) (c : Call)
    (order : list launch_arg) : option exn :=
  match order with
  | [] => None
  | a :: rest =>
      match arg_ptr scalar_t c a with
      | Throws e => Some e
      | _ => first_failure scalar_t c rest
      end
  end.

(** The arguments in the order they are written in. *)
Definition written_order : list launch_arg :=
  [ArgPositions; ArgQuery; ArgKey; ArgCache].

(** The submissions in closed form. *)
Definition args_of (c : Call) : kernel_args :=
  let sh := resolved_shape c in
  mkArgs (data_ptr (positions c)) (data_ptr (query c)) (data_ptr (key c))
    (data_ptr (cos_sin_cache c)) (s_rot_dim sh) (s_query_stride sh)
    (s_key_stride sh) (s_num_heads sh) (s_num_kv_heads sh) (c_head_size c).

Definition loop_cnt_of (num_tokens aivNum : Z) : Z :=
  to_uint32 (Z.quot (add_int64 (add_int64 num_tokens aivNum) (- 1)) aivNum).

Definition npu_submission (env : Env) (c : Call) : npu_launch :=
  let sh := resolved_shape c in
  mkNpuLaunch (ok_val (get_dtype_from_torch env (scalar_type (query c))))
    (is_neox c) (stream_val (getCurrentNPUStream env)) (args_of c)
    (data_ptr (query c)) (data_ptr (key c))
    (s_query_stride sh) (s_key_stride sh) (s_num_tokens sh)
    (loop_cnt_of (s_num_tokens sh) (aiv_num env)) (aiv_num env).

Definition gpu_submission (env : Env) (c : Call) : gpu_launch :=
  let sh := resolved_shape c in
  mkGpuLaunch (scalar_type (query c)) (style_of (is_neox c))
    (grid_dim sh) (block_dim sh)
    (stream_val (getCurrentCUDAStream env (device (query c)))) (args_of c).

(** The ceiling of [n / a]. *)
Definition ceil_div (n a : Z) : Z := - ((- n) / a).

(** Buffers as the data model of the specification has them: the rotated
    part fits in a head, the heads of a row fit in the row stride, and
    query, key and cache are distinct buffers. *)
Definition valid_layout (a : kernel_args) : bool :=
  (0 <=? rot_dim a) && (rot_dim a <=? head_size a)
  && (num_heads a * head_size a <=? query_stride a)
  && (num_kv_heads a * head_size a <=? key_stride a)
  && negb (query_ptr a =? key_ptr a)
  && negb (cos_sin_cache_ptr a =? query_ptr a)
  && negb (cos_sin_cache_ptr a =? key_ptr a).

(** Element [j] of head [h] of token [t], in the query and in the key
    buffer, and entry [i] of row [p] of the cache. *)
Definition query_at {T} (m : cells T) (a : kernel_args) (t h j : Z) : T :=
  m (query_ptr a) (t * query_stride a + h * head_size a + j).

Definition key_at {T} (m : cells T) (a : kernel_args) (t h j : Z) : T :=
  m (key_ptr a) (t * key_stride a + h * head_size a + j).

Definition cache_at {T} (m : cells T) (a : kernel_args) (p i : Z) : T :=
  m (cos_sin_cache_ptr a) (p * rot_dim a + i).

(** The cells the rotation of one pair reads or writes. *)
Definition pair_cells (arr x y cache c s : Z) : Z -> Z -> Prop :=
  fun p k => (p = arr /\ (k = x \/ k = y)) \/ (p = cache /\ (k = c \/ k = s)).

Definition slot_cells (st : style) (a : kernel_args) (arr base row i : Z)
  : Z -> Z -> Prop :=
  let e := Z.quot (rot_dim a) 2 in
  pair_cells arr (base + vllm.x_index st e i) (base + vllm.y_index st e i)
    (cos_sin_cache_ptr a) (row + vllm.cos_index st e i)
    (row + vllm.sin_index st e i).

(** The cells a rotation can write in the row of token [t] of a buffer. *)
Definition rotated (a : kernel_args) (arr stride heads t : Z) (p k : Z)
  : Prop :=
  p = arr /\
  exists h, 0 <= h < heads /\
    t * stride + h * head_size a <= k
    < t * stride + h * head_size a + 2 * Z.quot (rot_dim a) 2.

(** The first [rot_dim] elements of the head slices of token [t]. *)
Definition rotary_part (a : kernel_args) (arr stride heads t : Z) (p k : Z)
  : Prop :=
  p = arr /\
  exists h, 0 <= h < heads /\
    t * stride + h * head_size a <= k
    < t * stride + h * head_size a + rot_dim a.

(** The pair of index [i] of the head slice at offset [base] of buffer
    [arr] holds in [m'] the rotation of the values it has in [m], by the
    cos and sin of that pair in the cache row at offset [row]. *)
Definition pair_rotated {T} `{Scalar T} (st : style) (a : kernel_args)
    (arr base row i : Z) (m m' : cells T) : Prop :=
  let e := Z.quot (rot_dim a) 2 in
  let x := base + vllm.x_index st e i in
  let y := base + vllm.y_index st e i in
  let cos := m (cos_sin_cache_ptr a) (row + vllm.cos_index st e i) in
  let sin := m (cos_sin_cache_ptr a) (row + vllm.sin_index st e i) in
  m' arr x = ssub (smul (m arr x) cos) (smul (m arr y) sin) /\
  m' arr y = sadd (smul (m arr y) cos) (smul (m arr x) sin).

(** Every token fully transformed: from [m] to [m'], every rotation pair
    of every query head and of every key head of each of the [tokens]
    tokens has been rotated by the cache row of the token's position. *)
Definition fully_transformed {T} `{Scalar T} (st : style) (pos : Z -> Z)
    (a : kernel_args) (tokens : Z) (m m' : cells T) : Prop :=
  forall t i, 0 <= t < tokens -> 0 <= i < Z.quot (rot_dim a) 2 ->
    (forall h, 0 <= h < num_heads a ->
       pair_rotated st a (query_ptr a)
         (t * query_stride a + h * head_size a) (vllm.row_of pos a t) i
         m m') /\
    (forall h, 0 <= h < num_kv_heads a ->
       pair_rotated st a (key_ptr a)
         (t * key_stride a + h * head_size a) (vllm.row_of pos a t) i
         m m').

(** ** Floating-point element types

    The buffers hold numbers of a binary floating-point format.  The
    formats and their operations are those of the standard library's
    specification of IEEE 754 arithmetic ([SpecFloat]): a format is given
    by its precision [prec] in bits and by [emax], the exponent of its
    infinities. *)

(** Modelled from the spec: the arithmetic of the kernel on elements of
    the format [(prec, emax)] (section 4.2: computed in the buffer's
    native floating-point precision, with no accumulation in a higher
    precision): each product, sum and difference is rounded to the
    nearest number of the format, ties to even. *)
Definition SF_Scalar (prec emax : Z) : Scalar spec_float :=
  {| smul := SFmul prec emax;
     sadd := SFadd prec emax;
     ssub := SFsub prec emax |}.

(** Half precision, bfloat16 and single precision. *)
Definition binary16 : Scalar spec_float := SF_Scalar 11 16.
Definition bfloat16 : Scalar spec_float := SF_Scalar 8 128.
Definition binary32 : Scalar spec_float := SF_Scalar 24 128.

(** A zero or a finite number of the format: neither an infinity nor a
    NaN. *)
Definition SFfinite (prec emax : Z) (x : spec_float) : bool :=
  match x with
  | S754_zero _ => true
  | S754_finite _ m e => bounded prec emax m e
  | _ => false
  end.

(** The rational value of a floating-point number (0 for what is not a
    number). *)
Definition SF2Q (x : spec_float) : Q :=
  match x with
  | S754_finite s m e => (inject_Z (cond_Zopp s (Zpos m)) * 2 ^ e)%Q
  | _ => 0%Q
  end.

(** The value of a finite number of the format in units of [2 ^ emin],
    the least positive number of the format, where
    [emin = 3 - emax - prec]. *)
Definition F2Z (prec emax : Z) (x : spec_float) : Z :=
  match x with
  | S754_finite s m e =>
      cond_Zopp s (Zpos m * 2 ^ (e - SpecFloat.emin prec emax))
  | _ => 0
  end.

(** The unit roundoff of a format, half of its least positive number,
    and the bound on exact results below which no operation overflows. *)
Definition unit_roundoff (prec : Z) : Q := (2 ^ (- prec))%Q.

Definition half_least (prec emax : Z) : Q :=
  (2 ^ (SpecFloat.emin prec emax - 1))%Q.

Definition safe_bound (emax : Z) : Q := (2 ^ (emax - 1))%Q.

(** The error of one rotation whose two inputs have magnitudes that sum
    to [n], for a unit roundoff [u] and an absolute error [d] of a
    product. *)
Definition step_error (u d n : Q) : Q :=
  ((2 * u + u * u) * n + (2 + 2 * u) * d)%Q.

(** The record that [k] shifts to the right make of the mantissa [m0]:
    the quotient by [2 ^ k], and the round and sticky bits that locate
    the remainder with respect to the half of [2 ^ k]. *)
Definition shifted (m0 k : Z) (mrs : shr_record) : Prop :=
  exists rem,
    0 <= rem < 2 ^ k /\ 0 <= shr_m mrs /\ m0 = shr_m mrs * 2 ^ k + rem /\
    (if shr_r mrs then 2 ^ k <= 2 * rem else 2 * rem < 2 ^ k) /\
    (if shr_s mrs then rem <> 0 /\ 2 * rem <> 2 ^ k
     else rem = 0 \/ 2 * rem = 2 ^ k).

(** The range in which the inverse law is stated: the two elements of a
    pair are finite and of magnitude at most [2 ^ (emax - 2)], a quarter
    of the overflow threshold of the format, cos and
    sin are finite, of magnitude at most 1, and as close to the unit
    circle as the rounded cos and sin of an angle are. *)
Definition in_range (prec emax : Z) (x1 x2 cos sin : spec_float) : Prop :=
  SFfinite prec emax x1 = true /\ SFfinite prec emax x2 = true /\
  SFfinite prec emax cos = true /\ SFfinite prec emax sin = true /\
  (Qabs (SF2Q x1) <= 2 ^ (emax - 2))%Q /\
  (Qabs (SF2Q x2) <= 2 ^ (emax - 2))%Q /\
  (Qabs (SF2Q cos) <= 1)%Q /\ (Qabs (SF2Q sin) <= 1)%Q /\
  (Qabs (SF2Q cos * SF2Q cos + SF2Q sin * SF2Q sin - 1)
   <= 4 * unit_roundoff prec)%Q.

(** The tolerance of the inverse law for the pair [(x1, x2)]: thirteen
    unit roundoffs of the sum of the magnitudes, and seven halves of the
    least positive number. *)
Definition tolerance (prec emax : Z) (x1 x2 : spec_float) : Q :=
  (13 * unit_roundoff prec * (Qabs (SF2Q x1) + Qabs (SF2Q x2))
   + 7 * half_least prec emax)%Q.

(** The pair [(z1, z2)] is the pair [(x1, x2)] within tolerance. *)
Definition restored (prec emax : Z) (x1 x2 z1 z2 : spec_float) : Prop :=
  SFfinite prec emax z1 = true /\ SFfinite prec emax z2 = true /\
  (Qabs (SF2Q z1 - SF2Q x1) <= tolerance prec emax x1 x2)%Q /\
  (Qabs (SF2Q z2 - SF2Q x2) <= tolerance prec emax x1 x2)%Q.

(** The arguments of a kernel call that differs from another in the
    cos/sin table alone. *)
Definition with_cache (a : kernel_args) (cache : Z) : kernel_args :=
  mkArgs (positions_ptr a) (query_ptr a) (key_ptr a) cache (rot_dim a)
    (query_stride a) (key_stride a) (num_heads a) (num_kv_heads a)
    (head_size a).

(** ** Example inputs *)

Definition get_dtype_ex (t : ScalarType) : outcome Z :=
  match t with
  | Float => Ok 0
  | Half => Ok 1
  | BFloat16 => Ok 27
  | _ => Throws (DtypeError t)
  end.

Definition dispatch_ex (t : ScalarType) : bool :=
  match t with Float | Half | BFloat16 => true | _ => false end.

(** A platform with two vector cores, and a compiler that evaluates the
    arguments of a call from the last to the first. *)
Definition right_to_left : list launch_arg :=
  [ArgCache; ArgKey; ArgQuery; ArgPositions].

Definition env_ex : Env :=
  mkEnv (Some 1) (fun _ => Some 2) (fun _ _ => 2) get_dtype_ex dispatch_ex
    right_to_left.

Definition tensor_ex (sz st : list Z) (ty : ScalarType) (p : Z) : Tensor :=
  mkTensor sz st ty 0 p.

(** Two tokens, two query heads and one key head of size 4, fully
    rotated. *)
Definition call_ok : Call :=
  mkCall (tensor_ex [2] [1] Long 100)
    (tensor_ex [2; 8] [8; 1] Half 200) (tensor_ex [2; 4] [4; 1] Half 300)
    4 (tensor_ex [16; 4] [4; 1] Half 400) true.

(** [head_size] 2 does not divide the width 5, [rot_dim] 3 is odd and
    larger than [head_size]. *)
Definition call_bad : Call :=
  mkCall (tensor_ex [2] [1] Long 100)
    (tensor_ex [2; 5] [5; 1] Half 200) (tensor_ex [2; 5] [5; 1] Half 300)
    2 (tensor_ex [16; 3] [3; 1] Half 400) true.

(** One token with one head of 2^31 + 2 elements, fully rotated. *)
Definition call_wide : Call :=
  mkCall (tensor_ex [1] [1] Long 100)
    (tensor_ex [1; 2147483650] [2147483650; 1] Half 200)
    (tensor_ex [1; 2147483650] [2147483650; 1] Half 300)
    2147483650 (tensor_ex [1; 2147483650] [2147483650; 1] Half 400) true.

(** Five tokens. *)
Definition call_five : Call :=
  mkCall (tensor_ex [5] [1] Long 100)
    (tensor_ex [5; 8] [8; 1] Half 200) (tensor_ex [5; 8] [8; 1] Half 300)
    4 (tensor_ex [16; 4] [4; 1] Half 400) true.

(** 2^33 tokens with one head of size 2. *)
Definition call_many : Call :=
  mkCall (tensor_ex [8589934592] [1] Long 100)
    (tensor_ex [8589934592; 2] [2; 1] Half 200)
    (tensor_ex [8589934592; 2] [2; 1] Half 300)
    2 (tensor_ex [16; 2] [2; 1] Half 400) true.

(** Kernel arguments with [rot_dim] 2 in heads of size 4, and a memory of
    integers: the cache row of position [p] holds cos = 0 and sin = 1, a
    rotation by a quarter turn. *)
Definition args_ex : kernel_args := mkArgs 100 200 300 400 2 8 4 2 1 4.

Definition pos_ex (t : Z) : Z := t.

Definition mem_ex : cells Z :=
  fun p k => if p =? 400 then k mod 2 else 10 * p + k.

(** A device whose position buffer holds 0, 1, 2, ... and whose element
    buffers are those of [mem_ex]. *)
Definition dev_ex : device_state Z := mkDevice mem_ex (fun _ => pos_ex).

(** Only the query is misshapen: its rows of width 5 are not made of
    heads of size 2, while the key has rows of two such heads and
    [rot_dim] is 2. *)
Definition call_query_mismatch : Call :=
  mkCall (tensor_ex [2] [1] Long 100)
    (tensor_ex [2; 5] [5; 1] Half 200) (tensor_ex [2; 4] [4; 1] Half 300)
    2 (tensor_ex [16; 2] [2; 1] Half 400) true.

(** Half-precision numbers: 1, 3, the largest finite number 65504, and
    0.70703125, which is both the cos and the sin of a quarter of pi
    rounded to half precision. *)
Definition half_one : spec_float := S754_finite false 1024 (-10).
Definition half_three : spec_float := S754_finite false 1536 (-9).
Definition half_max : spec_float := S754_finite false 2047 5.
Definition half_cos_quarter_pi : spec_float := S754_finite false 1448 (-11).

(** One token with one query head and one key head of size 2, fully
    rotated, and a half-precision memory for it: every pair of the query
    and of the key is [(x1, x2)], every row of the table at 400 holds the
    cos and sin of a quarter of pi, every row of the table at 500 the cos
    and sin of the opposite angle. *)
Definition args_half : kernel_args := mkArgs 100 200 300 400 2 2 2 1 1 2.

Definition mem_half (x1 x2 : spec_float) : cells spec_float :=
  fun p k =>
    if p =? 400 then half_cos_quarter_pi
    else if p =? 500
         then if Z.even k then half_cos_quarter_pi
              else SFopp half_cos_quarter_pi
         else if Z.even k then x1 else x2.

(** ** Further vocabulary and example inputs *)

(** The dimensions before the last one, and the product of a list of
    dimensions. *)
Definition leading_dims (t : Tensor) : list Z := removelast (sizes t).

Definition product (l : list Z) : Z := fold_right Z.mul 1 l.

(** A query of rank 0. *)
Definition call_scalar : Call :=
  mkCall (tensor_ex [2] [1] Long 100)
    (tensor_ex [] [] Half 200) (tensor_ex [2; 4] [4; 1] Half 300)
    4 (tensor_ex [16; 4] [4; 1] Half 400) true.

(** A query of rank 1: one row of eight elements, given without its
    leading dimension. *)
Definition call_flat_query : Call :=
  mkCall (tensor_ex [1] [1] Long 100)
    (tensor_ex [8] [1] Half 200) (tensor_ex [1; 4] [4; 1] Half 300)
    4 (tensor_ex [16; 4] [4; 1] Half 400) true.

(** A cache of rank 1. *)
Definition call_flat_cache : Call :=
  mkCall (tensor_ex [2] [1] Long 100)
    (tensor_ex [2; 8] [8; 1] Half 200) (tensor_ex [2; 4] [4; 1] Half 300)
    4 (tensor_ex [64] [1] Half 400) true.

(** A query whose rows are empty. *)
Definition call_zero_width : Call :=
  mkCall (tensor_ex [2] [1] Long 100)
    (tensor_ex [2; 0] [0; 1] Half 200) (tensor_ex [2; 4] [4; 1] Half 300)
    4 (tensor_ex [16; 4] [4; 1] Half 400) true.

(** No token at all. *)
Definition call_empty : Call :=
  mkCall (tensor_ex [0] [1] Long 100)
    (tensor_ex [0; 8] [8; 1] Half 200) (tensor_ex [0; 4] [4; 1] Half 300)
    4 (tensor_ex [16; 4] [4; 1] Half 400) true.

(** A batch of 2 sequences of 3 tokens, [batch_size, seq_len, width]. *)
Definition call_batched : Call :=
  mkCall (tensor_ex [2; 3] [3; 1] Long 100)
    (tensor_ex [2; 3; 8] [24; 8; 1] Half 200)
    (tensor_ex [2; 3; 4] [12; 4; 1] Half 300)
    4 (tensor_ex [16; 4] [4; 1] Half 400) true.

(** Double precision, which neither [dispatch_ex] nor [get_dtype_ex]
    knows. *)
Definition call_double : Call :=
  mkCall (tensor_ex [2] [1] Long 100)
    (tensor_ex [2; 8] [8; 1] Double 200)
    (tensor_ex [2; 4] [4; 1] Double 300)
    4 (tensor_ex [16; 4] [4; 1] Double 400) true.

(** Half-precision query and key with a single-precision cache. *)
Definition call_mixed : Call :=
  mkCall (tensor_ex [2] [1] Long 100)
    (tensor_ex [2; 8] [8; 1] Half 200) (tensor_ex [2; 4] [4; 1] Half 300)
    4 (tensor_ex [16; 4] [4; 1] Float 400) true.

(** A half-precision query with a single-precision key and a
    double-precision cache, and a compiler that evaluates the arguments
    of a call from the first to the last. *)
Definition call_both_mixed : Call :=
  mkCall (tensor_ex [2] [1] Long 100)
    (tensor_ex [2; 8] [8; 1] Half 200) (tensor_ex [2; 4] [4; 1] Float 300)
    4 (tensor_ex [16; 4] [4; 1] Double 400) true.

Definition env_left_to_right : Env :=
  mkEnv (Some 1) (fun _ => Some 2) (fun _ _ => 2) get_dtype_ex dispatch_ex
    written_order.

(** Rows of width 7 with heads of size 2, and with [head_size] -2. *)
Definition call_ragged : Call :=
  mkCall (tensor_ex [2] [1] Long 100)
    (tensor_ex [2; 7] [7; 1] Half 200) (tensor_ex [2; 7] [7; 1] Half 300)
    2 (tensor_ex [16; 2] [2; 1] Half 400) true.

Definition call_negative : Call :=
  mkCall (tensor_ex [2] [1] Long 100)
    (tensor_ex [2; 7] [7; 1] Half 200) (tensor_ex [2; 7] [7; 1] Half 300)
    (-2) (tensor_ex [16; 2] [2; 1] Half 400) true.

(** A platform that reports no vector core. *)
Definition env_no_core : Env :=
  mkEnv (Some 1) (fun _ => Some 2) (fun _ _ => 0) get_dtype_ex dispatch_ex
    right_to_left.

(** * Properties *)

(** ** Fixed-width conversions *)

Lemma to_int32_fits (z : Z) : fits_int32 z -> to_int32 z = z.
Proof.
  unfold fits_int32, to_int32. intros Hz.
  rewrite Z.mod_small; lia.
Qed.

Lemma to_uint32_fits (z : Z) : fits_uint32 z -> to_uint32 z = z.
Proof.
  unfold fits_uint32, to_uint32. intros Hz.
  rewrite Z.mod_small; lia.
Qed.

Lemma to_uint32_range (z : Z) : 0 <= to_uint32 z < 2 ^ 32.
Proof. unfold to_uint32. apply Z.mod_pos_bound. lia. Qed.

Lemma to_int64_fits (z : Z) : - 2 ^ 63 <= z < 2 ^ 63 -> to_int64 z = z.
Proof.
  unfold to_int64. intros Hz.
  rewrite Z.mod_small; lia.
Qed.

Lemma quot2_bounds (r : Z) : 0 <= r -> 0 <= 2 * Z.quot r 2 <= r.
Proof.
  intros Hr. rewrite Z.quot_div_nonneg by lia.
  pose proof (Z.mul_div_le r 2). pose proof (Z.div_pos r 2). lia.
Qed.

(** The formula of the handler is the ceiling when nothing overflows. *)
Lemma ceil_div_formula (n a : Z) :
  0 <= n -> 0 < a -> Z.quot (n + a - 1) a = ceil_div n a.
Proof.
  intros Hn Ha. unfold ceil_div.
  rewrite Z.quot_div_nonneg by lia.
  pose proof (Z.div_mod (n + a - 1) a ltac:(lia)) as E1.
  pose proof (Z.mod_pos_bound (n + a - 1) a Ha) as B1.
  pose proof (Z.div_mod (- n) a ltac:(lia)) as E2.
  pose proof (Z.mod_pos_bound (- n) a Ha) as B2.
  nia.
Qed.

Lemma ceil_div_covers (n a : Z) :
  0 <= n -> 0 < a -> n <= a * ceil_div n a < n + a.
Proof.
  intros Hn Ha. unfold ceil_div.
  pose proof (Z.div_mod (- n) a ltac:(lia)) as E2.
  pose proof (Z.mod_pos_bound (- n) a Ha) as B2.
  nia.
Qed.

(** ** Loops *)

Lemma In_range (n i : Z) : In i (range n) <-> 0 <= i < n.
Proof.
  unfold range. rewrite in_map_iff. split.
  - intros [k [<- Hk]]. apply in_seq in Hk. lia.
  - intros Hi. exists (Z.to_nat i). split; [lia|]. apply in_seq. lia.
Qed.

Lemma NoDup_range (n : Z) : NoDup (range n).
Proof.
  unfold range. apply Injective_map_NoDup.
  - intros x y Hxy. lia.
  - apply seq_NoDup.
Qed.

Section Loops.
Context {T : Type}.
Variable P : Z -> Z -> Prop.
Variable body : Z -> cells T -> cells T.

Lemma agree_refl (m : cells T) : agree P m m.
Proof. intros p k _. reflexivity. Qed.

Lemma agree_sym (m m' : cells T) : agree P m m' -> agree P m' m.
Proof. intros Hm p k Hs. symmetry. now apply Hm. Qed.

Lemma agree_trans (m1 m2 m3 : cells T) :
  agree P m1 m2 -> agree P m2 m3 -> agree P m1 m3.
Proof. intros H12 H23 p k Hs. rewrite (H12 p k Hs). now apply H23. Qed.

(** Iterations that leave [P] alone leave it alone together. *)
Lemma loop_frame (l : list Z) :
  (forall j, In j l -> forall m, agree P (body j m) m) ->
  forall m, agree P (loop body l m) m.
Proof.
  unfold loop. induction l as [|j l IH]; intros Hl m; simpl.
  - apply agree_refl.
  - eapply agree_trans.
    + apply IH. intros j' Hj'. apply Hl. now right.
    + apply Hl. now left.
Qed.

(** Independent iterations: when every other iteration leaves [P] alone
    and iteration [i] computes its values on [P] from [P], the loop does
    on [P] what iteration [i] does on its own. *)
Lemma loop_indep (l : list Z) (i : Z) :
  NoDup l -> In i l ->
  (forall j, In j l -> j <> i -> forall m, agree P (body j m) m) ->
  (forall m m', agree P m m' -> agree P (body i m) (body i m')) ->
  forall m, agree P (loop body l m) (body i m).
Proof.
  unfold loop. induction l as [|j l IH]; intros Hnd Hin Hothers Hlocal m.
  - destruct Hin.
  - simpl. inversion Hnd as [|? ? Hnotin Hnd']; subst.
    destruct (Z.eq_dec j i) as [->|Hji].
    + apply (loop_frame l).
      intros j' Hj'. apply Hothers; [now right|].
      intros ->. contradiction.
    + destruct Hin as [->|Hin]; [contradiction|].
      eapply agree_trans.
      * apply IH; auto. intros j' Hj'. apply Hothers. now right.
      * apply Hlocal. apply Hothers; [now left|assumption].
Qed.

End Loops.

(** ** Index arithmetic of the kernel *)

Import vllm.

Lemma index_bounds (st : style) (e i : Z) :
  0 <= i < e ->
  0 <= x_index st e i < 2 * e /\ 0 <= y_index st e i < 2 * e.
Proof. unfold x_index, y_index; destruct st; lia. Qed.

Lemma index_distinct (st : style) (e i j : Z) :
  0 <= i < e -> 0 <= j < e -> i <> j ->
  x_index st e i <> x_index st e j /\ x_index st e i <> y_index st e j /\
  y_index st e i <> x_index st e j /\ y_index st e i <> y_index st e j.
Proof. unfold x_index, y_index; destruct st; lia. Qed.

(** An offset names one token, one head and one element of the head. *)
Lemma slot_unique (hs nh stride t t' h h' u u' : Z) :
  0 <= u < hs -> 0 <= u' < hs -> 0 <= h < nh -> 0 <= h' < nh ->
  nh * hs <= stride -> 0 <= t -> 0 <= t' ->
  t * stride + h * hs + u = t' * stride + h' * hs + u' ->
  t = t' /\ h = h' /\ u = u'.
Proof.
  intros Hu Hu' Hh Hh' Hs Ht Ht' E.
  assert (0 <= h * hs + u < nh * hs) by nia.
  assert (0 <= h' * hs + u' < nh * hs) by nia.
  assert (t = t') by nia. subst t'.
  assert (h = h') by nia. subst h'.
  repeat split; lia.
Qed.

Lemma valid_layout_spec (a : kernel_args) :
  valid_layout a = true ->
  0 <= rot_dim a <= head_size a /\
  num_heads a * head_size a <= query_stride a /\
  num_kv_heads a * head_size a <= key_stride a /\
  query_ptr a <> key_ptr a /\
  cos_sin_cache_ptr a <> query_ptr a /\
  cos_sin_cache_ptr a <> key_ptr a.
Proof.
  unfold valid_layout. rewrite !andb_true_iff, !negb_true_iff.
  rewrite !Z.leb_le, !Z.eqb_neq. tauto.
Qed.

(** ** The kernel, loop by loop *)

Section KernelFacts.
Context {T : Type} `{Scalar T}.

Lemma upd_eq (m : cells T) p k v : upd m p k v p k = v.
Proof. unfold upd. now rewrite !Z.eqb_refl. Qed.

Lemma upd_neq (m : cells T) p k v p' k' :
  ~ (p' = p /\ k' = k) -> upd m p k v p' k' = m p' k'.
Proof.
  intros Hne. unfold upd.
  destruct (Z.eqb_spec p' p); destruct (Z.eqb_spec k' k); simpl; tauto.
Qed.

(** *** One pair *)

Lemma rotate_pair_y arr x y cache c s (m : cells T) :
  rotate_pair arr x y cache c s m arr y =
  sadd (smul (m arr y) (m cache c)) (smul (m arr x) (m cache s)).
Proof. unfold rotate_pair. now rewrite upd_eq. Qed.

Lemma rotate_pair_x arr x y cache c s (m : cells T) :
  x <> y ->
  rotate_pair arr x y cache c s m arr x =
  ssub (smul (m arr x) (m cache c)) (smul (m arr y) (m cache s)).
Proof.
  intros Hxy. unfold rotate_pair.
  rewrite upd_neq by (intros [_ E]; contradiction).
  now rewrite upd_eq.
Qed.

Lemma rotate_pair_frame arr x y cache c s (m : cells T) p k :
  ~ (p = arr /\ (k = x \/ k = y)) ->
  rotate_pair arr x y cache c s m p k = m p k.
Proof.
  intros Hne. unfold rotate_pair.
  rewrite !upd_neq; [reflexivity| |]; intros [-> ->]; tauto.
Qed.

Lemma rotate_pair_local arr x y cache c s (m m' : cells T) :
  agree (pair_cells arr x y cache c s) m m' ->
  agree (pair_cells arr x y cache c s)
    (rotate_pair arr x y cache c s m) (rotate_pair arr x y cache c s m').
Proof.
  intros Hm p k Hpk.
  assert (Ex : m arr x = m' arr x) by (apply Hm; left; auto).
  assert (Ey : m arr y = m' arr y) by (apply Hm; left; auto).
  assert (Ec : m cache c = m' cache c) by (apply Hm; right; auto).
  assert (Es : m cache s = m' cache s) by (apply Hm; right; auto).
  unfold rotate_pair, upd.
  rewrite Ex, Ey, Ec, Es.
  destruct ((p =? arr) && (k =? y)); [reflexivity|].
  destruct ((p =? arr) && (k =? x)); [reflexivity|].
  now apply Hm.
Qed.

Lemma rotate_slot_frame st a arr base row i (m : cells T) p k :
  0 <= i < Z.quot (rot_dim a) 2 ->
  ~ (p = arr /\ base <= k < base + 2 * Z.quot (rot_dim a) 2) ->
  rotate_slot st a arr base row i m p k = m p k.
Proof.
  intros Hi Hout. unfold rotate_slot. apply rotate_pair_frame.
  destruct (index_bounds st Hi) as [Hx Hy].
  intros [-> [-> | ->]]; apply Hout; split; auto; lia.
Qed.

Lemma rotate_slot_local st a arr base row i (m m' : cells T) :
  agree (slot_cells st a arr base row i) m m' ->
  agree (slot_cells st a arr base row i)
    (rotate_slot st a arr base row i m) (rotate_slot st a arr base row i m').
Proof. apply rotate_pair_local. Qed.

(** Whatever agrees on the cells of a slot with the rotation of that slot
    computes its values there from those cells. *)
Lemma local_of_slot st a arr base row i (f : cells T -> cells T) :
  (forall m, agree (slot_cells st a arr base row i) (f m)
               (rotate_slot st a arr base row i m)) ->
  forall m m', agree (slot_cells st a arr base row i) m m' ->
               agree (slot_cells st a arr base row i) (f m) (f m').
Proof.
  intros Hf m m' Hm.
  eapply agree_trans; [apply Hf|].
  eapply agree_trans; [apply rotate_slot_local, Hm|].
  apply agree_sym, Hf.
Qed.

Lemma slot_cells_inv st a arr base row i p k :
  0 <= i < Z.quot (rot_dim a) 2 ->
  slot_cells st a arr base row i p k ->
  (p = arr /\ base <= k < base + 2 * Z.quot (rot_dim a) 2)
  \/ p = cos_sin_cache_ptr a.
Proof.
  intros Hi [[-> Hk] | [-> _]]; [left | now right].
  destruct (index_bounds st Hi). split; [reflexivity | lia].
Qed.

(** *** One head *)

Lemma rotate_head_frame st a arr base row (m : cells T) p k :
  ~ (p = arr /\ base <= k < base + 2 * Z.quot (rot_dim a) 2) ->
  rotate_head st a arr base row m p k = m p k.
Proof.
  intros Hout. unfold rotate_head, for_range.
  apply (@loop_frame T (fun p' k' => p' = p /\ k' = k)); [|auto].
  intros j Hj m' p' k' [-> ->]. apply In_range in Hj.
  now apply rotate_slot_frame.
Qed.

Lemma rotate_head_pair st a arr base row i (m : cells T) :
  0 <= i < Z.quot (rot_dim a) 2 ->
  cos_sin_cache_ptr a <> arr ->
  agree (slot_cells st a arr base row i)
    (rotate_head st a arr base row m) (rotate_slot st a arr base row i m).
Proof.
  intros Hi Hc. unfold rotate_head, for_range.
  apply (@loop_indep T (slot_cells st a arr base row i)
           (rotate_slot st a arr base row)).
  - apply NoDup_range.
  - now apply In_range.
  - intros j Hj Hji m' p k Hpk. apply In_range in Hj.
    apply rotate_pair_frame.
    assert (Hji' : i <> j) by congruence.
    destruct (index_distinct st Hi Hj Hji') as (D1 & D2 & D3 & D4).
    unfold slot_cells, pair_cells in Hpk.
    intros [-> Hk]. destruct Hpk as [[_ Hk'] | [Hp _]]; [lia | congruence].
  - intros m1 m2. apply rotate_slot_local.
Qed.

(** *** One token of one buffer *)

Lemma rotate_token_frame st a arr stride heads row t (m : cells T) p k :
  ~ rotated a arr stride heads t p k ->
  rotate_token st a arr stride heads row t m p k = m p k.
Proof.
  intros Hout. unfold rotate_token, for_range.
  apply (@loop_frame T (fun p' k' => p' = p /\ k' = k)); [|auto].
  intros h Hh m' p' k' [-> ->]. apply In_range in Hh.
  apply rotate_head_frame. intros [-> Hk].
  apply Hout. split; [reflexivity|]. now exists h.
Qed.

Lemma rotate_token_pair st a arr stride heads row t h i (m : cells T) :
  0 <= h < heads -> 0 <= i < Z.quot (rot_dim a) 2 ->
  2 * Z.quot (rot_dim a) 2 <= head_size a ->
  cos_sin_cache_ptr a <> arr ->
  agree (slot_cells st a arr (t * stride + h * head_size a) row i)
    (rotate_token st a arr stride heads row t m)
    (rotate_slot st a arr (t * stride + h * head_size a) row i m).
Proof.
  intros Hh Hi He Hc. unfold rotate_token, for_range.
  eapply agree_trans; [|now apply rotate_head_pair].
  apply (@loop_indep T
           (slot_cells st a arr (t * stride + h * head_size a) row i)
           (fun h0 => rotate_head st a arr
                        (t * stride + h0 * head_size a) row)).
  - apply NoDup_range.
  - now apply In_range.
  - intros h' Hh' Hne m' p k Hpk. apply In_range in Hh'.
    apply rotate_head_frame. intros [-> Hk].
    destruct (slot_cells_inv Hi Hpk) as [[_ Hk'] | Hp]; [|congruence].
    apply Hne. nia.
  - apply local_of_slot. intros m0. now apply rotate_head_pair.
Qed.

(** *** One work unit *)

Lemma token_unit_frame st pos a t (m : cells T) p k :
  ~ rotated a (query_ptr a) (query_stride a) (num_heads a) t p k ->
  ~ rotated a (key_ptr a) (key_stride a) (num_kv_heads a) t p k ->
  token_unit st pos a t m p k = m p k.
Proof.
  intros Hq Hk. unfold token_unit.
  rewrite rotate_token_frame by assumption.
  now apply rotate_token_frame.
Qed.

Lemma token_unit_query st pos a t h i (m : cells T) :
  valid_layout a = true ->
  0 <= h < num_heads a -> 0 <= i < Z.quot (rot_dim a) 2 ->
  agree (slot_cells st a (query_ptr a)
           (t * query_stride a + h * head_size a) (row_of pos a t) i)
    (token_unit st pos a t m)
    (rotate_slot st a (query_ptr a)
       (t * query_stride a + h * head_size a) (row_of pos a t) i m).
Proof.
  intros Hv Hh Hi.
  destruct (valid_layout_spec a Hv) as (Hr & Hqs & Hks & Hqk & Hcq & Hck).
  pose proof (quot2_bounds (proj1 Hr)) as He.
  unfold token_unit.
  eapply agree_trans;
    [|apply rotate_token_pair with (heads := num_heads a); auto; lia].
  intros p k Hpk. apply rotate_token_frame.
  intros [-> _].
  destruct (slot_cells_inv Hi Hpk) as [[Hp _] | Hp]; congruence.
Qed.

Lemma token_unit_key st pos a t h i (m : cells T) :
  valid_layout a = true ->
  0 <= h < num_kv_heads a -> 0 <= i < Z.quot (rot_dim a) 2 ->
  agree (slot_cells st a (key_ptr a)
           (t * key_stride a + h * head_size a) (row_of pos a t) i)
    (token_unit st pos a t m)
    (rotate_slot st a (key_ptr a)
       (t * key_stride a + h * head_size a) (row_of pos a t) i m).
Proof.
  intros Hv Hh Hi.
  destruct (valid_layout_spec a Hv) as (Hr & Hqs & Hks & Hqk & Hcq & Hck).
  pose proof (quot2_bounds (proj1 Hr)) as He.
  unfold token_unit.
  eapply agree_trans;
    [apply rotate_token_pair with (heads := num_kv_heads a); auto; lia|].
  apply rotate_slot_local.
  intros p k Hpk. apply rotate_token_frame.
  intros [-> _].
  destruct (slot_cells_inv Hi Hpk) as [[Hp _] | Hp]; congruence.
Qed.

(** *** All work units *)

Lemma kernel_frame st pos a units (m : cells T) p k :
  (forall t, 0 <= t < units ->
     ~ rotated a (query_ptr a) (query_stride a) (num_heads a) t p k /\
     ~ rotated a (key_ptr a) (key_stride a) (num_kv_heads a) t p k) ->
  rotary_embedding_kernel st pos a units m p k = m p k.
Proof.
  intros Hout. unfold rotary_embedding_kernel, for_range.
  apply (@loop_frame T (fun p' k' => p' = p /\ k' = k)); [|auto].
  intros t Ht m' p' k' [-> ->]. apply In_range in Ht.
  destruct (Hout t Ht). now apply token_unit_frame.
Qed.

(** A cell of the slot [(t, h, i)] of a buffer is not written by the unit
    of another token. *)
Lemma slot_not_rotated_elsewhere st a arr stride heads row t h i t' p k :
  0 <= rot_dim a <= head_size a -> heads * head_size a <= stride ->
  0 <= t -> 0 <= t' -> t' <> t ->
  0 <= h < heads -> 0 <= i < Z.quot (rot_dim a) 2 ->
  slot_cells st a arr (t * stride + h * head_size a) row i p k ->
  cos_sin_cache_ptr a <> arr ->
  ~ rotated a arr stride heads t' p k.
Proof.
  intros Hr Hs Ht Ht' Hne Hh Hi Hpk Hc [-> (h' & Hh' & Hk')].
  pose proof (quot2_bounds (proj1 Hr)) as He.
  destruct (slot_cells_inv Hi Hpk) as [[_ Hk] | Hp]; [|congruence].
  apply Hne.
  refine (proj1 (@slot_unique (head_size a) heads stride t' t h' h
                   (k - (t' * stride + h' * head_size a))
                   (k - (t * stride + h * head_size a))
                   _ _ Hh' Hh Hs Ht' Ht _)); lia.
Qed.

Lemma kernel_query st pos a units t h i (m : cells T) :
  valid_layout a = true ->
  0 <= t < units -> 0 <= h < num_heads a ->
  0 <= i < Z.quot (rot_dim a) 2 ->
  agree (slot_cells st a (query_ptr a)
           (t * query_stride a + h * head_size a) (row_of pos a t) i)
    (rotary_embedding_kernel st pos a units m)
    (rotate_slot st a (query_ptr a)
       (t * query_stride a + h * head_size a) (row_of pos a t) i m).
Proof.
  intros Hv Ht Hh Hi.
  destruct (valid_layout_spec a Hv) as (Hr & Hqs & Hks & Hqk & Hcq & Hck).
  unfold rotary_embedding_kernel, for_range.
  eapply agree_trans; [|now apply token_unit_query].
  apply (@loop_indep T _ (token_unit st pos a)).
  - apply NoDup_range.
  - now apply In_range.
  - intros t' Ht' Hne m' p k Hpk. apply In_range in Ht'.
    apply token_unit_frame.
    + eapply slot_not_rotated_elsewhere; eauto; lia.
    + intros [-> _].
      destruct (slot_cells_inv Hi Hpk) as [[Hp _] | Hp]; congruence.
  - apply local_of_slot. intros m0. now apply token_unit_query.
Qed.

Lemma kernel_key st pos a units t h i (m : cells T) :
  valid_layout a = true ->
  0 <= t < units -> 0 <= h < num_kv_heads a ->
  0 <= i < Z.quot (rot_dim a) 2 ->
  agree (slot_cells st a (key_ptr a)
           (t * key_stride a + h * head_size a) (row_of pos a t) i)
    (rotary_embedding_kernel st pos a units m)
    (rotate_slot st a (key_ptr a)
       (t * key_stride a + h * head_size a) (row_of pos a t) i m).
Proof.
  intros Hv Ht Hh Hi.
  destruct (valid_layout_spec a Hv) as (Hr & Hqs & Hks & Hqk & Hcq & Hck).
  unfold rotary_embedding_kernel, for_range.
  eapply agree_trans; [|now apply token_unit_key].
  apply (@loop_indep T _ (token_unit st pos a)).
  - apply NoDup_range.
  - now apply In_range.
  - intros t' Ht' Hne m' p k Hpk. apply In_range in Ht'.
    apply token_unit_frame.
    + intros [-> _].
      destruct (slot_cells_inv Hi Hpk) as [[Hp _] | Hp]; congruence.
    + eapply slot_not_rotated_elsewhere; eauto; lia.
  - apply local_of_slot. intros m0. now apply token_unit_key.
Qed.

(** On buffers laid out as the data model says, the kernel transforms
    every token fully. *)
Lemma kernel_fully_transformed st pos a units (m : cells T) :
  valid_layout a = true ->
  fully_transformed st pos a units m (rotary_embedding_kernel st pos a units m).
Proof.
  intros Hv t i Ht Hi.
  destruct (valid_layout_spec a Hv) as (Hr & _).
  split; intros h Hh; unfold pair_rotated; cbv zeta.
  - pose proof (@kernel_query st pos a units t h i m Hv Ht Hh Hi) as Hag.
    split.
    + rewrite (Hag (query_ptr a)
                 (t * query_stride a + h * head_size a
                  + x_index st (Z.quot (rot_dim a) 2) i)).
      * apply rotate_pair_x. unfold x_index, y_index. destruct st; lia.
      * left. split; [reflexivity|]. left. reflexivity.
    + rewrite (Hag (query_ptr a)
                 (t * query_stride a + h * head_size a
                  + y_index st (Z.quot (rot_dim a) 2) i)).
      * apply rotate_pair_y.
      * left. split; [reflexivity|]. right. reflexivity.
  - pose proof (@kernel_key st pos a units t h i m Hv Ht Hh Hi) as Hag.
    split.
    + rewrite (Hag (key_ptr a)
                 (t * key_stride a + h * head_size a
                  + x_index st (Z.quot (rot_dim a) 2) i)).
      * apply rotate_pair_x. unfold x_index, y_index. destruct st; lia.
      * left. split; [reflexivity|]. left. reflexivity.
    + rewrite (Hag (key_ptr a)
                 (t * key_stride a + h * head_size a
                  + y_index st (Z.quot (rot_dim a) 2) i)).
      * apply rotate_pair_y.
      * left. split; [reflexivity|]. right. reflexivity.
Qed.

(** An element past the rotated part of its head is in the rotated part
    of no head of no token. *)
Lemma tail_not_rotated a arr stride heads t h j t' :
  0 <= rot_dim a <= head_size a -> heads * head_size a <= stride ->
  0 <= t -> 0 <= t' -> 0 <= h < heads -> rot_dim a <= j < head_size a ->
  ~ rotated a arr stride heads t' arr (t * stride + h * head_size a + j).
Proof.
  intros Hr Hs Ht Ht' Hh Hj [_ (h' & Hh' & Hk')].
  pose proof (quot2_bounds (proj1 Hr)) as He.
  assert (E : j = t * stride + h * head_size a + j
                  - (t' * stride + h' * head_size a)).
  { refine (proj2 (proj2 (@slot_unique (head_size a) heads stride t t' h h'
                     j (t * stride + h * head_size a + j
                        - (t' * stride + h' * head_size a))
                     _ _ Hh Hh' Hs Ht Ht' _))); lia. }
  lia.
Qed.

End KernelFacts.

(** ** Floating-point arithmetic

    What the operations of [SpecFloat] compute, as far as the inverse law
    needs it: a product, a sum or a difference of two finite numbers
    whose exact value is below [2 ^ (emax - 1)] is a finite number again,
    within the fraction [2 ^ - prec] of the exact value (or, for a
    product in the subnormal range, within half of the least positive
    number). *)

(** *** Digits and shifts *)

(** A mantissa of [d] binary digits lies between [2 ^ (d - 1)] and
    [2 ^ d]. *)
Lemma digits2_pos_bounds (m : positive) :
  2 ^ (Zpos (digits2_pos m) - 1) <= Zpos m < 2 ^ Zpos (digits2_pos m).
Proof.
  induction m as [m IH | m IH |]; cbn [digits2_pos].
  - rewrite Pos2Z.inj_succ.
    replace (Z.succ (Zpos (digits2_pos m)) - 1)
      with (Z.succ (Zpos (digits2_pos m) - 1)) by lia.
    rewrite !Z.pow_succ_r by lia. lia.
  - rewrite Pos2Z.inj_succ.
    replace (Z.succ (Zpos (digits2_pos m)) - 1)
      with (Z.succ (Zpos (digits2_pos m) - 1)) by lia.
    rewrite !Z.pow_succ_r by lia. lia.
  - simpl. lia.
Qed.

Lemma pow2_pos (k : Z) : 0 <= k -> 0 < 2 ^ k.
Proof. intros. apply Z.pow_pos_nonneg; lia. Qed.

Lemma pow2_succ (k : Z) : 0 <= k -> 2 ^ (k + 1) = 2 * 2 ^ k.
Proof. intros. rewrite Z.add_1_r. apply Z.pow_succ_r; lia. Qed.

Lemma pow2_le (a b : Z) : 0 <= a <= b -> 2 ^ a <= 2 ^ b.
Proof. intros. apply Z.pow_le_mono_r; lia. Qed.

Lemma pow2_split (a b : Z) : 0 <= a -> 0 <= b -> 2 ^ (a + b) = 2 ^ a * 2 ^ b.
Proof. intros. apply Z.pow_add_r; lia. Qed.

Lemma Zdigits2_nonneg (z : Z) : 0 <= Zdigits2 z.
Proof. destruct z; simpl; lia. Qed.

Lemma Zdigits2_bounds (z : Z) :
  0 < z -> 2 ^ (Zdigits2 z - 1) <= z < 2 ^ Zdigits2 z.
Proof.
  destruct z as [|p|p]; try lia. intros _. apply digits2_pos_bounds.
Qed.

(** The number of digits is monotone. *)
Lemma Zdigits2_le (z k : Z) : 0 <= k -> 0 <= z < 2 ^ k -> Zdigits2 z <= k.
Proof.
  intros Hk Hz. destruct (Z.eq_dec z 0) as [-> | Hne]; [simpl; lia|].
  destruct (@Zdigits2_bounds z) as [Hl _]; [lia|].
  destruct (Z_le_gt_dec (Zdigits2 z) k) as [|Hgt]; [assumption|].
  pose proof (@pow2_le k (Zdigits2 z - 1)). lia.
Qed.

Lemma Zdigits2_ge (z k : Z) : 2 ^ (k - 1) <= z -> 0 < z -> k <= Zdigits2 z.
Proof.
  intros Hz Hpos.
  destruct (@Zdigits2_bounds z) as [_ Hu]; [lia|].
  destruct (Z_le_gt_dec k (Zdigits2 z)) as [|Hgt]; [assumption|].
  pose proof (Zdigits2_nonneg z).
  pose proof (@pow2_le (Zdigits2 z) (k - 1)). lia.
Qed.

(** Shifting to the right, one bit at a time: the record keeps the
    quotient and locates the remainder. *)
Lemma shifted_0 (m0 : Z) :
  0 <= m0 -> shifted m0 0 (Build_shr_record m0 false false).
Proof. intros. exists 0. simpl. lia. Qed.

Lemma shifted_step (m0 k : Z) (mrs : shr_record) :
  0 <= k -> shifted m0 k mrs -> shifted m0 (k + 1) (shr_1 mrs).
Proof.
  intros Hk (rem & Hrem & Hm & E & Hr & Hs).
  pose proof (pow2_pos Hk) as Hp. pose proof (pow2_succ Hk) as E2.
  destruct mrs as [m r s]. cbn [shr_m shr_r shr_s] in *.
  destruct m as [|p|p]; [| |lia].
  - exists rem. rewrite E2. cbn [shr_1 shr_m shr_r shr_s].
    destruct r, s; cbn [orb]; lia.
  - destruct p as [p|p|]; cbn [shr_1]; unfold shifted;
      cbn [shr_m shr_r shr_s]; rewrite E2.
    + exists (rem + 2 ^ k). destruct r, s; cbn [orb]; lia.
    + exists rem. destruct r, s; cbn [orb]; lia.
    + exists (rem + 2 ^ k). destruct r, s; cbn [orb]; lia.
Qed.

Lemma iter_pos_shifted (m0 : Z) (n : positive) :
  forall k mrs, 0 <= k -> shifted m0 k mrs ->
  shifted m0 (k + Zpos n) (iter_pos shr_1 n mrs).
Proof.
  induction n as [n IH | n IH |]; intros k mrs Hk Hs; cbn [iter_pos].
  - replace (k + Zpos n~1) with (k + 1 + Zpos n + Zpos n) by lia.
    apply IH; [lia|]. apply IH; [lia|]. now apply shifted_step.
  - replace (k + Zpos n~0) with (k + Zpos n + Zpos n) by lia.
    apply IH; [lia|]. now apply IH.
  - now apply shifted_step.
Qed.

(** Rounding the shifted mantissa to nearest even moves it by at most
    half a unit of the last place kept. *)
Lemma round_shifted (m0 k : Z) (mrs : shr_record) :
  0 <= k -> shifted m0 k mrs ->
  let m1 := round_nearest_even (shr_m mrs) (loc_of_shr_record mrs) in
  shr_m mrs <= m1 <= shr_m mrs + 1 /\
  m1 * 2 ^ k <= m0 + 2 ^ k /\
  2 * Z.abs (m1 * 2 ^ k - m0) <= 2 ^ k /\
  (k = 0 -> m1 = m0).
Proof.
  intros Hk (rem & Hrem & Hm & E & Hr & Hs). cbv zeta.
  pose proof (pow2_pos Hk) as Hp.
  destruct mrs as [m r s]. cbn [shr_m shr_r shr_s] in *.
  assert (H0 : k = 0 -> 2 ^ k = 1) by (intros ->; reflexivity).
  destruct r, s; cbn [loc_of_shr_record round_nearest_even];
    try destruct (Z.even m); repeat split; try lia.
Qed.

(** Shifting to the left, to align two mantissas or to normalise one. *)
Lemma iter_xO (m d : positive) :
  Zpos (Pos.iter xO m d) = Zpos m * 2 ^ Zpos d /\
  Zpos (digits2_pos (Pos.iter xO m d)) = Zpos (digits2_pos m) + Zpos d.
Proof.
  induction d as [|d IH] using Pos.peano_ind.
  - cbn [Pos.iter digits2_pos]. rewrite Pos2Z.inj_succ. split; lia.
  - rewrite Pos.iter_succ. cbn [digits2_pos].
    rewrite !Pos2Z.inj_succ, Z.pow_succ_r by lia.
    destruct IH as [E1 E2]. split; lia.
Qed.

Lemma shl_align_spec (m : positive) (e e' : Z) :
  snd (shl_align m e e') = Z.min e e' /\
  Zpos (fst (shl_align m e e')) = Zpos m * 2 ^ (e - Z.min e e') /\
  Zpos (digits2_pos (fst (shl_align m e e')))
  = Zpos (digits2_pos m) + (e - Z.min e e').
Proof.
  unfold shl_align. destruct (e' - e) as [|d|d] eqn:E; cbn [fst snd].
  - replace (e - Z.min e e') with 0 by lia. change (2 ^ 0) with 1. lia.
  - replace (e - Z.min e e') with 0 by lia. change (2 ^ 0) with 1. lia.
  - replace (e - Z.min e e') with (Zpos d) by lia.
    destruct (iter_xO m d). lia.
Qed.

(** Signs. *)
Lemma cond_Zopp_mul (a b : bool) (u v : Z) :
  cond_Zopp (xorb a b) (u * v) = cond_Zopp a u * cond_Zopp b v.
Proof. destruct a, b; simpl; lia. Qed.

Lemma cond_Zopp_scale (s : bool) (u k : Z) :
  cond_Zopp s (u * k) = cond_Zopp s u * k.
Proof. destruct s; simpl; lia. Qed.

Lemma cond_Zopp_abs (s : bool) (u : Z) : Z.abs (cond_Zopp s u) = Z.abs u.
Proof. destruct s; simpl; lia. Qed.

Lemma cond_Zopp_sub (s : bool) (u v : Z) :
  cond_Zopp s u - cond_Zopp s v = cond_Zopp s (u - v).
Proof. destruct s; simpl; lia. Qed.

(** Powers of two among the rationals. *)
Lemma Qpow2_pos (e : Z) : (0 < 2 ^ e)%Q.
Proof. apply Qpower_0_lt. reflexivity. Qed.

Lemma Qpow2_add (a b : Z) : (2 ^ (a + b) == 2 ^ a * 2 ^ b)%Q.
Proof. apply Qpower_plus. discriminate. Qed.

Lemma Qpow2_inject (k : Z) : 0 <= k -> (inject_Z (2 ^ k) == 2 ^ k)%Q.
Proof. intros. now apply (Zpower_Qpower 2). Qed.

Lemma Qpow2_cancel (a : Z) : (2 ^ a * 2 ^ (- a) == 1)%Q.
Proof. rewrite <- Qpow2_add. replace (a + - a) with 0 by lia. reflexivity. Qed.

Lemma inject_Z_nonneg (z : Z) : 0 <= z -> (0 <= inject_Z z)%Q.
Proof. intros. unfold Qle. simpl. lia. Qed.

Lemma Qabs_scale (z k : Z) :
  (Qabs (inject_Z z * 2 ^ k) == inject_Z (Z.abs z) * 2 ^ k)%Q.
Proof.
  rewrite Qabs_Qmult. rewrite (Qabs_pos (2 ^ k)).
  - reflexivity.
  - apply Qlt_le_weak, Qpow2_pos.
Qed.

Lemma scale_lt (z k e : Z) :
  k <= e -> (inject_Z z * 2 ^ k < 2 ^ e)%Q -> z < 2 ^ (e - k).
Proof.
  intros Hk H. rewrite Zlt_Qlt, (@Qpow2_inject (e - k)) by lia.
  apply Qmult_lt_r with (z := (2 ^ k)%Q); [apply Qpow2_pos|].
  rewrite <- Qpow2_add. replace (e - k + k) with e by lia. exact H.
Qed.

(** *** Rounding in a format

    [emin] is the exponent of the least positive number of the format
    and [fexp] gives the exponent at which a number with a given number
    of digits before the binary point is represented. *)

Section FloatFormat.
Variables prec emax : Z.
Hypothesis Hprec : 1 < prec.
Hypothesis Hemax : prec < emax.

Local Abbreviation emin := (SpecFloat.emin prec emax).
Local Abbreviation fexp := (SpecFloat.fexp prec emax).
Local Abbreviation SFfin := (SFfinite prec emax).
Local Abbreviation SFval := (F2Z prec emax).

Lemma emin_eq : emin = 3 - emax - prec.
Proof. reflexivity. Qed.

Lemma fexp_eq (e : Z) : fexp e = Z.max (e - prec) emin.
Proof. reflexivity. Qed.

(** [shr] shifts by [n] when [n] is positive and does nothing
    otherwise. *)
Lemma shr_shifted (m e n : Z) :
  0 <= m -> 0 <= n ->
  shifted m n (fst (shr (Build_shr_record m false false) e n)) /\
  snd (shr (Build_shr_record m false false) e n) = e + n.
Proof.
  intros Hm Hn. destruct n as [|p|p]; [| |lia]; cbn [shr fst snd].
  - split; [now apply shifted_0 | lia].
  - split; [|reflexivity].
    apply (@iter_pos_shifted m p 0); [lia | now apply shifted_0].
Qed.

Lemma shr_none (mrs : shr_record) (e n : Z) :
  n <= 0 -> shr mrs e n = (mrs, e).
Proof. destruct n as [|p|p]; [reflexivity | lia | reflexivity]. Qed.

(** Rounding a positive mantissa [m] with exponent [e] to the format,
    when [e] is not above the exponent [e'] the format gives to the
    number and the number is below [2 ^ (emax - 1)]: the result is a zero
    or a finite number with the sign asked for, whose mantissa at
    exponent [e'] is the nearest to [m * 2 ^ (e - e')]. *)
Lemma binary_round_aux_spec (s : bool) (m : positive) (e : Z) :
  let e' := fexp (Zpos (digits2_pos m) + e) in
  e <= e' ->
  Zpos (digits2_pos m) + e <= emax - 1 ->
  exists m1 : Z,
    0 <= m1 /\
    2 * Z.abs (m1 * 2 ^ (e' - e) - Zpos m) <= 2 ^ (e' - e) /\
    (e' = e -> m1 = Zpos m) /\
    match binary_round_aux prec emax s (Zpos m) e loc_Exact with
    | S754_zero s' => s' = s /\ m1 = 0
    | S754_finite s' m2 e2 =>
        s' = s /\ bounded prec emax m2 e2 = true /\ e' <= e2 /\
        Zpos m2 * 2 ^ (e2 - e') = m1
    | _ => False
    end.
Proof.
  cbv zeta. set (d := Zpos (digits2_pos m)). set (e' := fexp (d + e)).
  intros Hn Hmax.
  pose proof (digits2_pos_bounds m) as Hd. fold d in Hd.
  assert (Hd1 : 1 <= d) by (unfold d; lia).
  assert (He' : e' = Z.max (d + e - prec) emin) by reflexivity.
  pose proof emin_eq as Hemin.
  unfold binary_round_aux, shr_fexp.
  change (Zdigits2 (Zpos m)) with d. fold e'.
  change (shr_record_of_loc (Zpos m) loc_Exact)
    with (Build_shr_record (Zpos m) false false).
  destruct (@shr_shifted (Zpos m) e (e' - e)) as [Hsh He1]; [lia | lia |].
  destruct (shr (Build_shr_record (Zpos m) false false) e (e' - e))
    as [mrs e1]. cbn [fst snd] in Hsh, He1.
  assert (E1 : e1 = e') by lia. clear He1. subst e1.
  set (n := e' - e) in *.
  assert (Hn0 : 0 <= n) by (unfold n; lia).
  pose proof (pow2_pos Hn0) as Hpn.
  destruct (@round_shifted (Zpos m) n mrs Hn0 Hsh) as (Hq & Hup & Herr & Hex).
  set (m1 := round_nearest_even (shr_m mrs) (loc_of_shr_record mrs)) in *.
  destruct Hsh as (rem & Hrem & Hq0 & Eq & _).
  set (q := shr_m mrs) in *.
  (* the quotient has at most prec digits *)
  assert (Hpp : 0 < 2 ^ prec) by (apply pow2_pos; lia).
  assert (Hqlt : q < 2 ^ prec).
  { destruct (Z_lt_ge_dec q (2 ^ prec)) as [|Hge]; [assumption|]. exfalso.
    assert (2 ^ d <= 2 ^ (prec + n)) by (apply pow2_le; unfold n; lia).
    rewrite pow2_split in H by lia. nia. }
  assert (Hqge : emin <= d + e - prec -> 2 ^ (prec - 1) <= q).
  { intros Hnorm.
    assert (En : d - 1 = (prec - 1) + n) by (unfold n; lia).
    rewrite En, pow2_split in Hd by lia.
    assert (0 < 2 ^ (prec - 1)) by (apply pow2_pos; lia).
    nia. }
  assert (Hpp2 : 2 ^ prec = 2 * 2 ^ (prec - 1)).
  { replace prec with (prec - 1 + 1) at 1 by lia. apply pow2_succ. lia. }
  exists m1. split; [lia|]. split; [exact Herr|].
  split; [intros E0; apply Hex; unfold n; lia|].
  change (shr_record_of_loc m1 loc_Exact)
    with (Build_shr_record m1 false false).
  destruct (Z.eq_dec m1 (2 ^ prec)) as [Etop | Hlow].
  - (* the rounded mantissa is a power of two: one more shift *)
    assert (Edig : Zdigits2 m1 = prec + 1).
    { apply Z.le_antisymm.
      - apply Zdigits2_le; [lia|]. rewrite pow2_succ by lia. lia.
      - apply Zdigits2_ge; [|lia].
        replace (prec + 1 - 1) with prec by lia. lia. }
    rewrite Edig.
    replace (fexp (prec + 1 + e') - e') with 1
      by (rewrite fexp_eq; lia).
    cbn [shr iter_pos].
    assert (Hs1 : shifted m1 (0 + 1) (shr_1 (Build_shr_record m1 false false)))
      by (apply shifted_step; [lia | apply shifted_0; lia]).
    destruct Hs1 as (rem1 & Hrem1 & Hq1 & Eq1 & _).
    change (2 ^ (0 + 1)) with 2 in *.
    set (m2 := shr_m (shr_1 (Build_shr_record m1 false false))) in *.
    assert (Em2 : m2 = 2 ^ (prec - 1)) by lia.
    destruct m2 as [|p2|p2] eqn:Ep2; [lia| |lia].
    replace (e' + 1 <=? emax - prec) with true
      by (symmetry; apply Z.leb_le; lia).
    split; [reflexivity|]. split; [|split; [lia|]].
    + unfold bounded, canonical_mantissa. apply andb_true_iff. split.
      * apply Z.eqb_eq.
        assert (Edp : Zpos (digits2_pos p2) = prec).
        { change (Zpos (digits2_pos p2)) with (Zdigits2 (Zpos p2)).
          apply Z.le_antisymm.
          - apply Zdigits2_le; lia.
          - apply Zdigits2_ge; lia. }
        rewrite Edp, fexp_eq. lia.
      * apply Z.leb_le. lia.
    + replace (e' + 1 - e') with 1 by lia. change (2 ^ 1) with 2. lia.
  - (* no further shift *)
    assert (Hm1 : 0 <= m1 < 2 ^ prec) by lia.
    assert (Hdig : Zdigits2 m1 <= prec) by (apply Zdigits2_le; lia).
    pose proof (Zdigits2_nonneg m1) as Hdn.
    rewrite shr_none by (rewrite fexp_eq; lia).
    cbn [shr_m].
    destruct m1 as [|p1|p1] eqn:Ep1; [split; reflexivity | | lia].
    replace (e' <=? emax - prec) with true
      by (symmetry; apply Z.leb_le; lia).
    split; [reflexivity|]. split; [|split; [lia|]].
    + unfold bounded, canonical_mantissa. apply andb_true_iff. split.
      * apply Z.eqb_eq.
        change (Zpos (digits2_pos p1)) with (Zdigits2 (Zpos p1)).
        rewrite fexp_eq.
        destruct (Z_le_gt_dec emin (d + e - prec)) as [Hnorm | Hsub].
        -- assert (prec <= Zdigits2 (Zpos p1))
             by (apply Zdigits2_ge; [specialize (Hqge Hnorm)|]; lia).
           lia.
        -- lia.
      * apply Z.leb_le. lia.
    + replace (e' - e') with 0 by lia. change (2 ^ 0) with 1. lia.
Qed.

(** The finite numbers of the format: the exponent is in range and the
    mantissa has [prec] digits, or fewer at the least exponent. *)
Lemma bounded_spec (m : positive) (e : Z) :
  bounded prec emax m e = true ->
  emin <= e <= emax - prec /\ Zpos (digits2_pos m) <= prec /\
  (Zpos (digits2_pos m) = prec \/ e = emin) /\
  fexp (Zpos (digits2_pos m) + e) = e.
Proof.
  unfold bounded, canonical_mantissa. rewrite andb_true_iff, Z.eqb_eq, Z.leb_le.
  rewrite fexp_eq. pose proof emin_eq. lia.
Qed.

(** The value of the result of rounding [m * 2 ^ e], in units of
    [2 ^ b] for an exponent [b] that is at most [e] and [emin]: it is
    within the fraction [2 ^ - prec] of the exact value, or within half
    of the least positive number; and always the former when [e] is at
    least [emin]. *)
Lemma round_aux_value (s : bool) (m : positive) (e b : Z) :
  b <= e -> b <= emin ->
  e <= fexp (Zpos (digits2_pos m) + e) ->
  Zpos m * 2 ^ (e - b) < 2 ^ (emax - 1 - b) ->
  let r := binary_round_aux prec emax s (Zpos m) e loc_Exact in
  SFfin r = true /\
  exists v : Z,
    SFval r * 2 ^ (emin - b) = cond_Zopp s v /\
    (emin <= e -> 2 ^ prec * Z.abs (v - Zpos m * 2 ^ (e - b))
                  <= Zpos m * 2 ^ (e - b)) /\
    (2 ^ prec * Z.abs (v - Zpos m * 2 ^ (e - b)) <= Zpos m * 2 ^ (e - b) \/
     2 * Z.abs (v - Zpos m * 2 ^ (e - b)) <= 2 ^ (emin - b)).
Proof.
  intros Hb Hbm Hn Hmag. cbv zeta.
  set (d := Zpos (digits2_pos m)) in *.
  pose proof (digits2_pos_bounds m) as Hd. fold d in Hd.
  assert (Hd1 : 1 <= d) by (unfold d; lia).
  pose proof emin_eq as Hemin.
  assert (Hpb : 0 < 2 ^ (e - b)) by (apply pow2_pos; lia).
  assert (Hde : d + e <= emax - 1).
  { destruct (Z_le_gt_dec (d + e) (emax - 1)) as [|Hgt]; [assumption|].
    exfalso.
    assert (2 ^ (emax - 1 - b) <= 2 ^ ((d - 1) + (e - b)))
      by (apply pow2_le; lia).
    rewrite pow2_split in H by lia. nia. }
  destruct (@binary_round_aux_spec s m e Hn Hde)
    as (m1 & Hm1 & Herr & Hex & Hres).
  fold d in Herr, Hex, Hres. set (e' := fexp (d + e)) in *.
  assert (He' : e' = Z.max (d + e - prec) emin) by reflexivity.
  assert (Hpn : 0 < 2 ^ (e' - e)) by (apply pow2_pos; lia).
  assert (Epow : 2 ^ (e' - b) = 2 ^ (e' - e) * 2 ^ (e - b)).
  { rewrite <- pow2_split by lia. f_equal. lia. }
  assert (Hval : SFval (binary_round_aux prec emax s (Zpos m) e loc_Exact)
                 * 2 ^ (emin - b) = cond_Zopp s (m1 * 2 ^ (e' - b))
                 /\ SFfin (binary_round_aux prec emax s (Zpos m) e
                                loc_Exact) = true).
  { destruct (binary_round_aux prec emax s (Zpos m) e loc_Exact)
      as [s' | s' | | s' m2 e2]; try contradiction.
    - destruct Hres as [-> ->]. split; [|reflexivity].
      destruct s; reflexivity.
    - destruct Hres as (-> & Hbd & He2 & <-). split; [|exact Hbd].
      cbn [F2Z]. rewrite <- cond_Zopp_scale. f_equal.
      rewrite <- !Z.mul_assoc. f_equal.
      rewrite <- !pow2_split by lia. f_equal. lia. }
  destruct Hval as [Hval Hfin]. split; [exact Hfin|].
  exists (m1 * 2 ^ (e' - b)). split; [exact Hval|].
  assert (Eerr : Z.abs (m1 * 2 ^ (e' - b) - Zpos m * 2 ^ (e - b))
                 = Z.abs (m1 * 2 ^ (e' - e) - Zpos m) * 2 ^ (e - b)).
  { rewrite Epow, Z.mul_assoc, <- Z.mul_sub_distr_r, Z.abs_mul.
    f_equal. lia. }
  rewrite Eerr.
  assert (Hrel : emin <= d + e - prec \/ e' = e ->
                 2 ^ prec * (Z.abs (m1 * 2 ^ (e' - e) - Zpos m) * 2 ^ (e - b))
                 <= Zpos m * 2 ^ (e - b)).
  { intros Hnorm.
    destruct (Z.eq_dec e' e) as [E0 | Hne]; [|destruct Hnorm as [Hnorm|]].
    - rewrite (Hex E0), E0. replace (e - e) with 0 by lia.
      change (2 ^ 0) with 1. replace (Zpos m * 1 - Zpos m) with 0 by lia.
      change (Z.abs 0) with 0. nia.
    - assert (En : e' - e = (e' - e - 1) + 1) by lia.
      assert (E2 : 2 ^ (e' - e) = 2 * 2 ^ (e' - e - 1)).
      { rewrite En at 1. apply pow2_succ. lia. }
      assert (Ed : 2 ^ (d - 1) = 2 ^ prec * 2 ^ (e' - e - 1)).
      { rewrite <- pow2_split by lia. f_equal. lia. }
      assert (0 < 2 ^ prec) by (apply pow2_pos; lia).
      assert (0 < 2 ^ (e' - e - 1)) by (apply pow2_pos; lia).
      assert (Ha : Z.abs (m1 * 2 ^ (e' - e) - Zpos m) <= 2 ^ (e' - e - 1))
        by lia.
      assert (Hb' : 2 ^ prec * Z.abs (m1 * 2 ^ (e' - e) - Zpos m) <= Zpos m).
      { apply Z.le_trans with (2 ^ prec * 2 ^ (e' - e - 1)); [|lia].
        apply Z.mul_le_mono_nonneg_l; lia. }
      rewrite Z.mul_assoc. apply Z.mul_le_mono_nonneg_r; lia.
    - contradiction. }
  split; [intros Hge; apply Hrel; lia|].
  destruct (Z_le_gt_dec emin (d + e - prec)) as [Hnorm | Hsub].
  - left. apply Hrel. now left.
  - right. assert (E0 : e' = emin) by lia.
    assert (Ep : 2 ^ (emin - b) = 2 ^ (e' - e) * 2 ^ (e - b))
      by (rewrite <- E0; exact Epow).
    rewrite Ep. nia.
Qed.

Lemma F2Z_finite (s : bool) (m : positive) (e : Z) :
  SFval (S754_finite s m e) = cond_Zopp s (Zpos m * 2 ^ (e - emin)).
Proof. reflexivity. Qed.

(** Products are rounded to nearest: the error is at most the fraction
    [2 ^ - prec] of the exact product, or at most half of the least
    positive number. *)
Lemma SFmul_spec (x y : spec_float) :
  SFfin x = true -> SFfin y = true ->
  Z.abs (SFval x * SFval y) < 2 ^ (emax - 1 - 2 * emin) ->
  let r := SFmul prec emax x y in
  SFfin r = true /\
  (2 ^ prec * Z.abs (SFval r * 2 ^ (- emin) - SFval x * SFval y)
   <= Z.abs (SFval x * SFval y) \/
   2 * Z.abs (SFval r * 2 ^ (- emin) - SFval x * SFval y) <= 2 ^ (- emin)).
Proof.
  intros Hx Hy Hmag. cbv zeta.
  pose proof emin_eq as Hemin.
  assert (Hpp : 0 < 2 ^ prec) by (apply pow2_pos; lia).
  destruct x as [sx | sx | | sx mx ex]; try discriminate;
    destruct y as [sy | sy | | sy my ey]; try discriminate;
    try (cbn [SFmul SFfinite F2Z]; rewrite ?Z.mul_0_l, ?Z.mul_0_r;
         split; [reflexivity | left; simpl; lia]).
  cbn [SFfinite] in Hx, Hy.
  destruct (@bounded_spec _ _ Hx) as (Hex & Hdx & Hcx & _).
  destruct (@bounded_spec _ _ Hy) as (Hey & Hdy & Hcy & _).
  pose proof (digits2_pos_bounds mx) as Bx.
  pose proof (digits2_pos_bounds my) as By.
  set (dx := Zpos (digits2_pos mx)) in *.
  set (dy := Zpos (digits2_pos my)) in *.
  assert (Hdx1 : 1 <= dx) by (unfold dx; lia).
  assert (Hdy1 : 1 <= dy) by (unfold dy; lia).
  assert (Epow : 2 ^ (ex + ey - 2 * emin)
                 = 2 ^ (ex - emin) * 2 ^ (ey - emin)).
  { rewrite <- pow2_split by lia. f_equal. lia. }
  assert (Hpx : 0 < 2 ^ (ex - emin)) by (apply pow2_pos; lia).
  assert (Hpy : 0 < 2 ^ (ey - emin)) by (apply pow2_pos; lia).
  assert (EP : SFval (S754_finite sx mx ex) * SFval (S754_finite sy my ey)
               = cond_Zopp (xorb sx sy)
                   (Zpos (mx * my) * 2 ^ (ex + ey - 2 * emin))).
  { rewrite !F2Z_finite, <- cond_Zopp_mul, Epow, Pos2Z.inj_mul.
    f_equal. ring. }
  rewrite EP in *. rewrite cond_Zopp_abs in *.
  assert (Hdig : dx + dy - 1 <= Zpos (digits2_pos (mx * my))).
  { change (Zpos (digits2_pos (mx * my))) with (Zdigits2 (Zpos (mx * my))).
    apply Zdigits2_ge; [|lia].
    replace (dx + dy - 1 - 1) with ((dx - 1) + (dy - 1)) by lia.
    rewrite pow2_split, Pos2Z.inj_mul by lia.
    apply Z.mul_le_mono_nonneg; try lia;
      apply Z.lt_le_incl, pow2_pos; lia. }
  destruct (@round_aux_value (xorb sx sy) (mx * my) (ex + ey) (2 * emin))
    as (Hfin & v & Hv & _ & Hb); try lia.
  { rewrite fexp_eq. lia. }
  cbn [SFmul]. split; [exact Hfin|].
  replace (emin - 2 * emin) with (- emin) in * by lia.
  rewrite Hv, cond_Zopp_sub, cond_Zopp_abs.
  rewrite (Z.abs_eq (Zpos (mx * my) * 2 ^ (ex + ey - 2 * emin)))
    by (apply Z.mul_nonneg_nonneg; [lia|];
        apply Z.lt_le_incl, pow2_pos; lia).
  exact Hb.
Qed.

(** Sums of mantissas are normalised with a relative error of at most
    [2 ^ - prec]; small sums are exact. *)
Lemma binary_normalize_spec (z e : Z) :
  emin <= e ->
  Z.abs z * 2 ^ (e - emin) < 2 ^ (emax - 1 - emin) ->
  let r := binary_normalize prec emax z e false in
  SFfin r = true /\
  2 ^ prec * Z.abs (SFval r - z * 2 ^ (e - emin)) <= Z.abs z * 2 ^ (e - emin).
Proof.
  intros He Hmag. cbv zeta.
  pose proof emin_eq as Hemin.
  assert (Hpe : 0 < 2 ^ (e - emin)) by (apply pow2_pos; lia).
  assert (Hround : forall (s : bool) (m : positive),
            Zpos m * 2 ^ (e - emin) < 2 ^ (emax - 1 - emin) ->
            SFfin (binary_round prec emax s m e) = true /\
            2 ^ prec * Z.abs (SFval (binary_round prec emax s m e)
                              - cond_Zopp s (Zpos m * 2 ^ (e - emin)))
            <= Zpos m * 2 ^ (e - emin)).
  { intros s m Hm. unfold binary_round.
    set (f := fexp (Zpos (digits2_pos m) + e)).
    destruct (shl_align_spec m e f) as (E2 & E1 & E3).
    destruct (shl_align m e f) as [mz ez]. cbn [fst snd] in E1, E2, E3.
    assert (Hf : emin <= f) by (unfold f; rewrite fexp_eq; lia).
    assert (Eval : Zpos mz * 2 ^ (ez - emin) = Zpos m * 2 ^ (e - emin)).
    { rewrite E1, <- Z.mul_assoc, <- pow2_split by lia. do 2 f_equal. lia. }
    destruct (@round_aux_value s mz ez emin) as (Hfin & v & Hv & Hrel & _);
      try lia.
    { replace (Zpos (digits2_pos mz) + ez) with (Zpos (digits2_pos m) + e)
        by lia. fold f. lia. }
    split; [exact Hfin|].
    replace (emin - emin) with 0 in Hv by lia. change (2 ^ 0) with 1 in Hv.
    rewrite Z.mul_1_r in Hv. rewrite Hv, cond_Zopp_sub, cond_Zopp_abs.
    rewrite <- Eval. apply Hrel. lia. }
  destruct z as [|m|m]; cbn [binary_normalize].
  - split; [reflexivity|]. simpl. lia.
  - destruct (Hround false m) as [Hfin Hb]; [exact Hmag|].
    split; [exact Hfin|]. exact Hb.
  - destruct (Hround true m) as [Hfin Hb]; [exact Hmag|].
    split; [exact Hfin|].
    replace (Z.neg m * 2 ^ (e - emin))
      with (cond_Zopp true (Zpos m * 2 ^ (e - emin)))
      by (cbn [cond_Zopp]; lia).
    exact Hb.
Qed.

(** The aligned mantissas of a sum. *)
Lemma aligned_value (s : bool) (m : positive) (e ez : Z) :
  emin <= ez <= e ->
  cond_Zopp s (Zpos (fst (shl_align m e ez))) * 2 ^ (ez - emin)
  = SFval (S754_finite s m e).
Proof.
  intros He. destruct (shl_align_spec m e ez) as (_ & E1 & _).
  rewrite E1, F2Z_finite. replace (Z.min e ez) with ez by lia.
  rewrite <- cond_Zopp_scale, <- Z.mul_assoc, <- pow2_split by lia.
  do 3 f_equal. lia.
Qed.

(** Sums and differences are rounded to nearest, with an error of at
    most the fraction [2 ^ - prec] of the exact value. *)
Lemma SFadd_spec (x y : spec_float) :
  SFfin x = true -> SFfin y = true ->
  Z.abs (SFval x + SFval y) < 2 ^ (emax - 1 - emin) ->
  let r := SFadd prec emax x y in
  SFfin r = true /\
  2 ^ prec * Z.abs (SFval r - (SFval x + SFval y)) <= Z.abs (SFval x + SFval y).
Proof.
  intros Hx Hy Hmag. cbv zeta.
  assert (Hpp : 0 < 2 ^ prec) by (apply pow2_pos; lia).
  destruct x as [sx | sx | | sx mx ex]; try discriminate;
    destruct y as [sy | sy | | sy my ey]; try discriminate.
  - cbn [SFadd]. destruct sx, sy; split; try reflexivity; simpl; lia.
  - cbn [SFadd]. split; [exact Hy|].
    change (SFval (S754_zero sx)) with 0.
    replace (SFval (S754_finite sy my ey) - (0 + SFval (S754_finite sy my ey)))
      with 0 by lia.
    simpl Z.abs at 1. lia.
  - cbn [SFadd]. split; [exact Hx|].
    change (SFval (S754_zero sy)) with 0.
    replace (SFval (S754_finite sx mx ex) - (SFval (S754_finite sx mx ex) + 0))
      with 0 by lia.
    simpl Z.abs at 1. lia.
  - cbn [SFfinite] in Hx, Hy.
    destruct (@bounded_spec _ _ Hx) as (Hex & _).
    destruct (@bounded_spec _ _ Hy) as (Hey & _).
    cbn [SFadd]. set (ez := Z.min ex ey).
    set (z := cond_Zopp sx (Zpos (fst (shl_align mx ex ez)))
              + cond_Zopp sy (Zpos (fst (shl_align my ey ez)))).
    assert (Ez : z * 2 ^ (ez - emin)
                 = SFval (S754_finite sx mx ex) + SFval (S754_finite sy my ey)).
    { unfold z. rewrite Z.mul_add_distr_r, !aligned_value by (unfold ez; lia).
      reflexivity. }
    assert (Hpz : 0 < 2 ^ (ez - emin)) by (apply pow2_pos; unfold ez; lia).
    assert (Ea : Z.abs z * 2 ^ (ez - emin)
                 = Z.abs (SFval (S754_finite sx mx ex)
                          + SFval (S754_finite sy my ey))).
    { rewrite <- Ez, Z.abs_mul. f_equal. lia. }
    destruct (@binary_normalize_spec z ez) as [Hfin Hb];
      [unfold ez; lia | rewrite Ea; exact Hmag |].
    split; [exact Hfin|]. rewrite <- Ea, <- Ez. exact Hb.
Qed.

Lemma SFsub_spec (x y : spec_float) :
  SFfin x = true -> SFfin y = true ->
  Z.abs (SFval x - SFval y) < 2 ^ (emax - 1 - emin) ->
  let r := SFsub prec emax x y in
  SFfin r = true /\
  2 ^ prec * Z.abs (SFval r - (SFval x - SFval y)) <= Z.abs (SFval x - SFval y).
Proof.
  intros Hx Hy Hmag. cbv zeta.
  assert (Hpp : 0 < 2 ^ prec) by (apply pow2_pos; lia).
  destruct x as [sx | sx | | sx mx ex]; try discriminate;
    destruct y as [sy | sy | | sy my ey]; try discriminate.
  - cbn [SFsub]. destruct sx, sy; split; try reflexivity; simpl; lia.
  - cbn [SFsub]. split; [exact Hy|].
    change (SFval (S754_zero sx)) with 0. rewrite !F2Z_finite.
    replace (cond_Zopp (negb sy) (Zpos my * 2 ^ (ey - emin))
             - (0 - cond_Zopp sy (Zpos my * 2 ^ (ey - emin))))
      with 0 by (destruct sy; simpl; lia).
    simpl Z.abs at 1. lia.
  - cbn [SFsub]. split; [exact Hx|].
    change (SFval (S754_zero sy)) with 0.
    replace (SFval (S754_finite sx mx ex) - (SFval (S754_finite sx mx ex) - 0))
      with 0 by lia.
    simpl Z.abs at 1. lia.
  - cbn [SFfinite] in Hx, Hy.
    destruct (@bounded_spec _ _ Hx) as (Hex & _).
    destruct (@bounded_spec _ _ Hy) as (Hey & _).
    cbn [SFsub]. set (ez := Z.min ex ey).
    set (z := cond_Zopp sx (Zpos (fst (shl_align mx ex ez)))
              - cond_Zopp sy (Zpos (fst (shl_align my ey ez)))).
    assert (Ez : z * 2 ^ (ez - emin)
                 = SFval (S754_finite sx mx ex) - SFval (S754_finite sy my ey)).
    { unfold z. rewrite Z.mul_sub_distr_r, !aligned_value by (unfold ez; lia).
      reflexivity. }
    assert (Hpz : 0 < 2 ^ (ez - emin)) by (apply pow2_pos; unfold ez; lia).
    assert (Ea : Z.abs z * 2 ^ (ez - emin)
                 = Z.abs (SFval (S754_finite sx mx ex)
                          - SFval (S754_finite sy my ey))).
    { rewrite <- Ez, Z.abs_mul. f_equal. lia. }
    destruct (@binary_normalize_spec z ez) as [Hfin Hb];
      [unfold ez; lia | rewrite Ea; exact Hmag |].
    split; [exact Hfin|]. rewrite <- Ea, <- Ez. exact Hb.
Qed.

(** The same in rational values. *)
Lemma SF2Q_F2Z (x : spec_float) :
  SFfin x = true -> (SF2Q x == inject_Z (SFval x) * 2 ^ emin)%Q.
Proof.
  destruct x as [s | s | | s m e]; try discriminate; intros Hx.
  - simpl. ring.
  - cbn [SFfinite] in Hx.
    destruct (@bounded_spec _ _ Hx) as (He & _).
    cbn [SF2Q F2Z]. rewrite cond_Zopp_scale, inject_Z_mult.
    rewrite Qpow2_inject by lia.
    rewrite <- Qmult_assoc, <- Qpow2_add.
    replace (e - emin + emin) with e by lia. reflexivity.
Qed.

Lemma unit_roundoff_inv : (unit_roundoff prec * inject_Z (2 ^ prec) == 1)%Q.
Proof.
  unfold unit_roundoff. rewrite Qpow2_inject by lia.
  rewrite Qmult_comm. apply Qpow2_cancel.
Qed.

Lemma SFmul_Q (x y : spec_float) :
  SFfin x = true -> SFfin y = true ->
  (Qabs (SF2Q x * SF2Q y) < safe_bound emax)%Q ->
  SFfin (SFmul prec emax x y) = true /\
  (Qabs (SF2Q (SFmul prec emax x y) - SF2Q x * SF2Q y)
   <= unit_roundoff prec * Qabs (SF2Q x * SF2Q y) + half_least prec emax)%Q.
Proof.
  intros Hx Hy Hmag.
  pose proof emin_eq as Hemin.
  assert (EP : (SF2Q x * SF2Q y
                == inject_Z (SFval x * SFval y) * 2 ^ (2 * emin))%Q).
  { rewrite (SF2Q_F2Z x Hx), (SF2Q_F2Z y Hy), inject_Z_mult.
    replace (2 * emin) with (emin + emin) by lia. rewrite Qpow2_add. ring. }
  assert (Hz : Z.abs (SFval x * SFval y) < 2 ^ (emax - 1 - 2 * emin)).
  { apply scale_lt; [lia|]. rewrite <- Qabs_scale, <- EP. exact Hmag. }
  destruct (@SFmul_spec x y Hx Hy Hz) as [Hfin Hb].
  split; [exact Hfin|].
  set (r := SFmul prec emax x y) in *.
  assert (ED : (SF2Q r - SF2Q x * SF2Q y
                == inject_Z (SFval r * 2 ^ (- emin) - SFval x * SFval y)
                   * 2 ^ (2 * emin))%Q).
  { rewrite EP, (SF2Q_F2Z r Hfin).
    unfold Zminus. rewrite inject_Z_plus, inject_Z_opp, !inject_Z_mult.
    rewrite Qpow2_inject by lia.
    replace (2 * emin) with (emin + emin) by lia. rewrite Qpow2_add.
    pose proof (Qpow2_cancel emin) as Hc.
    set (E := (2 ^ emin)%Q) in *. set (Ei := (2 ^ (- emin))%Q) in *.
    setoid_replace (inject_Z (SFval r) * E)%Q
      with (inject_Z (SFval r) * E * (E * Ei))%Q by (rewrite Hc; ring).
    ring. }
  rewrite ED, EP, !Qabs_scale.
  set (D := Z.abs (SFval r * 2 ^ (- emin) - SFval x * SFval y)) in *.
  set (P := Z.abs (SFval x * SFval y)) in *.
  pose proof (Qpow2_pos (2 * emin)) as HE.
  set (E2 := (2 ^ (2 * emin))%Q) in *.
  assert (HD : (0 <= inject_Z D)%Q)
    by (apply inject_Z_nonneg; unfold D; lia).
  assert (HP : (0 <= inject_Z P)%Q)
    by (apply inject_Z_nonneg; unfold P; lia).
  pose proof unit_roundoff_inv as Hu.
  assert (Hup : (0 < unit_roundoff prec)%Q) by apply Qpow2_pos.
  assert (Hhl : (0 < half_least prec emax)%Q) by apply Qpow2_pos.
  destruct Hb as [Hb | Hb].
  - rewrite Zle_Qle, inject_Z_mult in Hb.
    set (Up := inject_Z (2 ^ prec)) in *.
    assert (H1 : (inject_Z D <= unit_roundoff prec * inject_Z P)%Q).
    { setoid_replace (inject_Z D)
        with (unit_roundoff prec * (Up * inject_Z D))%Q
        by (rewrite Qmult_assoc, Hu; ring).
      apply Qmult_le_l; assumption. }
    apply Qle_trans with (unit_roundoff prec * (inject_Z P * E2))%Q;
      [|lra].
    setoid_replace (unit_roundoff prec * (inject_Z P * E2))%Q
      with (unit_roundoff prec * inject_Z P * E2)%Q by ring.
    apply Qmult_le_compat_r; [exact H1 | lra].
  - rewrite Zle_Qle, inject_Z_mult in Hb. rewrite Qpow2_inject in Hb by lia.
    assert (Eh : (half_least prec emax * 2 == 2 ^ emin)%Q).
    { unfold half_least. change 2%Q with (2 ^ 1)%Q at 2.
      rewrite <- Qpow2_add. replace (emin - 1 + 1) with emin by lia.
      reflexivity. }
    assert (Ee : (E2 == 2 ^ emin * 2 ^ emin)%Q).
    { unfold E2. replace (2 * emin) with (emin + emin) by lia.
      apply Qpow2_add. }
    pose proof (Qpow2_cancel emin) as Hc.
    pose proof (Qpow2_pos emin) as He1.
    set (E := (2 ^ emin)%Q) in *. set (Ei := (2 ^ (- emin))%Q) in *.
    assert (Hnn : (0 <= unit_roundoff prec * (inject_Z P * E2))%Q).
    { apply Qmult_le_0_compat; [lra|].
      apply Qmult_le_0_compat; [exact HP | lra]. }
    apply Qle_trans with (half_least prec emax); [|lra].
    assert (H2 : (inject_Z D * E2 * 2 <= Ei * E2)%Q).
    { setoid_replace (inject_Z D * E2 * 2)%Q
        with (inject_Z 2 * inject_Z D * E2)%Q by ring.
      apply Qmult_le_compat_r; [exact Hb | lra]. }
    setoid_replace (Ei * E2)%Q with (E * (E * Ei))%Q in H2
      by (rewrite Ee; ring).
    rewrite Hc in H2. lra.
Qed.

Lemma relative_Q (a r : Z) :
  2 ^ prec * Z.abs (r - a) <= Z.abs a ->
  (Qabs (inject_Z r * 2 ^ emin - inject_Z a * 2 ^ emin)
   <= unit_roundoff prec * Qabs (inject_Z a * 2 ^ emin))%Q.
Proof.
  intros Hb.
  setoid_replace (inject_Z r * 2 ^ emin - inject_Z a * 2 ^ emin)%Q
    with (inject_Z (r - a) * 2 ^ emin)%Q
    by (unfold Zminus; rewrite inject_Z_plus, inject_Z_opp; ring).
  rewrite !Qabs_scale.
  pose proof (Qpow2_pos emin) as HE. set (E := (2 ^ emin)%Q) in *.
  pose proof unit_roundoff_inv as Hu.
  assert (Hup : (0 < unit_roundoff prec)%Q) by apply Qpow2_pos.
  rewrite Zle_Qle, inject_Z_mult in Hb.
  set (Up := inject_Z (2 ^ prec)) in *.
  assert (H1 : (inject_Z (Z.abs (r - a))
                <= unit_roundoff prec * inject_Z (Z.abs a))%Q).
  { setoid_replace (inject_Z (Z.abs (r - a)))
      with (unit_roundoff prec * (Up * inject_Z (Z.abs (r - a))))%Q
      by (rewrite Qmult_assoc, Hu; ring).
    apply Qmult_le_l; assumption. }
  setoid_replace (unit_roundoff prec * (inject_Z (Z.abs a) * E))%Q
    with (unit_roundoff prec * inject_Z (Z.abs a) * E)%Q by ring.
  apply Qmult_le_compat_r; [exact H1 | lra].
Qed.

Lemma SFadd_Q (x y : spec_float) :
  SFfin x = true -> SFfin y = true ->
  (Qabs (SF2Q x + SF2Q y) < safe_bound emax)%Q ->
  SFfin (SFadd prec emax x y) = true /\
  (Qabs (SF2Q (SFadd prec emax x y) - (SF2Q x + SF2Q y))
   <= unit_roundoff prec * Qabs (SF2Q x + SF2Q y))%Q.
Proof.
  intros Hx Hy Hmag.
  pose proof emin_eq as Hemin.
  assert (ES : (SF2Q x + SF2Q y == inject_Z (SFval x + SFval y) * 2 ^ emin)%Q).
  { rewrite (SF2Q_F2Z x Hx), (SF2Q_F2Z y Hy), inject_Z_plus. ring. }
  assert (Hz : Z.abs (SFval x + SFval y) < 2 ^ (emax - 1 - emin)).
  { apply scale_lt; [lia|]. rewrite <- Qabs_scale, <- ES. exact Hmag. }
  destruct (@SFadd_spec x y Hx Hy Hz) as [Hfin Hb].
  split; [exact Hfin|].
  rewrite ES, (SF2Q_F2Z _ Hfin). now apply relative_Q.
Qed.

Lemma SFsub_Q (x y : spec_float) :
  SFfin x = true -> SFfin y = true ->
  (Qabs (SF2Q x - SF2Q y) < safe_bound emax)%Q ->
  SFfin (SFsub prec emax x y) = true /\
  (Qabs (SF2Q (SFsub prec emax x y) - (SF2Q x - SF2Q y))
   <= unit_roundoff prec * Qabs (SF2Q x - SF2Q y))%Q.
Proof.
  intros Hx Hy Hmag.
  pose proof emin_eq as Hemin.
  assert (ES : (SF2Q x - SF2Q y == inject_Z (SFval x - SFval y) * 2 ^ emin)%Q).
  { rewrite (SF2Q_F2Z x Hx), (SF2Q_F2Z y Hy). unfold Zminus.
    rewrite inject_Z_plus, inject_Z_opp. ring. }
  assert (Hz : Z.abs (SFval x - SFval y) < 2 ^ (emax - 1 - emin)).
  { apply scale_lt; [lia|]. rewrite <- Qabs_scale, <- ES. exact Hmag. }
  destruct (@SFsub_spec x y Hx Hy Hz) as [Hfin Hb].
  split; [exact Hfin|].
  rewrite ES, (SF2Q_F2Z _ Hfin). now apply relative_Q.
Qed.

Lemma SFopp_finite (x : spec_float) : SFfin (SFopp x) = SFfin x.
Proof. destruct x; reflexivity. Qed.

End FloatFormat.

Lemma SFopp_Q (x : spec_float) : (SF2Q (SFopp x) == - SF2Q x)%Q.
Proof.
  destruct x as [s | s | | s m e]; try reflexivity.
  cbn [SFopp SF2Q].
  replace (cond_Zopp (negb s) (Zpos m)) with (- cond_Zopp s (Zpos m))
    by (destruct s; reflexivity).
  rewrite inject_Z_opp. ring.
Qed.

(** *** The errors of a rotation

    A rotated element is a rounded difference or sum of two rounded
    products; the inverse law is about two rotations in a row. *)

Lemma Qabs_le_iff (t e : Q) : (Qabs t <= e <-> - e <= t <= e)%Q.
Proof. apply Qabs_Qle_condition. Qed.

Lemma Qabs_mul_le (a b ba : Q) :
  (Qabs a <= ba -> Qabs b <= 1 -> Qabs (a * b) <= ba)%Q.
Proof.
  rewrite !Qabs_le_iff. intros Ha Hb. nra.
Qed.

(** Two rounded products, then a rounded difference or sum: [b1] and
    [b2] bound the exact products, [g] their exact difference or sum. *)
Lemma rounded_combination (u d b1 b2 g a1 a2 p1 p2 : Q) :
  (0 <= u -> 0 <= d ->
   Qabs a1 <= b1 -> Qabs a2 <= b2 ->
   Qabs (p1 - a1) <= u * Qabs a1 + d ->
   Qabs (p2 - a2) <= u * Qabs a2 + d ->
   (Qabs (a1 - a2) <= g -> Qabs (p1 - p2) <= g + u * (b1 + b2) + 2 * d) /\
   (Qabs (a1 + a2) <= g -> Qabs (p1 + p2) <= g + u * (b1 + b2) + 2 * d) /\
   (forall y, Qabs (y - (p1 - p2)) <= u * Qabs (p1 - p2) ->
      Qabs (y - (a1 - a2)) <= step_error u d (b1 + b2)) /\
   (forall y, Qabs (y - (p1 + p2)) <= u * Qabs (p1 + p2) ->
      Qabs (y - (a1 + a2)) <= step_error u d (b1 + b2)))%Q.
Proof.
  intros Hu Hd Ha1 Ha2 Hp1 Hp2.
  pose proof (Qabs_nonneg a1) as N1. pose proof (Qabs_nonneg a2) as N2.
  assert (U1 : (u * Qabs a1 <= u * b1)%Q) by nra.
  assert (U2 : (u * Qabs a2 <= u * b2)%Q) by nra.
  assert (Hp1' : (Qabs (p1 - a1) <= u * b1 + d)%Q) by lra.
  assert (Hp2' : (Qabs (p2 - a2) <= u * b2 + d)%Q) by lra.
  clear Hp1 Hp2 U1 U2.
  rewrite Qabs_le_iff in Ha1, Ha2, Hp1', Hp2'.
  assert (G1 : (Qabs (p1 - p2) <= (1 + u) * (b1 + b2) + 2 * d)%Q)
    by (rewrite Qabs_le_iff; lra).
  assert (G2 : (Qabs (p1 + p2) <= (1 + u) * (b1 + b2) + 2 * d)%Q)
    by (rewrite Qabs_le_iff; lra).
  split; [intros Hg; rewrite Qabs_le_iff in Hg; rewrite Qabs_le_iff; lra|].
  split; [intros Hg; rewrite Qabs_le_iff in Hg; rewrite Qabs_le_iff; lra|].
  unfold step_error. split; intros y Hy.
  - pose proof (Qabs_nonneg (p1 - p2)) as N3.
    assert (U3 : (u * Qabs (p1 - p2)
                  <= u * ((1 + u) * (b1 + b2) + 2 * d))%Q) by nra.
    assert (Hy' : (Qabs (y - (p1 - p2))
                   <= u * ((1 + u) * (b1 + b2) + 2 * d))%Q) by lra.
    rewrite Qabs_le_iff in Hy'. rewrite Qabs_le_iff. lra.
  - pose proof (Qabs_nonneg (p1 + p2)) as N3.
    assert (U3 : (u * Qabs (p1 + p2)
                  <= u * ((1 + u) * (b1 + b2) + 2 * d))%Q) by nra.
    assert (Hy' : (Qabs (y - (p1 + p2))
                   <= u * ((1 + u) * (b1 + b2) + 2 * d))%Q) by lra.
    rewrite Qabs_le_iff in Hy'. rewrite Qabs_le_iff. lra.
Qed.

(** A rotation by a cos and a sin near the unit circle lengthens a
    vector by little: both coordinates of the image of a vector with
    coordinates of magnitude at most [b] have magnitude at most
    [3/2 b]. *)
Lemma rotated_magnitude (b x1 x2 c s : Q) :
  (Qabs x1 <= b -> Qabs x2 <= b ->
   Qabs (c * c + s * s - 1) <= 1 # 64 ->
   Qabs (x1 * c - x2 * s) <= (3 # 2) * b /\
   Qabs (x2 * c + x1 * s) <= (3 # 2) * b)%Q.
Proof.
  rewrite !Qabs_le_iff. intros H1 H2 Hu.
  assert (Hb : (0 <= b)%Q) by lra.
  set (r1 := (x1 * c - x2 * s)%Q). set (r2 := (x2 * c + x1 * s)%Q).
  assert (E : (r1 * r1 + r2 * r2 == (x1 * x1 + x2 * x2) * (c * c + s * s))%Q)
    by (unfold r1, r2; ring).
  assert (Hx : (x1 * x1 + x2 * x2 <= 2 * (b * b))%Q) by nra.
  assert (Hx0 : (0 <= x1 * x1 + x2 * x2)%Q) by nra.
  assert (Hp : ((x1 * x1 + x2 * x2) * (c * c + s * s)
                <= 2 * (b * b) * (65 # 64))%Q) by nra.
  assert (S1 : (r1 * r1 <= (3 # 2) * b * ((3 # 2) * b))%Q) by nra.
  assert (S2 : (r2 * r2 <= (3 # 2) * b * ((3 # 2) * b))%Q) by nra.
  split; nra.
Qed.

(** The two rotations one after the other: what the errors add up to. *)
Lemma round_trip_error (u d n x : Q) :
  (0 <= u -> u <= 1 # 256 -> 0 <= d -> 0 <= n -> Qabs x <= n ->
   step_error u d (2 * (n + step_error u d n)) + 2 * step_error u d n
   + 4 * u * Qabs x
   <= 13 * u * n + 7 * d)%Q.
Proof.
  intros Hu Hu' Hd Hn Hx. unfold step_error.
  pose proof (Qabs_nonneg x) as Nx.
  assert (Hxu : (4 * u * Qabs x <= 4 * u * n)%Q) by nra.
  assert (Ha : (4 * (2 * u + u * u) + 2 * ((2 * u + u * u) * (2 * u + u * u))
                <= 9 * u)%Q) by nra.
  assert (Hb : (2 * (2 * u + u * u) * (2 + 2 * u) + 3 * (2 + 2 * u) <= 7)%Q)
    by nra.
  assert (Han : ((4 * (2 * u + u * u)
                  + 2 * ((2 * u + u * u) * (2 * u + u * u))) * n
                 <= 9 * u * n)%Q) by nra.
  assert (Hbd : ((2 * (2 * u + u * u) * (2 + 2 * u) + 3 * (2 + 2 * u)) * d
                 <= 7 * d)%Q) by nra.
  lra.
Qed.

(** Both rotations stay below the overflow bound [l] when the inputs
    have magnitude at most [l / 2]. *)
Lemma rotations_safe (u d n b l : Q) :
  (0 <= u -> u <= 1 # 256 -> 0 <= d -> d <= l * (1 # 32) ->
   0 <= n -> n <= 2 * b -> 0 <= b -> b <= l * (1 # 2) -> 0 < l ->
   (3 # 2) * b + u * (n + 0) + 2 * d < l /\
   (3 # 2) * b + step_error u d n < l /\
   (65 # 64) * b + 2 * step_error u d n
   + u * (n + step_error u d n + (n + step_error u d n)) + 2 * d < l)%Q.
Proof.
  intros Hu Hu' Hd Hd' Hn Hn' Hb Hb' Hl. unfold step_error.
  assert (Hc : (2 * u + u * u <= 1 # 64)%Q) by nra.
  assert (Ha : ((2 * u + u * u) * n <= n * (1 # 64))%Q) by nra.
  assert (Hb2 : ((2 + 2 * u) * d <= 3 * d)%Q) by nra.
  assert (Hun : (u * n <= n * (1 # 256))%Q) by nra.
  set (E := ((2 * u + u * u) * n + (2 + 2 * u) * d)%Q) in *.
  assert (HE : (0 <= E)%Q) by (unfold E; nra).
  assert (HE' : (E <= n * (1 # 64) + 3 * d)%Q) by (unfold E; lra).
  assert (Hm : (u * (n + E + (n + E)) <= (n + E + (n + E)) * (1 # 256))%Q)
    by nra.
  repeat split; lra.
Qed.

Section Rotation.
Variables prec emax : Z.
Hypothesis Hprec : 8 <= prec.
Hypothesis Hemax : prec < emax.

Local Abbreviation u := (unit_roundoff prec).
Local Abbreviation d := (half_least prec emax).
Local Abbreviation L := (safe_bound emax).
Local Abbreviation finite := (SFfinite prec emax).
Local Abbreviation mul := (SFmul prec emax).
Local Abbreviation add := (SFadd prec emax).
Local Abbreviation sub := (SFsub prec emax).

(** Formats with at least 8 bits of precision: the unit roundoff is at
    most 1/256, and the least positive number is far below the overflow
    bound. *)
Lemma format_ok : 1 < prec.
Proof. lia. Qed.

Lemma unit_roundoff_bounds : (0 <= u /\ u <= 1 # 256)%Q.
Proof.
  split; [apply Qlt_le_weak, Qpow2_pos|].
  unfold unit_roundoff. change (1 # 256)%Q with (2 ^ (- 8))%Q.
  apply Qpower_le_compat_l; [lia | discriminate].
Qed.

Lemma half_least_bounds : (0 <= d /\ d <= L * (1 # 32))%Q.
Proof.
  split; [apply Qlt_le_weak, Qpow2_pos|].
  unfold half_least, safe_bound, SpecFloat.emin.
  setoid_replace (2 ^ (emax - 1) * (1 # 32))%Q with (2 ^ (emax - 6))%Q.
  - apply Qpower_le_compat_l; [lia | discriminate].
  - replace (emax - 1) with (emax - 6 + 5) by lia. rewrite Qpow2_add.
    change (2 ^ 5)%Q with 32%Q. field.
Qed.

Lemma safe_bound_pos : (0 < L)%Q.
Proof. apply Qpow2_pos. Qed.

Lemma safe_bound_half : (2 ^ (emax - 2) == L * (1 # 2))%Q.
Proof.
  unfold safe_bound. replace (emax - 1) with (emax - 2 + 1) by lia.
  rewrite Qpow2_add. change (2 ^ 1)%Q with 2%Q. field.
Qed.

(** One rotation in floating point: [b1] and [b2] bound the two inputs,
    [g] both coordinates of the exact image; all three are below the
    overflow bound. *)
Lemma rotation_step (X1 X2 C S : spec_float) (b1 b2 g : Q) :
  finite X1 = true -> finite X2 = true ->
  finite C = true -> finite S = true ->
  (Qabs (SF2Q X1) <= b1)%Q -> (Qabs (SF2Q X2) <= b2)%Q ->
  (Qabs (SF2Q C) <= 1)%Q -> (Qabs (SF2Q S) <= 1)%Q ->
  (Qabs (SF2Q X1 * SF2Q C - SF2Q X2 * SF2Q S) <= g)%Q ->
  (Qabs (SF2Q X2 * SF2Q C + SF2Q X1 * SF2Q S) <= g)%Q ->
  (Qabs (SF2Q X1) < L)%Q -> (Qabs (SF2Q X2) < L)%Q ->
  (g + u * (b1 + b2) + 2 * d < L)%Q ->
  let Y1 := sub (mul X1 C) (mul X2 S) in
  let Y2 := add (mul X2 C) (mul X1 S) in
  finite Y1 = true /\ finite Y2 = true /\
  (Qabs (SF2Q Y1 - (SF2Q X1 * SF2Q C - SF2Q X2 * SF2Q S))
   <= step_error u d (b1 + b2))%Q /\
  (Qabs (SF2Q Y2 - (SF2Q X2 * SF2Q C + SF2Q X1 * SF2Q S))
   <= step_error u d (b1 + b2))%Q.
Proof.
  intros F1 F2 FC FS H1 H2 HC HS Hg1 Hg2 Hb1 Hb2 Hguard. cbv zeta.
  destruct unit_roundoff_bounds as [Hu _].
  destruct half_least_bounds as [Hd _].
  pose proof (@Qabs_mul_le _ _ _ H1 HC) as A1.
  pose proof (@Qabs_mul_le _ _ _ H2 HS) as A2.
  pose proof (@Qabs_mul_le _ _ _ H2 HC) as A3.
  pose proof (@Qabs_mul_le _ _ _ H1 HS) as A4.
  pose proof (@Qabs_mul_le _ _ _ (Qle_refl (Qabs (SF2Q X1))) HC) as M1.
  pose proof (@Qabs_mul_le _ _ _ (Qle_refl (Qabs (SF2Q X2))) HS) as M2.
  pose proof (@Qabs_mul_le _ _ _ (Qle_refl (Qabs (SF2Q X2))) HC) as M3.
  pose proof (@Qabs_mul_le _ _ _ (Qle_refl (Qabs (SF2Q X1))) HS) as M4.
  destruct (@SFmul_Q prec emax format_ok Hemax X1 C F1 FC) as [G1 E1];
    [lra|].
  destruct (@SFmul_Q prec emax format_ok Hemax X2 S F2 FS) as [G2 E2];
    [lra|].
  destruct (@SFmul_Q prec emax format_ok Hemax X2 C F2 FC) as [G3 E3];
    [lra|].
  destruct (@SFmul_Q prec emax format_ok Hemax X1 S F1 FS) as [G4 E4];
    [lra|].
  destruct (@rounded_combination u d b1 b2 g _ _ _ _ Hu Hd A1 A2 E1 E2)
    as (Gs & _ & Ks & _).
  destruct (@rounded_combination u d b2 b1 g _ _ _ _ Hu Hd A3 A4 E3 E4)
    as (_ & Ga & _ & Ka).
  specialize (Gs Hg1). specialize (Ga Hg2).
  destruct (@SFsub_Q prec emax format_ok Hemax _ _ G1 G2) as [GY1 EY1];
    [lra|].
  destruct (@SFadd_Q prec emax format_ok Hemax _ _ G3 G4) as [GY2 EY2];
    [lra|].
  split; [exact GY1|]. split; [exact GY2|]. split.
  - apply Ks. exact EY1.
  - setoid_replace (step_error u d (b1 + b2))
      with (step_error u d (b2 + b1)) by (unfold step_error; ring).
    apply Ka. exact EY2.
Qed.

(** The rotation by an angle followed by the rotation by the opposite
    angle. *)
Lemma float_round_trip (X1 X2 C S : spec_float) :
  finite X1 = true -> finite X2 = true ->
  finite C = true -> finite S = true ->
  (Qabs (SF2Q X1) <= 2 ^ (emax - 2))%Q ->
  (Qabs (SF2Q X2) <= 2 ^ (emax - 2))%Q ->
  (Qabs (SF2Q C) <= 1)%Q -> (Qabs (SF2Q S) <= 1)%Q ->
  (Qabs (SF2Q C * SF2Q C + SF2Q S * SF2Q S - 1) <= 4 * u)%Q ->
  let Y1 := sub (mul X1 C) (mul X2 S) in
  let Y2 := add (mul X2 C) (mul X1 S) in
  let Z1 := sub (mul Y1 C) (mul Y2 (SFopp S)) in
  let Z2 := add (mul Y2 C) (mul Y1 (SFopp S)) in
  let tol := (13 * u * (Qabs (SF2Q X1) + Qabs (SF2Q X2)) + 7 * d)%Q in
  finite Z1 = true /\ finite Z2 = true /\
  (Qabs (SF2Q Z1 - SF2Q X1) <= tol)%Q /\
  (Qabs (SF2Q Z2 - SF2Q X2) <= tol)%Q.
Proof.
  intros F1 F2 FC FS H1 H2 HC HS Hunit. cbv zeta.
  destruct unit_roundoff_bounds as [Hu Hu'].
  destruct half_least_bounds as [Hd Hd'].
  pose proof safe_bound_pos as HL.
  set (b := (L * (1 # 2))%Q).
  rewrite safe_bound_half in H1, H2. fold b in H1, H2.
  pose proof (Qabs_nonneg (SF2Q X1)) as N1.
  pose proof (Qabs_nonneg (SF2Q X2)) as N2.
  set (n := (Qabs (SF2Q X1) + Qabs (SF2Q X2))%Q) in *.
  assert (Hn : (0 <= n)%Q) by (unfold n; lra).
  assert (Hn' : (n <= 2 * b)%Q) by (unfold n; lra).
  assert (Hb : (0 <= b)%Q) by (unfold b; lra).
  destruct (@rotations_safe u d n b L Hu Hu' Hd Hd' Hn Hn' Hb (Qle_refl _) HL)
    as (Safe1 & SafeM & Safe2).
  set (x1 := SF2Q X1) in *. set (x2 := SF2Q X2) in *.
  set (c := SF2Q C) in *. set (s := SF2Q S) in *.
  assert (Hunit' : (Qabs (c * c + s * s - 1) <= 1 # 64)%Q) by lra.
  destruct (@rotated_magnitude b x1 x2 c s H1 H2 Hunit') as [M1 M2].
  (* the rotation by the angle *)
  assert (HM1 : (Qabs x1 < L)%Q) by (unfold b in H1; lra).
  assert (HM2 : (Qabs x2 < L)%Q) by (unfold b in H2; lra).
  destruct (@rotation_step X1 X2 C S (Qabs x1) (Qabs x2) ((3 # 2) * b)
              F1 F2 FC FS (Qle_refl _) (Qle_refl _) HC HS M1 M2 HM1 HM2)
    as (FY1 & FY2 & EY1 & EY2).
  { fold n. setoid_replace n with (n + 0)%Q by ring. exact Safe1. }
  fold x1 x2 c s in EY1, EY2. fold n in EY1, EY2.
  set (Y1 := sub (mul X1 C) (mul X2 S)) in *.
  set (Y2 := add (mul X2 C) (mul X1 S)) in *.
  set (E1 := step_error u d n) in *.
  assert (HE1 : (0 <= E1)%Q).
  { apply Qle_trans with (2 := EY1). apply Qabs_nonneg. }
  (* the magnitudes after it *)
  assert (R1 : (Qabs (x1 * c - x2 * s) <= n)%Q).
  { pose proof (@Qabs_mul_le _ _ _ (Qle_refl (Qabs x1)) HC) as T1.
    pose proof (@Qabs_mul_le _ _ _ (Qle_refl (Qabs x2)) HS) as T2.
    rewrite Qabs_le_iff in T1, T2. rewrite Qabs_le_iff. unfold n. lra. }
  assert (R2 : (Qabs (x2 * c + x1 * s) <= n)%Q).
  { pose proof (@Qabs_mul_le _ _ _ (Qle_refl (Qabs x2)) HC) as T1.
    pose proof (@Qabs_mul_le _ _ _ (Qle_refl (Qabs x1)) HS) as T2.
    rewrite Qabs_le_iff in T1, T2. rewrite Qabs_le_iff. unfold n. lra. }
  set (y1 := SF2Q Y1) in *. set (y2 := SF2Q Y2) in *.
  assert (B1 : (Qabs y1 <= n + E1)%Q).
  { rewrite Qabs_le_iff in EY1, R1. rewrite Qabs_le_iff. lra. }
  assert (B2 : (Qabs y2 <= n + E1)%Q).
  { rewrite Qabs_le_iff in EY2, R2. rewrite Qabs_le_iff. lra. }
  assert (B1' : (Qabs y1 <= (3 # 2) * b + E1)%Q).
  { rewrite Qabs_le_iff in EY1, M1. rewrite Qabs_le_iff. lra. }
  assert (B2' : (Qabs y2 <= (3 # 2) * b + E1)%Q).
  { rewrite Qabs_le_iff in EY2, M2. rewrite Qabs_le_iff. lra. }
  (* the differences, term by term *)
  assert (D1 : (Qabs ((y1 - (x1 * c - x2 * s)) * c) <= E1)%Q)
    by (apply Qabs_mul_le; assumption).
  assert (D2 : (Qabs ((y2 - (x2 * c + x1 * s)) * s) <= E1)%Q)
    by (apply Qabs_mul_le; assumption).
  assert (D3 : (Qabs ((y2 - (x2 * c + x1 * s)) * c) <= E1)%Q)
    by (apply Qabs_mul_le; assumption).
  assert (D4 : (Qabs ((y1 - (x1 * c - x2 * s)) * s) <= E1)%Q)
    by (apply Qabs_mul_le; assumption).
  assert (U1 : (Qabs (x1 * (c * c + s * s - 1)) <= 4 * u * Qabs x1)%Q).
  { rewrite Qabs_Qmult. pose proof (Qabs_nonneg (c * c + s * s - 1)). nra. }
  assert (U2 : (Qabs (x2 * (c * c + s * s - 1)) <= 4 * u * Qabs x2)%Q).
  { rewrite Qabs_Qmult. pose proof (Qabs_nonneg (c * c + s * s - 1)). nra. }
  assert (V1 : (4 * u * Qabs x1 <= b * (1 # 64))%Q) by nra.
  assert (V2 : (4 * u * Qabs x2 <= b * (1 # 64))%Q) by nra.
  (* the rotation by the opposite angle *)
  assert (FS' : finite (SFopp S) = true) by (rewrite SFopp_finite; exact FS).
  assert (HS' : (Qabs (SF2Q (SFopp S)) <= 1)%Q).
  { rewrite SFopp_Q, Qabs_opp. exact HS. }
  assert (W1 : (Qabs (y1 * c - y2 * SF2Q (SFopp S))
                <= (65 # 64) * b + 2 * E1)%Q).
  { rewrite SFopp_Q. fold s.
    rewrite Qabs_le_iff in D1, D2, U1, H1. rewrite Qabs_le_iff. lra. }
  assert (W2 : (Qabs (y2 * c + y1 * SF2Q (SFopp S))
                <= (65 # 64) * b + 2 * E1)%Q).
  { rewrite SFopp_Q. fold s.
    rewrite Qabs_le_iff in D3, D4, U2, H2. rewrite Qabs_le_iff. lra. }
  destruct (@rotation_step Y1 Y2 C (SFopp S) (n + E1) (n + E1)
              ((65 # 64) * b + 2 * E1) FY1 FY2 FC FS' B1 B2 HC HS' W1 W2
              (Qle_lt_trans _ _ _ B1' SafeM) (Qle_lt_trans _ _ _ B2' SafeM)
              Safe2)
    as (FZ1 & FZ2 & EZ1 & EZ2).
  split; [exact FZ1|]. split; [exact FZ2|].
  assert (EE : (step_error u d (n + E1 + (n + E1))
                == step_error u d (2 * (n + E1)))%Q)
    by (unfold step_error; ring).
  rewrite EE in EZ1, EZ2. clear EE.
  fold y1 y2 c in EZ1, EZ2.
  rewrite SFopp_Q in EZ1, EZ2. fold s in EZ1, EZ2.
  set (E2 := step_error u d (2 * (n + E1))) in *.
  assert (Hx1 : (Qabs x1 <= n)%Q) by (unfold n; lra).
  assert (Hx2 : (Qabs x2 <= n)%Q) by (unfold n; lra).
  pose proof (@round_trip_error u d n x1 Hu Hu' Hd Hn Hx1) as T1.
  pose proof (@round_trip_error u d n x2 Hu Hu' Hd Hn Hx2) as T2.
  fold E1 in T1, T2. fold E2 in T1, T2.
  rewrite Qabs_le_iff in EZ1, EZ2, D1, D2, D3, D4, U1, U2.
  split; rewrite Qabs_le_iff.
  - lra.
  - lra.
Qed.

End Rotation.

(** ** Tensor accessors *)

Lemma dim_nonneg (t : Tensor) : 0 <= dim t.
Proof. unfold dim. lia. Qed.

Lemma size_last (t : Tensor) :
  size t (-1) =
  if 1 <=? dim t then Ok (last_dim t) else Throws (IndexError (-1) (dim t)).
Proof.
  unfold size, maybe_wrap_dim, last_dim.
  destruct (Z.leb_spec 1 (dim t)).
  - replace (- dim t <=? -1) with true by (symmetry; apply Z.leb_le; lia).
    replace (-1 <? dim t) with true by (symmetry; apply Z.ltb_lt; lia).
    cbn [andb]. change (-1 <? 0) with true. cbv iota.
    now replace (-1 + dim t) with (dim t - 1) by lia.
  - pose proof (dim_nonneg t).
    now replace (- dim t <=? -1) with false by (symmetry; apply Z.leb_gt; lia).
Qed.

Lemma size_second (t : Tensor) :
  size t 1 =
  if 2 <=? dim t then Ok (second_dim t) else Throws (IndexError 1 (dim t)).
Proof.
  unfold size, maybe_wrap_dim, second_dim.
  destruct (Z.leb_spec 2 (dim t)).
  - replace (- dim t <=? 1) with true by (symmetry; apply Z.leb_le; lia).
    replace (1 <? dim t) with true by (symmetry; apply Z.ltb_lt; lia).
    reflexivity.
  - replace (1 <? dim t) with false by (symmetry; apply Z.ltb_ge; lia).
    now rewrite andb_false_r.
Qed.

Lemma stride_row (t : Tensor) :
  stride t (-2) =
  if 2 <=? dim t then Ok (row_stride t) else Throws (IndexError (-2) (dim t)).
Proof.
  unfold stride, maybe_wrap_dim, row_stride.
  destruct (Z.leb_spec 2 (dim t)).
  - replace (- dim t <=? -2) with true by (symmetry; apply Z.leb_le; lia).
    replace (-2 <? dim t) with true by (symmetry; apply Z.ltb_lt; lia).
    cbn [andb]. change (-2 <? 0) with true. cbv iota.
    now replace (-2 + dim t) with (dim t - 2) by lia.
  - destruct (Z.leb_spec (- dim t) (-2)); simpl; [|reflexivity].
    replace (-2 <? dim t) with false by (symmetry; apply Z.ltb_ge; lia).
    reflexivity.
Qed.

Lemma ScalarType_eqb_eq (a b : ScalarType) :
  ScalarType_eqb a b = true <-> a = b.
Proof. destruct a, b; simpl; split; congruence. Qed.

Lemma ScalarType_eqb_refl (a : ScalarType) : ScalarType_eqb a a = true.
Proof. now apply ScalarType_eqb_eq. Qed.

Lemma typed_data_ptr_ok (ty : ScalarType) (t : Tensor) :
  ScalarType_eqb (scalar_type t) ty = true ->
  typed_data_ptr ty t = Ok (data_ptr t).
Proof. unfold typed_data_ptr. now intros ->. Qed.

Lemma numel_nonneg (t : Tensor) : wf_tensor t = true -> 0 <= numel t.
Proof.
  unfold wf_tensor, numel. rewrite !andb_true_iff. intros [[_ Hs] _].
  induction (sizes t) as [|s l IH]; simpl in *; [lia|].
  apply andb_true_iff in Hs as [Hs Hl]. apply Z.leb_le in Hs.
  specialize (IH Hl). nia.
Qed.

(** ** The entry points, path by path *)

Ltac host_step :=
  match goal with
  | |- context [if ?b then _ else _] => destruct b eqn:?
  end.

Ltac host_run :=
  unfold bind, lift, ret, div_int64, stream_of, emit; simpl.

Ltac ranks_ok c :=
  replace (1 <=? dim (query c)) with true by (symmetry; apply Z.leb_le; lia);
  replace (1 <=? dim (key c)) with true by (symmetry; apply Z.leb_le; lia);
  replace (2 <=? dim (query c)) with true by (symmetry; apply Z.leb_le; lia);
  replace (2 <=? dim (key c)) with true by (symmetry; apply Z.leb_le; lia);
  replace (2 <=? dim (cos_sin_cache c)) with true
    by (symmetry; apply Z.leb_le; lia).

(** Closes the paths of [resolve] that a failed condition excludes. *)
Ltac excluded Hno :=
  exfalso;
  repeat match goal with
    | H : (_ <=? _) = true |- _ => apply Z.leb_le in H
    | H : (_ <=? _) = false |- _ => apply Z.leb_gt in H
    end;
  try lia;
  rewrite ?andb_false_iff, ?negb_false_iff in Hno;
  repeat match goal with
    | H : _ \/ _ |- _ => destruct H
    end;
  try congruence;
  try (match goal with
       | H : (_ <=? _) = false |- _ => apply Z.leb_gt in H
       end; lia).

Lemma bind_ext {A B} (m m' : host A) (k k' : A -> host B) (tr : trace) :
  (forall tr0, m tr0 = m' tr0) -> (forall a tr0, k a tr0 = k' a tr0) ->
  bind m k tr = bind m' k' tr.
Proof.
  intros Hm Hk. unfold bind. rewrite Hm.
  destruct (m' tr) as [[a | e | u] tr']; auto.
Qed.

Lemma launches_app (tr tr' : trace) :
  launches (tr ++ tr') = launches tr ++ launches tr'.
Proof. apply filter_app. Qed.

Lemma gpu_resolve_accepts (c : Call) (tr : trace) :
  shapes_ok c = true -> resolve c tr = (Ok (resolved_shape c), tr).
Proof.
  unfold shapes_ok. rewrite !andb_true_iff, !negb_true_iff, !Z.leb_le.
  intros ((((Hq & Hw) & Hc) & Hh) & Hk).
  unfold resolve, resolved_shape. host_run.
  rewrite !size_last, size_second, !stride_row.
  ranks_ok c.
  simpl. rewrite Hw. simpl. rewrite Hh. simpl. reflexivity.
Qed.

Lemma gpu_resolve_rejects (c : Call) (tr : trace) :
  shapes_ok c = false ->
  exists f, resolve c tr = (f, tr) /\ is_ok f = false.
Proof.
  unfold shapes_ok, resolve. host_run.
  rewrite !size_last, size_second, !stride_row.
  intros Hno.
  repeat (host_step; simpl; try (eexists; split; reflexivity)).
  all: excluded Hno.
Qed.

Lemma npu_resolve_accepts (c : Call) (tr : trace) :
  shapes_ok c = true ->
  ScalarType_eqb (scalar_type (positions c)) Long = true ->
  vllm_ascend.resolve c tr =
  (Ok (resolved_shape c, data_ptr (positions c)), tr).
Proof.
  unfold shapes_ok. rewrite !andb_true_iff, !negb_true_iff, !Z.leb_le.
  intros ((((Hq & Hw) & Hc) & Hh) & Hk) Hp.
  unfold vllm_ascend.resolve, resolved_shape. host_run.
  rewrite !size_last, size_second, !stride_row, (typed_data_ptr_ok _ _ Hp).
  ranks_ok c.
  simpl. rewrite Hw. simpl. rewrite Hh. simpl. reflexivity.
Qed.

Lemma npu_resolve_rejects (c : Call) (tr : trace) :
  shapes_ok c && ScalarType_eqb (scalar_type (positions c)) Long = false ->
  exists f, vllm_ascend.resolve c tr = (f, tr) /\ is_ok f = false.
Proof.
  unfold shapes_ok, vllm_ascend.resolve, typed_data_ptr. host_run.
  rewrite !size_last, size_second, !stride_row.
  intros Hno.
  repeat (host_step; simpl; try (eexists; split; reflexivity)).
  all: excluded Hno.
Qed.

Lemma npu_accepted (env : Env) (c : Call) (tr : trace) :
  npu_accepts env c = true ->
  vllm_ascend.rotary_embedding env c tr =
  (Ok tt,
   tr ++ [GetRuntimePlatformInfosByDevice 0; GetCoreNumByType 0 "aiv";
          NpuLaunch (npu_submission env c)]).
Proof.
  unfold npu_accepts. rewrite !andb_true_iff, negb_true_iff.
  intros ((((Hs & Hp) & Hst) & Hd) & Ha).
  unfold vllm_ascend.rotary_embedding, vllm_ascend.custom_handler.
  unfold bind at 1. rewrite (npu_resolve_accepts c tr Hs Hp).
  unfold npu_submission, aiv_num, loop_cnt_of in *.
  destruct (getCurrentNPUStream env) as [s|]; [|discriminate].
  destruct (get_dtype_from_torch env (scalar_type (query c)));
    try discriminate.
  host_run. rewrite Ha. simpl.
  rewrite <- !app_assoc. reflexivity.
Qed.

Lemma npu_rejected (env : Env) (c : Call) (tr : trace) :
  npu_accepts env c = false ->
  exists f tr',
    vllm_ascend.rotary_embedding env c tr = (f, tr') /\ is_ok f = false /\
    launches tr' = launches tr.
Proof.
  unfold npu_accepts. intros Hno.
  unfold vllm_ascend.rotary_embedding, vllm_ascend.custom_handler.
  unfold bind at 1.
  destruct (shapes_ok c && ScalarType_eqb (scalar_type (positions c)) Long)
    eqn:Hs.
  - apply andb_true_iff in Hs as [Hs Hp].
    rewrite (npu_resolve_accepts c tr Hs Hp).
    simpl in Hno.
    destruct (getCurrentNPUStream env) as [s|]; host_run;
      [|eexists; eexists; repeat split; reflexivity].
    destruct (get_dtype_from_torch env (scalar_type (query c))); host_run;
      try (eexists; eexists; repeat split; reflexivity).
    simpl in Hno. apply negb_false_iff in Hno. unfold aiv_num in Hno.
    rewrite Hno. simpl.
    eexists; eexists; repeat split.
    rewrite !launches_app. simpl. now rewrite !app_nil_r.
  - destruct (npu_resolve_rejects c tr Hs) as (f & Ef & Hf).
    rewrite Ef. destruct f; try discriminate;
      eexists; eexists; repeat split; reflexivity.
Qed.

(** The typed pointers of the launch, in any order. *)
Lemma eval_args_run (st : ScalarType) (c : Call) (order : list launch_arg)
    (tr : trace) :
  eval_args st c order tr =
  (match first_failure st c order with
   | Some e => Throws e
   | None => Ok tt
   end, tr).
Proof.
  induction order as [|a rest IH]; [reflexivity|].
  cbn [eval_args first_failure]. unfold bind, lift.
  destruct a; cbn [arg_ptr]; unfold typed_data_ptr;
    match goal with
    | |- context [ScalarType_eqb ?x ?y] => destruct (ScalarType_eqb x y)
    end; auto.
Qed.

Lemma first_failure_app (st : ScalarType) (c : Call)
    (l l' : list launch_arg) :
  first_failure st c (l ++ l') =
  match first_failure st c l with
  | Some e => Some e
  | None => first_failure st c l'
  end.
Proof.
  induction l as [|a l IH]; [reflexivity|].
  cbn [app first_failure]. destruct (arg_ptr st c a); auto.
Qed.

(** No argument throws exactly when positions are [int64] and key and
    cache have the element type of the query. *)
Lemma first_failure_none (c : Call) (order : list launch_arg) :
  ScalarType_eqb (scalar_type (positions c)) Long = true ->
  ScalarType_eqb (scalar_type (key c)) (scalar_type (query c)) = true ->
  ScalarType_eqb (scalar_type (cos_sin_cache c)) (scalar_type (query c))
    = true ->
  first_failure (scalar_type (query c)) c order = None.
Proof.
  intros Hp Hk Hc. induction order as [|a rest IH]; [reflexivity|].
  cbn [first_failure].
  destruct a; cbn [arg_ptr]; unfold typed_data_ptr;
    rewrite ?Hp, ?Hk, ?Hc, ?ScalarType_eqb_refl; exact IH.
Qed.

Lemma first_failure_written (c : Call) :
  first_failure (scalar_type (query c)) c written_order =
  if negb (ScalarType_eqb (scalar_type (positions c)) Long)
  then Some (ScalarTypeError Long (scalar_type (positions c)))
  else if negb (ScalarType_eqb (scalar_type (key c)) (scalar_type (query c)))
  then Some (ScalarTypeError (scalar_type (query c)) (scalar_type (key c)))
  else if negb (ScalarType_eqb (scalar_type (cos_sin_cache c))
                  (scalar_type (query c)))
  then Some (ScalarTypeError (scalar_type (query c))
               (scalar_type (cos_sin_cache c)))
  else None.
Proof.
  unfold written_order. cbn [first_failure arg_ptr]. unfold typed_data_ptr.
  rewrite ScalarType_eqb_refl.
  destruct (ScalarType_eqb (scalar_type (positions c)) Long); simpl; auto.
  destruct (ScalarType_eqb (scalar_type (key c)) (scalar_type (query c)));
    simpl; auto.
  destruct (ScalarType_eqb (scalar_type (cos_sin_cache c))
              (scalar_type (query c))); reflexivity.
Qed.

(** An argument that throws is one whose element type is not the one
    asked for. *)
Lemma first_failure_some (c : Call) (order : list launch_arg) (e : exn) :
  first_failure (scalar_type (query c)) c order = Some e ->
  (scalar_type (positions c) <> Long /\
   e = ScalarTypeError Long (scalar_type (positions c))) \/
  (scalar_type (key c) <> scalar_type (query c) /\
   e = ScalarTypeError (scalar_type (query c)) (scalar_type (key c))) \/
  (scalar_type (cos_sin_cache c) <> scalar_type (query c) /\
   e = ScalarTypeError (scalar_type (query c))
         (scalar_type (cos_sin_cache c))).
Proof.
  induction order as [|a rest IH]; [discriminate|].
  cbn [first_failure].
  destruct a; cbn [arg_ptr]; unfold typed_data_ptr;
    match goal with
    | |- context [ScalarType_eqb ?x ?y] =>
        destruct (ScalarType_eqb x y) eqn:E
    end; try exact IH; intros [= <-].
  - left. split; [|reflexivity].
    intros E'. apply ScalarType_eqb_eq in E'. congruence.
  - now rewrite ScalarType_eqb_refl in E.
  - right; left. split; [|reflexivity].
    intros E'. apply ScalarType_eqb_eq in E'. congruence.
  - right; right. split; [|reflexivity].
    intros E'. apply ScalarType_eqb_eq in E'. congruence.
Qed.

(** Whatever the order, every argument is evaluated: when none throws,
    the element types are the ones asked for. *)
Lemma first_failure_complete (c : Call) (order : list launch_arg) :
  first_failure (scalar_type (query c)) c (order ++ written_order) = None ->
  scalar_type (positions c) = Long /\
  scalar_type (key c) = scalar_type (query c) /\
  scalar_type (cos_sin_cache c) = scalar_type (query c).
Proof.
  rewrite first_failure_app.
  destruct (first_failure (scalar_type (query c)) c order); [discriminate|].
  rewrite first_failure_written.
  destruct (ScalarType_eqb (scalar_type (positions c)) Long) eqn:Hp;
    [|discriminate].
  destruct (ScalarType_eqb (scalar_type (key c)) (scalar_type (query c)))
    eqn:Hk; [|discriminate].
  destruct (ScalarType_eqb (scalar_type (cos_sin_cache c))
              (scalar_type (query c))) eqn:Hc; [|discriminate].
  intros _. now rewrite <- !ScalarType_eqb_eq.
Qed.

(** The typed pointers of the launch in closed form: the compiler's
    order first, then what it leaves out. *)
Lemma gpu_args_run (env : Env) (c : Call) (tr : trace) (B : Type)
    (k : Z -> Z -> Z -> Z -> host B) :
  (eval_args (scalar_type (query c)) c (argument_order env) ;;;
   p <- lift (typed_data_ptr Long (positions c)) ;;
   q <- lift (typed_data_ptr (scalar_type (query c)) (query c)) ;;
   k' <- lift (typed_data_ptr (scalar_type (query c)) (key c)) ;;
   cs <- lift (typed_data_ptr (scalar_type (query c)) (cos_sin_cache c)) ;;
   k p q k' cs) tr =
  match first_failure (scalar_type (query c)) c
          (argument_order env ++ written_order) with
  | Some e => (Throws e, tr)
  | None =>
      k (data_ptr (positions c)) (data_ptr (query c)) (data_ptr (key c))
        (data_ptr (cos_sin_cache c)) tr
  end.
Proof.
  rewrite first_failure_app, first_failure_written.
  unfold bind at 1. rewrite eval_args_run.
  destruct (first_failure (scalar_type (query c)) c (argument_order env));
    [reflexivity|].
  unfold bind, lift, typed_data_ptr. rewrite ScalarType_eqb_refl.
  destruct (ScalarType_eqb (scalar_type (positions c)) Long); simpl; auto.
  destruct (ScalarType_eqb (scalar_type (key c)) (scalar_type (query c)));
    simpl; auto.
  destruct (ScalarType_eqb (scalar_type (cos_sin_cache c))
              (scalar_type (query c))); reflexivity.
Qed.

(** The GPU entry point once the shape computations have passed. *)
Lemma gpu_late_path (env : Env) (c : Call) (tr : trace) :
  shapes_ok c = true ->
  rotary_embedding env c tr =
  let tr1 := tr ++ [SetDevice (device (query c))] in
  match getCurrentCUDAStream env (device (query c)) with
  | None => (Throws StreamError, tr1)
  | Some s =>
      if negb (dispatch_floating_types env (scalar_type (query c)))
      then (Throws (NotImplementedError "rotary_embedding"
                      (scalar_type (query c))), tr1)
      else
        match first_failure (scalar_type (query c)) c
                (argument_order env ++ written_order) with
        | Some e => (Throws e, tr1)
        | None => (Ok tt, tr1 ++ [GpuLaunch (gpu_submission env c)])
        end
  end.
Proof.
  intros Hs. cbv zeta.
  unfold rotary_embedding, VLLM_DISPATCH_FLOATING_TYPES.
  unfold bind at 1. rewrite (gpu_resolve_accepts c tr Hs).
  unfold gpu_submission.
  unfold bind at 1. unfold emit at 1. unfold bind at 1.
  destruct (getCurrentCUDAStream env (device (query c))) as [s|];
    unfold stream_of, ret, lift; [|reflexivity].
  destruct (dispatch_floating_types env (scalar_type (query c)));
    [|reflexivity].
  cbn [negb]. rewrite gpu_args_run.
  destruct (first_failure (scalar_type (query c)) c
              (argument_order env ++ written_order)); [reflexivity|].
  destruct (is_neox c); reflexivity.
Qed.

Lemma gpu_accepted (env : Env) (c : Call) (tr : trace) :
  gpu_accepts env c = true ->
  rotary_embedding env c tr =
  (Ok tt,
   tr ++ [SetDevice (device (query c)); GpuLaunch (gpu_submission env c)]).
Proof.
  unfold gpu_accepts. rewrite !andb_true_iff.
  intros (((((Hs & Hst) & Hd) & Hp) & Hk) & Hc).
  rewrite (gpu_late_path env c tr Hs). cbv zeta.
  destruct (getCurrentCUDAStream env (device (query c))) as [s|];
    [|discriminate].
  rewrite Hd, (first_failure_none c _ Hp Hk Hc). cbn [negb].
  rewrite <- !app_assoc. reflexivity.
Qed.

Lemma gpu_rejected (env : Env) (c : Call) (tr : trace) :
  gpu_accepts env c = false ->
  exists f tr',
    rotary_embedding env c tr = (f, tr') /\ is_ok f = false /\
    launches tr' = launches tr.
Proof.
  unfold gpu_accepts. intros Hno.
  destruct (shapes_ok c) eqn:Hs.
  - rewrite (gpu_late_path env c tr Hs). cbv zeta. simpl in Hno.
    assert (Hl : launches (tr ++ [SetDevice (device (query c))]) = launches tr)
      by (rewrite launches_app; simpl; now rewrite app_nil_r).
    destruct (getCurrentCUDAStream env (device (query c))) as [s|];
      [|eexists; eexists; repeat split; try reflexivity; exact Hl].
    simpl in Hno.
    destruct (dispatch_floating_types env (scalar_type (query c)));
      cbn [negb];
      [|eexists; eexists; repeat split; try reflexivity; exact Hl].
    simpl in Hno.
    destruct (first_failure (scalar_type (query c)) c
                (argument_order env ++ written_order)) as [e|] eqn:Ef;
      [eexists; eexists; repeat split; try reflexivity; exact Hl|].
    exfalso. rewrite first_failure_app in Ef.
    destruct (first_failure (scalar_type (query c)) c (argument_order env));
      [discriminate|].
    rewrite first_failure_written in Ef.
    destruct (ScalarType_eqb (scalar_type (positions c)) Long);
      [|discriminate].
    destruct (ScalarType_eqb (scalar_type (key c)) (scalar_type (query c)));
      [|discriminate].
    destruct (ScalarType_eqb (scalar_type (cos_sin_cache c))
                (scalar_type (query c))); discriminate.
  - destruct (gpu_resolve_rejects c tr Hs) as (f & Ef & Hf).
    unfold rotary_embedding. unfold bind at 1.
    rewrite Ef. destruct f; try discriminate;
      eexists; eexists; repeat split; reflexivity.
Qed.

(** Every call takes one of the two paths. *)
Lemma npu_outcome (env : Env) (c : Call) :
  is_ok (fst (vllm_ascend.rotary_embedding env c [])) = npu_accepts env c /\
  launches (snd (vllm_ascend.rotary_embedding env c [])) =
  if npu_accepts env c then [NpuLaunch (npu_submission env c)] else [].
Proof.
  destruct (npu_accepts env c) eqn:Ha.
  - rewrite (npu_accepted env c [] Ha). split; reflexivity.
  - destruct (npu_rejected env c [] Ha) as (f & tr' & E & Hf & Hl).
    rewrite E. split; assumption.
Qed.

Lemma gpu_outcome (env : Env) (c : Call) :
  is_ok (fst (rotary_embedding env c [])) = gpu_accepts env c /\
  launches (snd (rotary_embedding env c [])) =
  if gpu_accepts env c then [GpuLaunch (gpu_submission env c)] else [].
Proof.
  destruct (gpu_accepts env c) eqn:Ha.
  - rewrite (gpu_accepted env c [] Ha). split; reflexivity.
  - destruct (gpu_rejected env c [] Ha) as (f & tr' & E & Hf & Hl).
    rewrite E. split; assumption.
Qed.

(** * The claims *)

(** ** C1: precondition violations *)

(** C1, counterexample.  The call [call_bad] violates every shape
    precondition of the specification: [head_size] 2 does not divide the
    width 5 of query and key, and [rot_dim] 3 is odd and larger than
    [head_size].  Both entry points return normally and submit a kernel
    for it, with [num_heads] = 5 / 2 = 2. *)
Lemma shape_violation_is_submitted :
  wf_call call_bad = true /\
  last_dim (query call_bad) mod c_head_size call_bad = 1 /\
  Z.odd (second_dim (cos_sin_cache call_bad)) = true /\
  c_head_size call_bad < second_dim (cos_sin_cache call_bad) /\
  violates_shape_precondition call_bad = true /\
  vllm_ascend.rotary_embedding env_ex call_bad [] =
    (Ok tt, [GetRuntimePlatformInfosByDevice 0; GetCoreNumByType 0 "aiv";
             NpuLaunch (npu_submission env_ex call_bad)]) /\
  rotary_embedding env_ex call_bad [] =
    (Ok tt, [SetDevice 0; GpuLaunch (gpu_submission env_ex call_bad)]) /\
  num_heads (args_of call_bad) = 2.
Proof. vm_compute. repeat split; congruence. Qed.

(** C1, amended.  Neither entry point checks that [head_size] divides the
    last dimension, that [rot_dim] is even or that [rot_dim <= head_size].
    A call returns normally exactly when the accessors find the ranks
    they need (query, key and cache of rank at least 2), the divisors
    (query width, [head_size]) are not zero, the positions are [int64],
    a stream is available and, for the GPU backend, the dtype dispatch
    has a case for the query's element type and key and cache have that
    type; for the NPU backend, the dtype helper returns and the core
    count is not zero.  Such a call submits exactly one kernel; every
    other call stops before any submission. *)
Theorem entry_point_failures (env : Env) (c : Call) :
  (is_ok (fst (vllm_ascend.rotary_embedding env c [])) = npu_accepts env c /\
   launches (snd (vllm_ascend.rotary_embedding env c [])) =
   if npu_accepts env c then [NpuLaunch (npu_submission env c)] else [])
  /\
  (is_ok (fst (rotary_embedding env c [])) = gpu_accepts env c /\
   launches (snd (rotary_embedding env c [])) =
   if gpu_accepts env c then [GpuLaunch (gpu_submission env c)] else []).
Proof. split; [apply npu_outcome | apply gpu_outcome]. Qed.

(** ** C2: the shape descriptor *)

(** C2, counterexample.  The cache of [call_wide] has 2^31 + 2 columns;
    the call satisfies every shape precondition, yet the [int] variable
    [rot_dim] holds -2147483646, not the cache's second dimension. *)
Lemma wide_cache_rot_dim :
  wf_call call_wide = true /\
  violates_shape_precondition call_wide = false /\
  resolve call_wide [] = (Ok (resolved_shape call_wide), []) /\
  vllm_ascend.resolve call_wide [] =
    (Ok (resolved_shape call_wide, 100), []) /\
  second_dim (cos_sin_cache call_wide) = 2147483650 /\
  s_rot_dim (resolved_shape call_wide) = -2147483646.
Proof. vm_compute. repeat split; congruence. Qed.

(** C2, amended.  Whenever an entry point gets past its shape
    computations, [num_tokens] is the element count of the query divided
    by the width of its last dimension, and [rot_dim], [num_heads] and
    [num_kv_heads] are the cache's second dimension and the quotients
    (C++ division, truncating) of the query's and the key's last
    dimension by [head_size], each converted to a 32-bit [int]: they are
    exactly those values whenever those fit in a signed 32-bit integer. *)
Theorem shape_descriptor (c : Call) (tr : trace) (sh : shape) (tr' : trace) :
  resolve c tr = (Ok sh, tr') \/
  (exists p, vllm_ascend.resolve c tr = (Ok (sh, p), tr')) ->
  s_num_tokens sh = Z.quot (numel (query c)) (last_dim (query c)) /\
  s_rot_dim sh = to_int32 (second_dim (cos_sin_cache c)) /\
  s_num_heads sh = to_int32 (Z.quot (last_dim (query c)) (c_head_size c)) /\
  s_num_kv_heads sh = to_int32 (Z.quot (last_dim (key c)) (c_head_size c)) /\
  (fits_int32 (second_dim (cos_sin_cache c)) ->
   s_rot_dim sh = second_dim (cos_sin_cache c)) /\
  (fits_int32 (Z.quot (last_dim (query c)) (c_head_size c)) ->
   s_num_heads sh = Z.quot (last_dim (query c)) (c_head_size c)) /\
  (fits_int32 (Z.quot (last_dim (key c)) (c_head_size c)) ->
   s_num_kv_heads sh = Z.quot (last_dim (key c)) (c_head_size c)).
Proof.
  intros Hres.
  assert (E : sh = resolved_shape c).
  { destruct Hres as [Hg | [p Hn]].
    - destruct (shapes_ok c) eqn:Hs.
      + rewrite (gpu_resolve_accepts c tr Hs) in Hg. congruence.
      + destruct (gpu_resolve_rejects c tr Hs) as (f & Ef & Hf).
        rewrite Ef in Hg. inversion Hg; subst. discriminate.
    - destruct (shapes_ok c && ScalarType_eqb (scalar_type (positions c)) Long)
        eqn:Hs.
      + apply andb_true_iff in Hs as [Hs Hp].
        rewrite (npu_resolve_accepts c tr Hs Hp) in Hn. congruence.
      + destruct (npu_resolve_rejects c tr Hs) as (f & Ef & Hf).
        rewrite Ef in Hn. inversion Hn; subst. discriminate. }
  subst sh. unfold resolved_shape. simpl.
  repeat split; try reflexivity; intros Hfit; now apply to_int32_fits.
Qed.

(** The descriptor of [call_ok]: 16 query elements in rows of 8 make 2
    tokens, with 2 query heads and 1 key head of size 4 and [rot_dim] 4. *)
Lemma shape_descriptor_witness :
  resolve call_ok [] = (Ok (mkShape 2 4 2 1 8 4), []) /\
  s_num_tokens (mkShape 2 4 2 1 8 4)
    = Z.quot (numel (query call_ok)) (last_dim (query call_ok)) /\
  s_rot_dim (mkShape 2 4 2 1 8 4) = second_dim (cos_sin_cache call_ok) /\
  s_num_heads (mkShape 2 4 2 1 8 4)
    = Z.quot (last_dim (query call_ok)) (c_head_size call_ok) /\
  s_num_kv_heads (mkShape 2 4 2 1 8 4)
    = Z.quot (last_dim (key call_ok)) (c_head_size call_ok).
Proof.
  assert (R : resolve call_ok [] = (Ok (mkShape 2 4 2 1 8 4), []))
    by reflexivity.
  destruct (@shape_descriptor call_ok [] (mkShape 2 4 2 1 8 4) []
              (or_introl R)) as (H1 & _ & _ & _ & H5 & H6 & H7).
  split; [exact R|].
  split; [exact H1|].
  split; [apply H5; unfold fits_int32; vm_compute; split; congruence|].
  split; [apply H6; unfold fits_int32; vm_compute; split; congruence|].
  apply H7; unfold fits_int32; vm_compute; split; congruence.
Defined.

(** ** C5: the variant *)

(** C5.  The kernel an entry point submits runs the neox variant when
    [is_neox] is true and the interleaved variant when it is false: the
    variants of the submissions of a call are the single variant
    [style_of (is_neox c)] when the call returns normally and none
    otherwise, whatever the other arguments and the environment are. *)
Theorem variant_selected_by_is_neox (env : Env) (c : Call) :
  map variant (launches (snd (vllm_ascend.rotary_embedding env c []))) =
  (if is_ok (fst (vllm_ascend.rotary_embedding env c []))
   then [Some (style_of (is_neox c))] else [])
  /\
  map variant (launches (snd (rotary_embedding env c []))) =
  (if is_ok (fst (rotary_embedding env c []))
   then [Some (style_of (is_neox c))] else []).
Proof.
  destruct (npu_outcome env c) as [-> ->].
  destruct (gpu_outcome env c) as [-> ->].
  split.
  - destruct (npu_accepts env c); reflexivity.
  - destruct (gpu_accepts env c); reflexivity.
Qed.

(** ** C3 and C7: the transform *)

Section Transform.
Context {T : Type} `{Scalar T}.

(** C3.  In neox style, on buffers laid out as the data model says, the
    kernel leaves in the pair [(i, i + rot_dim/2)] of every head [h] of
    every token [t] the values x1*cos - x2*sin and x2*cos + x1*sin,
    where x1 and x2 are the two elements before the call and cos and sin
    are entries [i] and [i + rot_dim/2] of row [position[t]] of the
    cache.  This holds for the [num_heads] heads of the query buffer and
    for the [num_kv_heads] heads of the key buffer, with the same cos and
    sin. *)
Theorem neox_rotation (pos : Z -> Z) (a : kernel_args) (units : Z)
    (m : cells T) (t h i : Z) :
  valid_layout a = true ->
  0 <= t < units -> 0 <= i < rot_dim a / 2 ->
  let m' := rotary_embedding_kernel Neox pos a units m in
  let half := rot_dim a / 2 in
  let cos := cache_at m a (pos t) i in
  let sin := cache_at m a (pos t) (i + half) in
  (0 <= h < num_heads a ->
   query_at m' a t h i =
     ssub (smul (query_at m a t h i) cos)
          (smul (query_at m a t h (i + half)) sin) /\
   query_at m' a t h (i + half) =
     sadd (smul (query_at m a t h (i + half)) cos)
          (smul (query_at m a t h i) sin))
  /\
  (0 <= h < num_kv_heads a ->
   key_at m' a t h i =
     ssub (smul (key_at m a t h i) cos)
          (smul (key_at m a t h (i + half)) sin) /\
   key_at m' a t h (i + half) =
     sadd (smul (key_at m a t h (i + half)) cos)
          (smul (key_at m a t h i) sin)).
Proof.
  intros Hv Ht Hi.
  destruct (valid_layout_spec a Hv) as (Hr & _).
  assert (Eq : rot_dim a / 2 = Z.quot (rot_dim a) 2)
    by (symmetry; apply Z.quot_div_nonneg; lia).
  cbv zeta. rewrite Eq in *.
  unfold query_at, key_at, cache_at.
  split; intros Hh.
  - pose proof (@kernel_query T _ Neox pos a units t h i m Hv Ht Hh Hi) as Hag.
    split.
    + rewrite (Hag (query_ptr a)
                 (t * query_stride a + h * head_size a + i)).
      * unfold rotate_slot, row_of, x_index, y_index, cos_index, sin_index.
        apply rotate_pair_x. lia.
      * left. split; [reflexivity|]. left. reflexivity.
    + rewrite (Hag (query_ptr a)
                 (t * query_stride a + h * head_size a
                  + (i + Z.quot (rot_dim a) 2))).
      * unfold rotate_slot, row_of, x_index, y_index, cos_index, sin_index.
        apply rotate_pair_y.
      * left. split; [reflexivity|]. right. reflexivity.
  - pose proof (@kernel_key T _ Neox pos a units t h i m Hv Ht Hh Hi) as Hag.
    split.
    + rewrite (Hag (key_ptr a) (t * key_stride a + h * head_size a + i)).
      * unfold rotate_slot, row_of, x_index, y_index, cos_index, sin_index.
        apply rotate_pair_x. lia.
      * left. split; [reflexivity|]. left. reflexivity.
    + rewrite (Hag (key_ptr a)
                 (t * key_stride a + h * head_size a
                  + (i + Z.quot (rot_dim a) 2))).
      * unfold rotate_slot, row_of, x_index, y_index, cos_index, sin_index.
        apply rotate_pair_y.
      * left. split; [reflexivity|]. right. reflexivity.
Qed.

(** C7.  On buffers laid out as the data model says and in either style,
    the kernel leaves every element at an index from [rot_dim] on of
    every head of every token as it was, in the query and in the key
    buffer; and it leaves every cell of memory as it was that is not
    among the first [rot_dim] elements of a head of a token in one of the
    two buffers. *)
Theorem pass_through (st : style) (pos : Z -> Z) (a : kernel_args)
    (units : Z) (m : cells T) :
  valid_layout a = true ->
  let m' := rotary_embedding_kernel st pos a units m in
  (forall t h j, 0 <= t < units -> 0 <= h < num_heads a ->
     rot_dim a <= j < head_size a ->
     query_at m' a t h j = query_at m a t h j) /\
  (forall t h j, 0 <= t < units -> 0 <= h < num_kv_heads a ->
     rot_dim a <= j < head_size a ->
     key_at m' a t h j = key_at m a t h j) /\
  (forall p k,
     (forall t, 0 <= t < units ->
        ~ rotary_part a (query_ptr a) (query_stride a) (num_heads a) t p k /\
        ~ rotary_part a (key_ptr a) (key_stride a) (num_kv_heads a) t p k) ->
     m' p k = m p k).
Proof.
  intros Hv.
  destruct (valid_layout_spec a Hv) as (Hr & Hqs & Hks & Hqk & Hcq & Hck).
  pose proof (quot2_bounds (proj1 Hr)) as He.
  cbv zeta. unfold query_at, key_at. repeat split.
  - intros t h j Ht Hh Hj. apply kernel_frame. intros t' Ht'. split.
    + apply tail_not_rotated; auto; lia.
    + intros [E _]. contradiction.
  - intros t h j Ht Hh Hj. apply kernel_frame. intros t' Ht'. split.
    + intros [E _]. congruence.
    + apply tail_not_rotated; auto; lia.
  - intros p k Hout. apply kernel_frame. intros t Ht.
    destruct (Hout t Ht) as [Hq Hk].
    split; intros [-> (h & Hh & Hin)]; [apply Hq | apply Hk];
      (split; [reflexivity|]; exists h; split; [assumption | lia]).
Qed.

End Transform.

(** On [args_ex] (heads of size 4 with [rot_dim] 2, so [rot_dim/2] = 1)
    and the integer memory [mem_ex], whose cache rows hold cos = 0 and
    sin = 1: the pair of head 1 of token 1 of the query, (2012, 2013),
    becomes (-2013, 2012), and the pair of head 0 of token 1 of the key,
    (3004, 3005), becomes (-3005, 3004). *)
Lemma neox_rotation_witness :
  valid_layout args_ex = true /\
  query_at (rotary_embedding_kernel Neox pos_ex args_ex 2 mem_ex)
    args_ex 1 1 0 = -2013 /\
  query_at (rotary_embedding_kernel Neox pos_ex args_ex 2 mem_ex)
    args_ex 1 1 1 = 2012 /\
  key_at (rotary_embedding_kernel Neox pos_ex args_ex 2 mem_ex)
    args_ex 1 0 0 = -3005 /\
  key_at (rotary_embedding_kernel Neox pos_ex args_ex 2 mem_ex)
    args_ex 1 0 1 = 3004.
Proof.
  assert (Hv : valid_layout args_ex = true) by reflexivity.
  assert (Ht : 0 <= 1 < 2) by lia.
  assert (Hi : 0 <= 0 < rot_dim args_ex / 2) by (vm_compute; split; congruence).
  destruct (@neox_rotation Z Scalar_Z pos_ex args_ex 2 mem_ex 1 1 0 Hv Ht Hi)
    as [Hq _].
  destruct (@neox_rotation Z Scalar_Z pos_ex args_ex 2 mem_ex 1 0 0 Hv Ht Hi)
    as [_ Hk].
  destruct (Hq ltac:(vm_compute; split; congruence)) as [Hq1 Hq2].
  destruct (Hk ltac:(vm_compute; split; congruence)) as [Hk1 Hk2].
  split; [exact Hv|].
  split; [exact (eq_trans Hq1 eq_refl)|].
  split; [exact (eq_trans Hq2 eq_refl)|].
  split; [exact (eq_trans Hk1 eq_refl) | exact (eq_trans Hk2 eq_refl)].
Defined.

(** On the same input, elements 2 and 3 of head 1 of token 1 of the
    query, past [rot_dim] = 2, keep their values 2014 and 2015, and so
    does element 3 of head 0 of token 0 of the key. *)
Lemma pass_through_witness :
  valid_layout args_ex = true /\
  query_at (rotary_embedding_kernel Neox pos_ex args_ex 2 mem_ex)
    args_ex 1 1 2 = 2014 /\
  query_at (rotary_embedding_kernel Interleaved pos_ex args_ex 2 mem_ex)
    args_ex 1 1 3 = 2015 /\
  key_at (rotary_embedding_kernel Neox pos_ex args_ex 2 mem_ex)
    args_ex 0 0 3 = 3003.
Proof.
  assert (Hv : valid_layout args_ex = true) by reflexivity.
  destruct (@pass_through Z Scalar_Z Neox pos_ex args_ex 2 mem_ex Hv)
    as (Hq & Hk & _).
  destruct (@pass_through Z Scalar_Z Interleaved pos_ex args_ex 2 mem_ex Hv)
    as (Hq' & _ & _).
  split; [exact Hv|].
  split; [rewrite Hq; [reflexivity | | |]; vm_compute; split; congruence|].
  split; [rewrite Hq'; [reflexivity | | |]; vm_compute; split; congruence|].
  rewrite Hk; [reflexivity | | |]; vm_compute; split; congruence.
Defined.

(** ** C4: no partial completion *)

(** With the kernel modelled from the specification, a call that returns
    normally has run the work unit of each of its [num_tokens] tokens. *)
Lemma npu_runs_every_unit {T} `{Scalar T} (env : Env) (c : Call)
    (d : device_state T) :
  npu_accepts env c = true ->
  floats (device_after run_event
            (snd (vllm_ascend.rotary_embedding env c [])) d) =
  for_range (Z.quot (numel (query c)) (last_dim (query c)))
    (token_unit (style_of (is_neox c))
       (words d (data_ptr (positions c))) (args_of c))
    (floats d).
Proof.
  intros Ha. unfold device_after.
  destruct (npu_outcome env c) as [_ ->]. rewrite Ha. reflexivity.
Qed.

(** C4, counterexample.  In [call_query_mismatch] the width 5 of the
    query is not a multiple of [head_size] 2, while the key and the cache
    are as they should be.  The NPU entry point does not reject the call:
    it returns normally, and the kernel it has submitted has rewritten
    the key buffer (the first pair of token 0 went from (3000, 3001) to
    (-3001, 3000)).  The query has been transformed as two heads of size
    2 per row, and the fifth element of each row has been left out. *)
Lemma query_mismatch_modifies_key :
  let c := call_query_mismatch in
  let r := vllm_ascend.rotary_embedding env_ex c [] in
  let d' := device_after run_event (snd r) dev_ex in
  last_dim (query c) mod c_head_size c = 1 /\
  last_dim (key c) mod c_head_size c = 0 /\
  violates_shape_precondition c = true /\
  fst r = Ok tt /\
  key_at (floats dev_ex) (args_of c) 0 0 0 = 3000 /\
  key_at (floats dev_ex) (args_of c) 0 0 1 = 3001 /\
  key_at (floats d') (args_of c) 0 0 0 = -3001 /\
  key_at (floats d') (args_of c) 0 0 1 = 3000 /\
  floats d' <> floats dev_ex /\
  num_heads (args_of c) = 2 /\
  floats d' (data_ptr (query c)) 4 = floats dev_ex (data_ptr (query c)) 4.
Proof.
  cbv zeta. repeat (split; [vm_compute; congruence|]).
  split; [|split; vm_compute; congruence].
  intros E.
  assert (E' : floats
                 (device_after run_event
                    (snd (vllm_ascend.rotary_embedding env_ex
                            call_query_mismatch [])) dev_ex) 300 0
               = floats dev_ex 300 0) by (rewrite E; reflexivity).
  vm_compute in E'. discriminate E'.
Qed.

(** C4, amended.  A call of the NPU entry point either returns normally
    or stops at an exception or at an undefined division; there is no
    third case.  When it returns normally it has submitted exactly one
    kernel call, which runs the transform of every one of the
    [num_tokens] tokens: the element buffers are what the kernel makes of
    them over all tokens, on buffers laid out as the data model says
    every rotation pair of every one of the [num_heads] query heads and
    [num_kv_heads] key heads of every token holds the rotated values,
    every cell outside the rotated pairs is as it was, and the position
    buffer is untouched.  When it stops, nothing was submitted and the
    device, key buffer included, is as it was, whatever a kernel would
    do.  A width that is not a multiple of [head_size] does not make the
    call stop: [num_heads] is the quotient rounded towards zero. *)
Theorem no_partial_completion {T} `{Scalar T} (env : Env) (c : Call)
    (d : device_state T) :
  let r := vllm_ascend.rotary_embedding env c [] in
  let d' := device_after run_event (snd r) d in
  let a := args_of c in
  let st := style_of (is_neox c) in
  let pos := words d (data_ptr (positions c)) in
  let tokens := Z.quot (numel (query c)) (last_dim (query c)) in
  (is_ok (fst r) = true /\
   launches (snd r) = [NpuLaunch (npu_submission env c)] /\
   n_num_tokens (npu_submission env c) = tokens /\
   floats d' = rotary_embedding_kernel st pos a tokens (floats d) /\
   (valid_layout a = true ->
    fully_transformed st pos a tokens (floats d) (floats d')) /\
   (forall p k,
      (forall t, 0 <= t < tokens ->
         ~ rotated a (query_ptr a) (query_stride a) (num_heads a) t p k /\
         ~ rotated a (key_ptr a) (key_stride a) (num_kv_heads a) t p k) ->
      floats d' p k = floats d p k) /\
   words d' = words d)
  \/
  (is_ok (fst r) = false /\ launches (snd r) = [] /\ d' = d /\
   forall (D : Type) (kernel : event -> D -> D) (d0 : D),
     device_after kernel (snd r) d0 = d0).
Proof.
  cbv zeta. destruct (npu_outcome env c) as [Hok Hl].
  destruct (npu_accepts env c) eqn:Ha.
  - left. split; [exact Hok|]. split; [exact Hl|]. split; [reflexivity|].
    pose proof (npu_runs_every_unit env c d Ha) as Hrun.
    fold (rotary_embedding_kernel (style_of (is_neox c))
            (words d (data_ptr (positions c))) (args_of c)
            (Z.quot (numel (query c)) (last_dim (query c))) (floats d))
      in Hrun.
    split; [exact Hrun|]. rewrite Hrun.
    split; [apply kernel_fully_transformed|].
    split; [intros p k; apply kernel_frame|].
    unfold device_after. rewrite Hl. reflexivity.
  - right. split; [exact Hok|]. split; [exact Hl|].
    unfold device_after. rewrite Hl. split; [reflexivity|].
    intros D kernel d0. reflexivity.
Qed.

(** [call_ok] on the device [dev_ex]: the call returns normally, and the
    second pair of the key head of token 1, (3005, 3007) with cos = 1
    and sin = 1 in row 1 of the cache, holds (3005 - 3007, 3007 + 3005)
    afterwards. *)
Lemma no_partial_completion_witness :
  let r := vllm_ascend.rotary_embedding env_ex call_ok [] in
  let d' := device_after run_event (snd r) dev_ex in
  valid_layout (args_of call_ok) = true /\
  is_ok (fst r) = true /\
  key_at (floats d') (args_of call_ok) 1 0 1 = -2 /\
  key_at (floats d') (args_of call_ok) 1 0 3 = 6012.
Proof.
  cbv zeta.
  assert (Hv : valid_layout (args_of call_ok) = true) by reflexivity.
  split; [exact Hv|]. split; [reflexivity|].
  destruct (@no_partial_completion Z Scalar_Z env_ex call_ok dev_ex)
    as [(_ & _ & _ & _ & Hft & _) | (Hno & _)]; [|discriminate Hno].
  destruct (Hft Hv 1 1 ltac:(vm_compute; split; congruence)
              ltac:(vm_compute; split; congruence)) as [_ Hk].
  destruct (Hk 0 ltac:(vm_compute; split; congruence)) as [Hx Hy].
  split; [exact (eq_trans Hx eq_refl) | exact (eq_trans Hy eq_refl)].
Defined.

(** ** C6: work units *)

Lemma add_sub_int64 (n a : Z) :
  0 <= n -> 0 <= a -> n + a < 2 ^ 63 ->
  add_int64 (add_int64 n a) (- 1) = n + a - 1.
Proof.
  intros Hn Ha Hna. unfold add_int64.
  rewrite (@to_int64_fits (n + a)) by lia.
  apply to_int64_fits. lia.
Qed.

Lemma ceil_div_range (n a : Z) :
  0 <= n -> 0 < a -> 0 <= ceil_div n a <= n.
Proof.
  intros Hn Ha. pose proof (ceil_div_covers Hn Ha). nia.
Qed.

(** The loop count of the handler: the 32-bit truncation of the ceiling,
    and the ceiling itself when that is below 2^32. *)
Lemma loop_cnt_of_ceil (n a : Z) :
  0 <= n -> 0 < a -> n + a < 2 ^ 63 ->
  loop_cnt_of n a = to_uint32 (ceil_div n a) /\
  (ceil_div n a < 2 ^ 32 -> loop_cnt_of n a = ceil_div n a).
Proof.
  intros Hn Ha Hna. unfold loop_cnt_of.
  rewrite add_sub_int64 by lia.
  rewrite ceil_div_formula by lia.
  split; [reflexivity|]. intros Hc. apply to_uint32_fits.
  pose proof (ceil_div_range Hn Ha). unfold fits_uint32. lia.
Qed.

Lemma last_dim_nonneg (t : Tensor) : wf_tensor t = true -> 0 <= last_dim t.
Proof.
  unfold wf_tensor, last_dim. rewrite !andb_true_iff. intros [[_ Hs] _].
  rewrite forallb_forall in Hs.
  destruct (nth_in_or_default (Z.to_nat (dim t - 1)) (sizes t) 0) as [Hin | ->];
    [|lia].
  apply Hs in Hin. now apply Z.leb_le.
Qed.

Lemma num_tokens_nonneg (c : Call) :
  wf_call c = true -> 0 <= Z.quot (numel (query c)) (last_dim (query c)).
Proof.
  unfold wf_call. rewrite !andb_true_iff.
  intros (((((_ & Hq) & _) & _) & _) & _).
  pose proof (numel_nonneg _ Hq) as Hnum.
  pose proof (last_dim_nonneg _ Hq) as Hl.
  destruct (Z.eq_dec (last_dim (query c)) 0) as [-> | Hne].
  - rewrite Z.quot_0_r_ext by reflexivity. lia.
  - apply Z.quot_pos; lia.
Qed.

(** C6, counterexample.  [call_five] has five tokens.  On a platform with
    two vector cores the NPU entry point submits one kernel call sized
    for two parallel units, each with a loop count of three, not five
    units. *)
Lemma npu_units_not_tokens :
  wf_call call_five = true /\
  violates_shape_precondition call_five = false /\
  Z.quot (numel (query call_five)) (last_dim (query call_five)) = 5 /\
  vllm_ascend.rotary_embedding env_ex call_five [] =
    (Ok tt, [GetRuntimePlatformInfosByDevice 0; GetCoreNumByType 0 "aiv";
             NpuLaunch (npu_submission env_ex call_five)]) /\
  map work_units
    (launches (snd (vllm_ascend.rotary_embedding env_ex call_five [])))
  = [Some 2] /\
  n_num_tokens (npu_submission env_ex call_five) = 5 /\
  n_loop_cnt (npu_submission env_ex call_five) = 3.
Proof. vm_compute. repeat split; congruence. Qed.

(** C6, amended.  The generic GPU backend launches a grid of [num_tokens]
    blocks ([num_tokens] as an unsigned 32-bit value), one work unit per
    token, and each unit runs the transform over the heads of the query
    and of the key row of its token.  The NPU backend submits one kernel
    call for all [num_tokens] tokens, sized for [aivNum] parallel units
    (the number of vector cores, at least one) with a loop count that,
    for a well-formed call with fewer than 2^32 tokens, is the ceiling of
    [num_tokens / aivNum]: units times loop count covers the tokens with
    fewer than [aivNum] to spare. *)
Theorem work_partition (env : Env) (c : Call) :
  let nt := Z.quot (numel (query c)) (last_dim (query c)) in
  (gpu_accepts env c = true ->
   exists l,
     launches (snd (rotary_embedding env c [])) = [GpuLaunch l] /\
     g_grid l = to_uint32 nt /\
     (0 <= nt < 2 ^ 32 -> g_grid l = nt) /\
     (forall T (I : Scalar T) (d : device_state T),
        floats (run_event (GpuLaunch l) d) =
        for_range (g_grid l)
          (token_unit (g_style l) (words d (positions_ptr (g_args l)))
             (g_args l))
          (floats d)))
  /\
  (npu_accepts env c = true ->
   exists l,
     launches (snd (vllm_ascend.rotary_embedding env c [])) = [NpuLaunch l] /\
     n_num_tokens l = nt /\
     n_aivNum l = aiv_num env /\ 0 < n_aivNum l /\
     (wf_call c = true -> nt < 2 ^ 32 ->
      n_loop_cnt l = ceil_div nt (n_aivNum l) /\
      nt <= n_aivNum l * n_loop_cnt l < nt + n_aivNum l)).
Proof.
  cbv zeta. split; intros Ha.
  - exists (gpu_submission env c).
    destruct (gpu_outcome env c) as [_ ->]. rewrite Ha.
    split; [reflexivity|]. split; [reflexivity|].
    split; [|reflexivity].
    intros Hnt. simpl. unfold grid_dim. simpl. now apply to_uint32_fits.
  - exists (npu_submission env c).
    destruct (npu_outcome env c) as [_ ->]. rewrite Ha.
    assert (Hpos : 0 < aiv_num env).
    { unfold npu_accepts in Ha. rewrite !andb_true_iff, negb_true_iff in Ha.
      destruct Ha as [_ Hz]. apply Z.eqb_neq in Hz.
      pose proof (to_uint32_range (core_num env 0 "aiv")).
      unfold aiv_num in *. lia. }
    split; [reflexivity|]. split; [reflexivity|].
    split; [reflexivity|]. split; [exact Hpos|].
    intros Hwf Hnt. simpl.
    pose proof (num_tokens_nonneg c Hwf) as Hn.
    pose proof (to_uint32_range (core_num env 0 "aiv")) as Hr.
    fold (aiv_num env) in Hr.
    destruct (@loop_cnt_of_ceil
                (Z.quot (numel (query c)) (last_dim (query c)))
                (aiv_num env) Hn Hpos ltac:(lia)) as [_ Hex].
    pose proof (ceil_div_range Hn Hpos) as Hcr.
    pose proof (ceil_div_covers Hn Hpos) as Hcc.
    rewrite Hex by lia. split; [reflexivity | lia].
Qed.

(** On [call_ok], two tokens: a grid of two blocks in the GPU backend,
    and in the NPU backend two units with a loop count of one. *)
Lemma work_partition_witness :
  gpu_accepts env_ex call_ok = true /\
  npu_accepts env_ex call_ok = true /\
  map work_units (launches (snd (rotary_embedding env_ex call_ok [])))
    = [Some 2] /\
  exists l,
    launches (snd (vllm_ascend.rotary_embedding env_ex call_ok []))
      = [NpuLaunch l] /\
    n_aivNum l = 2 /\ n_loop_cnt l = 1.
Proof.
  destruct (work_partition env_ex call_ok) as [Hg Hn].
  assert (Ag : gpu_accepts env_ex call_ok = true) by reflexivity.
  assert (An : npu_accepts env_ex call_ok = true) by reflexivity.
  destruct (Hg Ag) as (lg & Elg & Hgrid & _).
  destruct (Hn An) as (ln & Eln & Hnt & Haiv & Hpos & Hloop).
  split; [exact Ag|]. split; [exact An|].
  split.
  - rewrite Elg. simpl. rewrite Hgrid. reflexivity.
  - exists ln. split; [exact Eln|]. split; [rewrite Haiv; reflexivity|].
    destruct (Hloop eq_refl ltac:(vm_compute; congruence)) as [-> _].
    rewrite Haiv. reflexivity.
Defined.

(** ** C9: threads per block *)

(** C9, counterexample.  [call_wide] satisfies every shape precondition:
    one head of 2^31 + 2 elements, fully rotated.  In the GPU backend
    [rot_dim] is -2147483646 as an [int], [num_heads * rot_dim / 2] is
    -1073741823, the minimum with 512 is that negative number, and the
    block of the launch has 3221225473 threads, far above 512. *)
Lemma block_exceeds_cap :
  wf_call call_wide = true /\
  violates_shape_precondition call_wide = false /\
  rotary_embedding env_ex call_wide [] =
    (Ok tt, [SetDevice 0; GpuLaunch (gpu_submission env_ex call_wide)]) /\
  num_heads (g_args (gpu_submission env_ex call_wide)) = 1 /\
  rot_dim (g_args (gpu_submission env_ex call_wide)) = -2147483646 /\
  Z.min (Z.quot (1 * -2147483646) 2) 512 = -1073741823 /\
  g_block (gpu_submission env_ex call_wide) = 3221225473 /\
  512 < g_block (gpu_submission env_ex call_wide).
Proof. vm_compute. repeat split; congruence. Qed.

(** C9, amended.  In the generic GPU backend the number of threads per
    block is min(num_heads * rot_dim / 2, 512) converted to an unsigned
    32-bit value, the product being computed in [int].  Whenever
    [num_heads * rot_dim] is not negative and fits in an [int], it is
    exactly min(num_heads * rot_dim / 2, 512), hence at most 512 however
    large the product is. *)
Theorem block_size (env : Env) (c : Call) (l : gpu_launch) :
  launches (snd (rotary_embedding env c [])) = [GpuLaunch l] ->
  let nh := num_heads (g_args l) in
  let rd := rot_dim (g_args l) in
  g_block l = to_uint32 (Z.min (Z.quot (mul_int32 nh rd) 2) 512) /\
  (0 <= nh * rd < 2 ^ 31 ->
   g_block l = Z.min (nh * rd / 2) 512 /\ g_block l <= 512).
Proof.
  intros Hl. destruct (gpu_outcome env c) as [_ E]. rewrite E in Hl.
  destruct (gpu_accepts env c); [|discriminate].
  injection Hl as <-. cbv zeta. simpl.
  unfold block_dim, block_threads. simpl.
  split; [reflexivity|]. intros Hp.
  unfold mul_int32. rewrite to_int32_fits by (unfold fits_int32; lia).
  rewrite Z.quot_div_nonneg by lia.
  pose proof (Z.div_pos _ 2 (proj1 Hp) ltac:(lia)) as Hd.
  rewrite to_uint32_fits by (unfold fits_uint32; lia).
  split; [reflexivity | lia].
Qed.

(** On [call_ok], two heads and a rotation dimension of 4: four threads
    per block. *)
Lemma block_size_witness :
  launches (snd (rotary_embedding env_ex call_ok []))
    = [GpuLaunch (gpu_submission env_ex call_ok)] /\
  g_block (gpu_submission env_ex call_ok) = Z.min (2 * 4 / 2) 512 /\
  g_block (gpu_submission env_ex call_ok) <= 512.
Proof.
  assert (Hl : launches (snd (rotary_embedding env_ex call_ok []))
               = [GpuLaunch (gpu_submission env_ex call_ok)]) by reflexivity.
  destruct (@block_size env_ex call_ok _ Hl) as [_ Hb].
  split; [exact Hl|].
  apply Hb. vm_compute. split; congruence.
Defined.

(** ** C10: platform query and loop count *)

(** C10, counterexample.  [call_many] has 2^33 tokens and satisfies every
    shape precondition.  With two vector cores the ceiling of
    [num_tokens / aivNum] is 2^32, and the [uint32_t] variable [loop_cnt]
    that the handler passes to the kernel is 0. *)
Lemma loop_count_wraps :
  wf_call call_many = true /\
  violates_shape_precondition call_many = false /\
  vllm_ascend.rotary_embedding env_ex call_many [] =
    (Ok tt, [GetRuntimePlatformInfosByDevice 0; GetCoreNumByType 0 "aiv";
             NpuLaunch (npu_submission env_ex call_many)]) /\
  n_num_tokens (npu_submission env_ex call_many) = 8589934592 /\
  n_aivNum (npu_submission env_ex call_many) = 2 /\
  ceil_div 8589934592 2 = 4294967296 /\
  n_loop_cnt (npu_submission env_ex call_many) = 0.
Proof. vm_compute. repeat split; congruence. Qed.

(** C10, amended.  Every call of the NPU entry point that returns
    normally has queried the runtime platform information and the number
    of "aiv" cores for device id 0, whatever device its tensors are on,
    and has submitted one kernel call whose [aivNum] is that number and
    whose loop count is the quotient [(num_tokens + aivNum - 1) / aivNum]
    converted to [uint32_t]: for a well-formed call with fewer than 2^32
    tokens, exactly the ceiling of [num_tokens / aivNum]. *)
Theorem platform_query_and_loop_count (env : Env) (c : Call) (tr' : trace) :
  vllm_ascend.rotary_embedding env c [] = (Ok tt, tr') ->
  let nt := Z.quot (numel (query c)) (last_dim (query c)) in
  exists l,
    tr' = [GetRuntimePlatformInfosByDevice 0; GetCoreNumByType 0 "aiv";
           NpuLaunch l] /\
    n_num_tokens l = nt /\
    n_aivNum l = to_uint32 (core_num env 0 "aiv") /\
    n_loop_cnt l =
      to_uint32
        (Z.quot (add_int64 (add_int64 nt (n_aivNum l)) (- 1)) (n_aivNum l)) /\
    (wf_call c = true -> nt < 2 ^ 32 ->
     n_loop_cnt l = ceil_div nt (n_aivNum l)).
Proof.
  intros Hrun. cbv zeta.
  destruct (npu_accepts env c) eqn:Ha.
  - rewrite (npu_accepted env c [] Ha) in Hrun. injection Hrun as <-.
    exists (npu_submission env c). simpl.
    split; [reflexivity|]. split; [reflexivity|]. split; [reflexivity|].
    split; [reflexivity|].
    intros Hwf Hnt.
    assert (Hpos : 0 < aiv_num env).
    { unfold npu_accepts in Ha. rewrite !andb_true_iff, negb_true_iff in Ha.
      destruct Ha as [_ Hz]. apply Z.eqb_neq in Hz.
      pose proof (to_uint32_range (core_num env 0 "aiv")).
      unfold aiv_num in *. lia. }
    pose proof (num_tokens_nonneg c Hwf) as Hn.
    pose proof (to_uint32_range (core_num env 0 "aiv")) as Hr.
    fold (aiv_num env) in Hr.
    destruct (@loop_cnt_of_ceil
                (Z.quot (numel (query c)) (last_dim (query c)))
                (aiv_num env) Hn Hpos ltac:(lia)) as [_ Hex].
    pose proof (ceil_div_range Hn Hpos) as Hcr.
    apply Hex. lia.
  - destruct (npu_rejected env c [] Ha) as (f & tr1 & E & Hf & _).
    rewrite E in Hrun. injection Hrun as -> _. discriminate.
Qed.

(** On [call_five] with two cores: device 0 is queried and the loop
    count is the ceiling of 5 / 2, that is 3. *)
Lemma platform_query_and_loop_count_witness :
  exists l,
    vllm_ascend.rotary_embedding env_ex call_five [] =
      (Ok tt, [GetRuntimePlatformInfosByDevice 0; GetCoreNumByType 0 "aiv";
               NpuLaunch l]) /\
    n_aivNum l = 2 /\ n_loop_cnt l = ceil_div 5 2 /\ ceil_div 5 2 = 3.
Proof.
  destruct (@platform_query_and_loop_count env_ex call_five _ eq_refl)
    as (l & Etr & Hnt & Haiv & _ & Hloop).
  exists l.
  split; [rewrite <- Etr; reflexivity|].
  split; [rewrite Haiv; reflexivity|].
  split; [|reflexivity].
  rewrite (Hloop eq_refl ltac:(vm_compute; reflexivity)), Haiv.
  reflexivity.
Defined.

(** ** The examples of the specification, run on integers *)

(** Identity rotation (cos = 1, sin = 0) on a head of four elements with
    [rot_dim] 4: the output equals the input. *)
Example identity_rotation_neox :
  let a := mkArgs 100 200 300 400 4 4 4 1 1 4 in
  let m : cells Z :=
    fun p k => if p =? 400 then (if k <? 2 then 1 else 0) else 7 + k in
  let m' := rotary_embedding_kernel Neox (fun _ => 0) a 1 m in
  map (m' 200) [0; 1; 2; 3] = map (m 200) [0; 1; 2; 3].
Proof. reflexivity. Qed.

(** Quarter turn (cos = 0, sin = 1) with [rot_dim] 2: (1, 0) becomes
    (0, 1) in the query and (0, 1) becomes (-1, 0) in the key. *)
Example quarter_turn_neox :
  let a := mkArgs 100 200 300 400 2 2 2 1 1 2 in
  let m : cells Z :=
    fun p k => if p =? 400 then k
               else if p =? 200 then (if k =? 0 then 1 else 0)
               else (if k =? 0 then 0 else 1) in
  let m' := rotary_embedding_kernel Neox (fun _ => 0) a 1 m in
  (m' 200 0, m' 200 1) = (0, 1) /\ (m' 300 0, m' 300 1) = (-1, 0).
Proof. split; reflexivity. Qed.

(** The two styles pair differently.  On the head (1, 2, 3, 4) with
    [rot_dim] 4 and a quarter turn for both pairs, neox rotates the pairs
    (1, 3) and (2, 4), interleaved rotates (1, 2) and (3, 4). *)
Example pairing_of_the_styles :
  let a := mkArgs 100 200 300 400 4 4 4 1 0 4 in
  let quarter_neox : cells Z :=
    fun p k => if p =? 400 then (if k <? 2 then 0 else 1) else k + 1 in
  let quarter_interleaved : cells Z :=
    fun p k => if p =? 400 then k mod 2 else k + 1 in
  map (rotary_embedding_kernel Neox (fun _ => 0) a 1 quarter_neox 200)
    [0; 1; 2; 3] = [-3; -4; 1; 2] /\
  map (rotary_embedding_kernel Interleaved (fun _ => 0) a 1
         quarter_interleaved 200)
    [0; 1; 2; 3] = [-2; 1; -4; 3].
Proof. split; reflexivity. Qed.

(** Tokens use the cache row of their own position: with positions
    (1, 0), token 0 is turned by the quarter turn of row 1 and token 1 is
    left alone by the identity of row 0. *)
Example rows_follow_positions :
  let a := mkArgs 100 200 300 400 2 2 2 1 0 2 in
  let m : cells Z :=
    fun p k => if p =? 400
               then (if k <? 2 then (if k =? 0 then 1 else 0) else k - 2)
               else 5 + k in
  let m' := rotary_embedding_kernel Neox (fun t => 1 - t) a 2 m in
  map (m' 200) [0; 1; 2; 3] = [-6; 5; 7; 8].
Proof. reflexivity. Qed.

(** ** The inverse law in exact arithmetic

    Over a commutative ring, rotating a pair with (cos, sin) and then
    with (cos, -sin) restores it when cos^2 + sin^2 = 1.  The kernels
    compute in floating point, where the law holds only up to rounding
    and only as long as nothing overflows; this lemma is the exact
    statement behind it. *)

Section ExactArithmetic.
Variable R : Type.
Variables (rO rI : R) (radd rmul rsub : R -> R -> R) (ropp : R -> R).
Hypothesis Rth : ring_theory rO rI radd rmul rsub ropp eq.

Add Ring R_ring : Rth.

Lemma rotate_pair_inverse arr x y cache c1 s1 c2 s2 (m : cells R) :
  x <> y -> cache <> arr ->
  m cache c2 = m cache c1 -> m cache s2 = ropp (m cache s1) ->
  radd (rmul (m cache c1) (m cache c1)) (rmul (m cache s1) (m cache s1))
    = rI ->
  let I := {| smul := rmul; sadd := radd; ssub := rsub |} in
  let m' :=
    rotate_pair arr x y cache c2 s2 (rotate_pair arr x y cache c1 s1 m) in
  m' arr x = m arr x /\ m' arr y = m arr y.
Proof.
  intros Hxy Hca Hc Hs Hunit. cbv zeta.
  set (I := {| smul := rmul; sadd := radd; ssub := rsub |}).
  assert (Fc : forall k, rotate_pair arr x y cache c1 s1 m cache k = m cache k).
  { intros k. apply rotate_pair_frame. intros [E _]. contradiction. }
  rewrite rotate_pair_y. rewrite rotate_pair_x by assumption.
  rewrite !Fc. rewrite rotate_pair_y. rewrite rotate_pair_x by assumption.
  rewrite Hc, Hs. simpl.
  set (a := m arr x) in *. set (b := m arr y) in *.
  set (c := m cache c1) in *. set (s := m cache s1) in *.
  split.
  - transitivity (rmul a (radd (rmul c c) (rmul s s))); [ring|].
    rewrite Hunit. ring.
  - transitivity (rmul b (radd (rmul c c) (rmul s s))); [ring|].
    rewrite Hunit. ring.
Qed.

End ExactArithmetic.

(** ** C8: the inverse law in floating point *)

(** C8, counterexample.  Half precision, one token with one head of size
    2 whose pair is (65504, 65504), the largest finite number twice, and
    the angle a quarter of pi, whose cos and sin both round to
    0.70703125.  The inputs are finite and the cos/sin pair is as close
    to the unit circle as rounding allows; the second table holds the
    cos and sin of the opposite angle.  The first rotation computes
    46304 + 46304 for the second element, which overflows: after the two
    kernel calls the pair is (+infinity, +infinity), within no tolerance
    of the original. *)
Lemma inverse_law_overflows :
  let a := args_half in
  let back := with_cache args_half 500 in
  let m := mem_half half_max half_max in
  let m' :=
    @rotary_embedding_kernel _ binary16 Neox pos_ex back 1
      (@rotary_embedding_kernel _ binary16 Neox pos_ex a 1 m) in
  valid_layout a = true /\ valid_layout back = true /\
  (SF2Q half_max == 65504)%Q /\
  (SF2Q half_cos_quarter_pi == 181 # 256)%Q /\
  SFfinite 11 16 half_max = true /\
  SFfinite 11 16 half_cos_quarter_pi = true /\
  (Qabs (SF2Q half_cos_quarter_pi * SF2Q half_cos_quarter_pi
         + SF2Q half_cos_quarter_pi * SF2Q half_cos_quarter_pi - 1)
   <= 4 * unit_roundoff 11)%Q /\
  cache_at m a 0 0 = half_cos_quarter_pi /\
  cache_at m a 0 1 = half_cos_quarter_pi /\
  cache_at m back 0 0 = half_cos_quarter_pi /\
  cache_at m back 0 1 = SFopp half_cos_quarter_pi /\
  query_at m a 0 0 0 = half_max /\ query_at m a 0 0 1 = half_max /\
  query_at m' a 0 0 0 = S754_infinity false /\
  query_at m' a 0 0 1 = S754_infinity false /\
  SFfinite 11 16 (query_at m' a 0 0 0) = false.
Proof. vm_compute. repeat split; congruence. Qed.

(** The same two kernel calls restore the pair (1, 3) exactly. *)
Example inverse_law_small_pair :
  let m := mem_half half_one half_three in
  let m' :=
    @rotary_embedding_kernel _ binary16 Neox pos_ex (with_cache args_half 500)
      1 (@rotary_embedding_kernel _ binary16 Neox pos_ex args_half 1 m) in
  (SF2Q half_one == 1)%Q /\ (SF2Q half_three == 3)%Q /\
  query_at m' args_half 0 0 0 = half_one /\
  query_at m' args_half 0 0 1 = half_three /\
  key_at m' args_half 0 0 0 = half_one /\
  key_at m' args_half 0 0 1 = half_three.
Proof. vm_compute. repeat split; congruence. Qed.

(** C8, amended.  In a binary floating-point format with at least 8 bits
    of precision (bfloat16, half and single precision are such), with
    rounding to nearest even, and on buffers laid out as the data model
    says: run the kernel with a cos/sin table, then run it again on the
    result with a table that holds, for the token, the same cos and the
    opposite sin.  Then every pair of every query head and of every key
    head of the token whose two elements are finite and of magnitude at
    most [2 ^ (emax - 2)] (16384 in half precision), for a cos and a sin
    that are finite, of magnitude at most 1 and with
    [cos^2 + sin^2] within four unit roundoffs of 1, is finite again and
    each element is within [13 u (|x1| + |x2|) + 7 * 2 ^ (emin - 1)] of
    its original value, where [u = 2 ^ - prec] is the unit roundoff and
    [2 ^ emin] the least positive number of the format.  This holds in
    both styles. *)
Theorem rotation_inverse_law (prec emax : Z) (st : style) (pos pos' : Z -> Z)
    (a : kernel_args) (cache' units : Z) (m : cells spec_float) (t i : Z) :
  8 <= prec -> prec < emax ->
  let a' := with_cache a cache' in
  valid_layout a = true -> valid_layout a' = true ->
  0 <= t < units ->
  let e := Z.quot (rot_dim a) 2 in
  0 <= i < e ->
  let cos := m (cos_sin_cache_ptr a) (row_of pos a t + cos_index st e i) in
  let sin := m (cos_sin_cache_ptr a) (row_of pos a t + sin_index st e i) in
  m cache' (row_of pos' a' t + cos_index st e i) = cos ->
  m cache' (row_of pos' a' t + sin_index st e i) = SFopp sin ->
  let m' :=
    @rotary_embedding_kernel _ (SF_Scalar prec emax) st pos' a' units
      (@rotary_embedding_kernel _ (SF_Scalar prec emax) st pos a units m) in
  forall arr stride heads h,
    (arr = query_ptr a /\ stride = query_stride a /\ heads = num_heads a) \/
    (arr = key_ptr a /\ stride = key_stride a /\ heads = num_kv_heads a) ->
    0 <= h < heads ->
    let x := t * stride + h * head_size a + x_index st e i in
    let y := t * stride + h * head_size a + y_index st e i in
    in_range prec emax (m arr x) (m arr y) cos sin ->
    restored prec emax (m arr x) (m arr y) (m' arr x) (m' arr y).
Proof.
  intros Hprec Hemax a' Hv Hv' Ht e Hi cos sin Hc Hs m' arr stride heads h
    Harr Hh x y (F1 & F2 & FC & FS & H1 & H2 & HC & HS & Hunit).
  set (I := SF_Scalar prec emax) in *.
  set (m1 := @rotary_embedding_kernel _ I st pos a units m) in *.
  destruct (valid_layout_spec a' Hv') as (_ & _ & _ & _ & Hcq & Hck).
  change (cos_sin_cache_ptr a') with cache' in Hcq, Hck.
  change (query_ptr a') with (query_ptr a) in Hcq.
  change (key_ptr a') with (key_ptr a) in Hck.
  (* the first call leaves the second table as it is *)
  assert (Fr : forall k, m1 cache' k = m cache' k).
  { intros k. apply kernel_frame. intros t' _.
    split; intros [E _]; congruence. }
  (* each call rotates the pair *)
  assert (P1 : pair_rotated st a arr (t * stride + h * head_size a)
                 (row_of pos a t) i m m1).
  { destruct (@kernel_fully_transformed _ I st pos a units m Hv t i Ht Hi)
      as [Hq Hk].
    destruct Harr as [(-> & -> & ->) | (-> & -> & ->)]; auto. }
  assert (P2 : pair_rotated st a' arr (t * stride + h * head_size a)
                 (row_of pos' a' t) i m1 m').
  { destruct (@kernel_fully_transformed _ I st pos' a' units m1 Hv' t i Ht Hi)
      as [Hq Hk].
    destruct Harr as [(-> & -> & ->) | (-> & -> & ->)];
      [apply (Hq h Hh) | apply (Hk h Hh)]. }
  destruct P1 as [Ex Ey]. destruct P2 as [Ex' Ey'].
  change (cos_sin_cache_ptr a') with cache' in Ex', Ey'.
  change (rot_dim a') with (rot_dim a) in Ex', Ey'.
  fold e in Ex, Ey, Ex', Ey'. fold x in Ex, Ey, Ex', Ey'.
  fold y in Ex, Ey, Ex', Ey'.
  rewrite !Fr, Hc, Hs in Ex', Ey'. fold cos in Ex, Ey. fold sin in Ex, Ey.
  rewrite Ex, Ey in Ex', Ey'.
  unfold restored, tolerance. rewrite Ex', Ey'.
  apply (@float_round_trip prec emax Hprec Hemax (m arr x) (m arr y) cos sin);
    assumption.
Qed.

(** Half precision, the pair (1, 3) of the query head of [args_half] and
    the angle a quarter of pi: the pair is in range, and after the two
    kernel calls it is within tolerance of (1, 3). *)
Lemma rotation_inverse_law_witness :
  let m := mem_half half_one half_three in
  let m' :=
    @rotary_embedding_kernel _ binary16 Neox pos_ex (with_cache args_half 500)
      1 (@rotary_embedding_kernel _ binary16 Neox pos_ex args_half 1 m) in
  in_range 11 16 half_one half_three half_cos_quarter_pi half_cos_quarter_pi
  /\ restored 11 16 half_one half_three (m' 200 0) (m' 200 1).
Proof.
  cbv zeta.
  assert (Hr : in_range 11 16 half_one half_three half_cos_quarter_pi
                 half_cos_quarter_pi)
    by (unfold in_range; repeat split; vm_compute; congruence).
  split; [exact Hr|].
  apply (@rotation_inverse_law 11 16 Neox pos_ex pos_ex args_half 500 1
           (mem_half half_one half_three) 0 0
           ltac:(lia) ltac:(lia) eq_refl eq_refl ltac:(lia)
           ltac:(vm_compute; split; congruence) eq_refl eq_refl
           200 2 1 0
           (or_introl (conj eq_refl (conj eq_refl eq_refl)))
           ltac:(lia) Hr).
Defined.

(** * Further properties of the entry points *)

(** ** Paths in closed form *)

Ltac entry_unfold :=
  unfold vllm_ascend.rotary_embedding, vllm_ascend.custom_handler,
    vllm_ascend.resolve, rotary_embedding, resolve,
    VLLM_DISPATCH_FLOATING_TYPES;
  host_run;
  rewrite ?size_last, ?size_second, ?stride_row.

Ltac leb_true t :=
  replace t with true by (symmetry; apply Z.leb_le; lia).

Ltac leb_false t :=
  replace t with false by (symmetry; apply Z.leb_gt; lia).

Ltac eqb_false t :=
  replace t with false by (symmetry; apply Z.eqb_neq; lia).

Lemma ScalarType_eqb_neq (a b : ScalarType) :
  ScalarType_eqb a b = false <-> a <> b.
Proof.
  split.
  - intros Hf E. apply ScalarType_eqb_eq in E. congruence.
  - intros Hne. destruct (ScalarType_eqb a b) eqn:E; [|reflexivity].
    apply ScalarType_eqb_eq in E. contradiction.
Qed.

Lemma shapes_ok_spec (c : Call) :
  shapes_ok c = true ->
  2 <= dim (query c) /\ last_dim (query c) <> 0 /\
  2 <= dim (cos_sin_cache c) /\ c_head_size c <> 0 /\ 2 <= dim (key c).
Proof.
  unfold shapes_ok. rewrite !andb_true_iff, !negb_true_iff, !Z.leb_le,
    !Z.eqb_neq. tauto.
Qed.

Lemma npu_accepts_shapes (env : Env) (c : Call) :
  npu_accepts env c = true -> shapes_ok c = true.
Proof. unfold npu_accepts. rewrite !andb_true_iff. tauto. Qed.

Lemma gpu_accepts_shapes (env : Env) (c : Call) :
  gpu_accepts env c = true -> shapes_ok c = true.
Proof. unfold gpu_accepts. rewrite !andb_true_iff. tauto. Qed.

Lemma aiv_num_positive (env : Env) (c : Call) :
  npu_accepts env c = true -> 0 < aiv_num env < 2 ^ 32.
Proof.
  unfold npu_accepts. rewrite !andb_true_iff, negb_true_iff.
  intros [_ Hne]. apply Z.eqb_neq in Hne.
  pose proof (to_uint32_range (core_num env 0 "aiv")).
  unfold aiv_num in *. lia.
Qed.

Lemma in_launches (e : event) (tr : trace) :
  In e tr -> is_launch e = true -> In e (launches tr).
Proof. intros Hin He. apply filter_In. now split. Qed.

Lemma npu_launch_inv (env : Env) (c : Call) (l : npu_launch) :
  In (NpuLaunch l) (snd (vllm_ascend.rotary_embedding env c [])) ->
  npu_accepts env c = true /\ l = npu_submission env c.
Proof.
  intros Hin. apply in_launches in Hin; [|reflexivity].
  destruct (npu_outcome env c) as [_ E]. rewrite E in Hin.
  destruct (npu_accepts env c); [|destruct Hin].
  destruct Hin as [E' | []]. split; congruence.
Qed.

Lemma gpu_launch_inv (env : Env) (c : Call) (l : gpu_launch) :
  In (GpuLaunch l) (snd (rotary_embedding env c [])) ->
  gpu_accepts env c = true /\ l = gpu_submission env c.
Proof.
  intros Hin. apply in_launches in Hin; [|reflexivity].
  destruct (gpu_outcome env c) as [_ E]. rewrite E in Hin.
  destruct (gpu_accepts env c); [|destruct Hin].
  destruct Hin as [E' | []]. split; congruence.
Qed.

(** What a shape computation that succeeds has computed. *)
Lemma resolve_inv (c : Call) (tr : trace) (sh : shape) (tr' : trace) :
  resolve c tr = (Ok sh, tr') \/
  (exists p, vllm_ascend.resolve c tr = (Ok (sh, p), tr')) ->
  shapes_ok c = true /\ sh = resolved_shape c.
Proof.
  intros [Hg | [p Hn]].
  - destruct (shapes_ok c) eqn:Hs.
    + rewrite (gpu_resolve_accepts c tr Hs) in Hg. split; congruence.
    + destruct (gpu_resolve_rejects c tr Hs) as (f & Ef & Hf).
      rewrite Ef in Hg. inversion Hg; subst. discriminate.
  - destruct (shapes_ok c && ScalarType_eqb (scalar_type (positions c)) Long)
      eqn:Hs.
    + apply andb_true_iff in Hs as [Hs Hp].
      rewrite (npu_resolve_accepts c tr Hs Hp) in Hn. split; congruence.
    + destruct (npu_resolve_rejects c tr Hs) as (f & Ef & Hf).
      rewrite Ef in Hn. inversion Hn; subst. discriminate.
Qed.

(** The NPU entry point once the shape computations have passed. *)
Lemma npu_late_path (env : Env) (c : Call) (tr : trace) :
  shapes_ok c = true ->
  ScalarType_eqb (scalar_type (positions c)) Long = true ->
  vllm_ascend.rotary_embedding env c tr =
  match getCurrentNPUStream env with
  | None => (Throws StreamError, tr)
  | Some s =>
      match get_dtype_from_torch env (scalar_type (query c)) with
      | Ok dt =>
          if aiv_num env =? 0
          then (Undefined DivisionByZero,
                tr ++ [GetRuntimePlatformInfosByDevice 0;
                       GetCoreNumByType 0 "aiv"])
          else (Ok tt,
                tr ++ [GetRuntimePlatformInfosByDevice 0;
                       GetCoreNumByType 0 "aiv";
                       NpuLaunch (npu_submission env c)])
      | Throws e => (Throws e, tr)
      | Undefined u => (Undefined u, tr)
      end
  end.
Proof.
  intros Hs Hp.
  unfold vllm_ascend.rotary_embedding, vllm_ascend.custom_handler.
  unfold bind at 1. rewrite (npu_resolve_accepts c tr Hs Hp).
  unfold npu_submission, aiv_num, loop_cnt_of.
  destruct (getCurrentNPUStream env) as [s|]; host_run; [|reflexivity].
  destruct (get_dtype_from_torch env (scalar_type (query c))); host_run;
    try reflexivity.
  destruct (to_uint32 (core_num env 0 "aiv") =? 0); simpl;
    rewrite <- !app_assoc; reflexivity.
Qed.

Lemma npu_early_path (env : Env) (c : Call) (tr : trace) :
  shapes_ok c && ScalarType_eqb (scalar_type (positions c)) Long = false ->
  exists f, vllm_ascend.rotary_embedding env c tr = (f, tr) /\ is_ok f = false.
Proof.
  intros Hs. destruct (npu_resolve_rejects c tr Hs) as (f & Ef & Hf).
  unfold vllm_ascend.rotary_embedding. unfold bind at 1. rewrite Ef.
  destruct f; try discriminate; eexists; split; reflexivity.
Qed.

Lemma gpu_early_path (env : Env) (c : Call) (tr : trace) :
  shapes_ok c = false ->
  exists f, rotary_embedding env c tr = (f, tr) /\ is_ok f = false.
Proof.
  intros Hs. destruct (gpu_resolve_rejects c tr Hs) as (f & Ef & Hf).
  unfold rotary_embedding. unfold bind at 1. rewrite Ef.
  destruct f; try discriminate; eexists; split; reflexivity.
Qed.

Lemma product_split (s : Z) (l : list Z) :
  product (s :: l) =
  product (removelast (s :: l)) * nth (List.length l) (s :: l) 0.
Proof.
  revert s. induction l as [|x l IH]; intros s.
  - unfold product. cbn [fold_right removelast nth List.length]. lia.
  - change (removelast (s :: x :: l)) with (s :: removelast (x :: l)).
    change (nth (List.length (x :: l)) (s :: x :: l) 0)
      with (nth (List.length l) (x :: l) 0).
    change (product (s :: x :: l)) with (s * product (x :: l)).
    change (product (s :: removelast (x :: l)))
      with (s * product (removelast (x :: l))).
    rewrite (IH x). lia.
Qed.

Lemma numel_split (t : Tensor) :
  1 <= dim t -> numel t = product (leading_dims t) * last_dim t.
Proof.
  unfold numel, leading_dims, last_dim, dim.
  intros Hd.
  destruct (sizes t) as [|s l]; [simpl in Hd; lia|].
  replace (Z.to_nat (Z.of_nat (List.length (s :: l)) - 1)) with (List.length l)
    by (simpl List.length; lia).
  apply (product_split s l).
Qed.

(** ** What is submitted *)

(** X1.  The NPU backend always runs its kernel in place: the kernel call
    it submits receives, as destination and as source, the data pointers
    and the row strides of the query and key tensors of the call. *)
Theorem npu_kernel_in_place (env : Env) (c : Call) (l : npu_launch) :
  In (NpuLaunch l) (snd (vllm_ascend.rotary_embedding env c [])) ->
  n_query_dst l = query_ptr (n_args l) /\
  n_key_dst l = key_ptr (n_args l) /\
  n_dst_query_stride l = query_stride (n_args l) /\
  n_dst_key_stride l = key_stride (n_args l) /\
  query_ptr (n_args l) = data_ptr (query c) /\
  key_ptr (n_args l) = data_ptr (key c) /\
  query_stride (n_args l) = row_stride (query c) /\
  key_stride (n_args l) = row_stride (key c).
Proof.
  intros Hin. destruct (npu_launch_inv env c l Hin) as [_ ->].
  repeat split.
Qed.

Lemma npu_kernel_in_place_witness :
  In (NpuLaunch (npu_submission env_ex call_ok))
    (snd (vllm_ascend.rotary_embedding env_ex call_ok [])) /\
  n_query_dst (npu_submission env_ex call_ok) = 200 /\
  query_ptr (n_args (npu_submission env_ex call_ok)) = 200.
Proof.
  assert (Hin : In (NpuLaunch (npu_submission env_ex call_ok))
                  (snd (vllm_ascend.rotary_embedding env_ex call_ok [])))
    by (right; right; left; reflexivity).
  destruct (npu_kernel_in_place env_ex call_ok _ Hin)
    as (H1 & _ & _ & _ & H5 & _).
  split; [exact Hin|]. split; [rewrite H1, H5 | rewrite H5]; reflexivity.
Defined.

(** X2.  When both backends submit a kernel for the same call, they pass
    it the same arguments (pointers, [rot_dim], strides, head counts and
    [head_size]) and the same variant, and the GPU grid is the NPU token
    count as an unsigned 32-bit value. *)
Theorem backends_agree (env : Env) (c : Call) (ln : npu_launch)
    (lg : gpu_launch) :
  In (NpuLaunch ln) (snd (vllm_ascend.rotary_embedding env c [])) ->
  In (GpuLaunch lg) (snd (rotary_embedding env c [])) ->
  g_args lg = n_args ln /\
  g_style lg = style_of (n_is_neox ln) /\
  g_grid lg = to_uint32 (n_num_tokens ln).
Proof.
  intros Hn Hg.
  destruct (npu_launch_inv env c ln Hn) as [_ ->].
  destruct (gpu_launch_inv env c lg Hg) as [_ ->].
  repeat split.
Qed.

Lemma backends_agree_witness :
  In (NpuLaunch (npu_submission env_ex call_ok))
    (snd (vllm_ascend.rotary_embedding env_ex call_ok [])) /\
  In (GpuLaunch (gpu_submission env_ex call_ok))
    (snd (rotary_embedding env_ex call_ok [])) /\
  g_args (gpu_submission env_ex call_ok)
    = n_args (npu_submission env_ex call_ok).
Proof.
  assert (Hn : In (NpuLaunch (npu_submission env_ex call_ok))
                 (snd (vllm_ascend.rotary_embedding env_ex call_ok [])))
    by (right; right; left; reflexivity).
  assert (Hg : In (GpuLaunch (gpu_submission env_ex call_ok))
                 (snd (rotary_embedding env_ex call_ok [])))
    by (right; left; reflexivity).
  split; [exact Hn|]. split; [exact Hg|].
  exact (proj1 (backends_agree env_ex call_ok _ _ Hn Hg)).
Defined.

(** X3.  The token count is the product of all dimensions of the query
    but the last: a query of shape [batch_size, seq_len, width] has
    [batch_size * seq_len] tokens.  This holds whenever the shape
    computations of either entry point succeed. *)
Theorem num_tokens_of_batched_query (c : Call) (tr : trace) (sh : shape)
    (tr' : trace) :
  resolve c tr = (Ok sh, tr') \/
  (exists p, vllm_ascend.resolve c tr = (Ok (sh, p), tr')) ->
  s_num_tokens sh = product (leading_dims (query c)).
Proof.
  intros Hres. destruct (resolve_inv c tr Hres) as [Hs ->].
  destruct (shapes_ok_spec c Hs) as (Hq & Hw & _).
  simpl. rewrite numel_split by lia. now apply Z.quot_mul.
Qed.

Lemma num_tokens_of_batched_query_witness :
  resolve call_batched [] = (Ok (resolved_shape call_batched), []) /\
  s_num_tokens (resolved_shape call_batched) = 2 * 3.
Proof.
  assert (R : resolve call_batched [] = (Ok (resolved_shape call_batched), []))
    by reflexivity.
  split; [exact R|].
  rewrite (@num_tokens_of_batched_query call_batched [] _ [] (or_introl R)).
  reflexivity.
Defined.

(** X4.  For a positive [head_size] and rows of fewer than 2^31 elements,
    the head counts passed to the kernel are the widths of query and key
    divided by [head_size] and rounded down: [num_heads * head_size]
    never exceeds the width, and falls short of it by less than
    [head_size]. *)
Theorem head_count_rounds_down (env : Env) (c : Call) (a : kernel_args) :
  (exists l, In (NpuLaunch l) (snd (vllm_ascend.rotary_embedding env c []))
             /\ a = n_args l) \/
  (exists l, In (GpuLaunch l) (snd (rotary_embedding env c []))
             /\ a = g_args l) ->
  wf_call c = true -> 0 < c_head_size c ->
  last_dim (query c) < 2 ^ 31 -> last_dim (key c) < 2 ^ 31 ->
  head_size a = c_head_size c /\
  0 <= num_heads a /\
  num_heads a * head_size a <= last_dim (query c)
    < (num_heads a + 1) * head_size a /\
  0 <= num_kv_heads a /\
  num_kv_heads a * head_size a <= last_dim (key c)
    < (num_kv_heads a + 1) * head_size a.
Proof.
  intros Hin Hwf Hh Hq Hk.
  assert (E : a = args_of c).
  { destruct Hin as [(l & Hin & ->) | (l & Hin & ->)].
    - now destruct (npu_launch_inv env c l Hin) as [_ ->].
    - now destruct (gpu_launch_inv env c l Hin) as [_ ->]. }
  subst a. simpl.
  unfold wf_call in Hwf. rewrite !andb_true_iff in Hwf.
  destruct Hwf as (((((_ & Hwq) & Hwk) & _) & _) & _).
  pose proof (last_dim_nonneg _ Hwq) as Hq0.
  pose proof (last_dim_nonneg _ Hwk) as Hk0.
  assert (F : forall w, 0 <= w < 2 ^ 31 ->
              0 <= to_int32 (Z.quot w (c_head_size c)) /\
              to_int32 (Z.quot w (c_head_size c)) * c_head_size c <= w
              < (to_int32 (Z.quot w (c_head_size c)) + 1) * c_head_size c).
  { intros w Hw. rewrite Z.quot_div_nonneg by lia.
    pose proof (Z.div_pos w (c_head_size c) ltac:(lia) Hh).
    pose proof (Z.div_mod w (c_head_size c) ltac:(lia)).
    pose proof (Z.mod_pos_bound w (c_head_size c) Hh).
    assert (w / c_head_size c <= w) by nia.
    rewrite to_int32_fits by (unfold fits_int32; lia). nia. }
  destruct (F _ (conj Hq0 Hq)) as (Q1 & Q2).
  destruct (F _ (conj Hk0 Hk)) as (K1 & K2).
  repeat split; tauto.
Qed.

(** Rows of width 7 with heads of size 2: three heads, and the last
    element of each row belongs to no head. *)
Lemma head_count_rounds_down_witness :
  In (GpuLaunch (gpu_submission env_ex call_ragged))
    (snd (rotary_embedding env_ex call_ragged [])) /\
  num_heads (g_args (gpu_submission env_ex call_ragged)) = 3 /\
  num_heads (g_args (gpu_submission env_ex call_ragged))
  * head_size (g_args (gpu_submission env_ex call_ragged))
  <= last_dim (query call_ragged).
Proof.
  assert (Hg : In (GpuLaunch (gpu_submission env_ex call_ragged))
                 (snd (rotary_embedding env_ex call_ragged [])))
    by (right; left; reflexivity).
  split; [exact Hg|]. split; [reflexivity|].
  refine (proj1 (proj1 (proj2 (proj2
    (@head_count_rounds_down env_ex call_ragged _
       (or_intror (ex_intro _ _ (conj Hg eq_refl))) eq_refl _ _ _)))));
    vm_compute; reflexivity.
Defined.

(** X5.  The sign of [head_size] is not checked.  With a negative
    [head_size] and rows of at least [- head_size] and fewer than 2^31
    elements, the kernel is submitted with the negative head count
    [- (width / (- head_size))]. *)
Theorem negative_head_size_is_submitted (env : Env) (c : Call)
    (a : kernel_args) :
  (exists l, In (NpuLaunch l) (snd (vllm_ascend.rotary_embedding env c []))
             /\ a = n_args l) \/
  (exists l, In (GpuLaunch l) (snd (rotary_embedding env c []))
             /\ a = g_args l) ->
  c_head_size c < 0 ->
  - c_head_size c <= last_dim (query c) < 2 ^ 31 ->
  head_size a = c_head_size c /\
  num_heads a = - (last_dim (query c) / (- c_head_size c)) /\
  num_heads a < 0.
Proof.
  intros Hin Hh Hq.
  assert (E : a = args_of c).
  { destruct Hin as [(l & Hin & ->) | (l & Hin & ->)].
    - now destruct (npu_launch_inv env c l Hin) as [_ ->].
    - now destruct (gpu_launch_inv env c l Hin) as [_ ->]. }
  subst a. simpl.
  assert (Eq : Z.quot (last_dim (query c)) (c_head_size c)
               = - (last_dim (query c) / (- c_head_size c))).
  { replace (c_head_size c) with (- (- c_head_size c)) at 1 by lia.
    rewrite Z.quot_opp_r by lia.
    now rewrite Z.quot_div_nonneg by lia. }
  rewrite Eq.
  pose proof (Z.div_pos (last_dim (query c)) (- c_head_size c)
                ltac:(lia) ltac:(lia)).
  pose proof (Z.div_mod (last_dim (query c)) (- c_head_size c) ltac:(lia)).
  pose proof (Z.mod_pos_bound (last_dim (query c)) (- c_head_size c)
                ltac:(lia)).
  assert (1 <= last_dim (query c) / (- c_head_size c)
          <= last_dim (query c)) by nia.
  rewrite to_int32_fits by (unfold fits_int32; lia).
  repeat split; lia.
Qed.

Lemma negative_head_size_is_submitted_witness :
  In (NpuLaunch (npu_submission env_ex call_negative))
    (snd (vllm_ascend.rotary_embedding env_ex call_negative [])) /\
  num_heads (n_args (npu_submission env_ex call_negative)) = -3.
Proof.
  assert (Hn : In (NpuLaunch (npu_submission env_ex call_negative))
                 (snd (vllm_ascend.rotary_embedding env_ex call_negative [])))
    by (right; right; left; reflexivity).
  split; [exact Hn|].
  destruct (@negative_head_size_is_submitted env_ex call_negative _
              (or_introl (ex_intro _ _ (conj Hn eq_refl)))
              ltac:(vm_compute; reflexivity)
              ltac:(vm_compute; split; congruence)) as (_ & -> & _).
  reflexivity.
Defined.

(** X6.  A query without tokens is not special-cased.  If its rows have
    a non-zero width the call is carried through: the NPU backend submits
    the kernel with a token count and a loop count of 0, the GPU backend
    launches a grid of 0 blocks. *)
Theorem empty_batch_is_submitted (env : Env) (c : Call) :
  numel (query c) = 0 ->
  (npu_accepts env c = true ->
   exists l,
     vllm_ascend.rotary_embedding env c [] =
       (Ok tt, [GetRuntimePlatformInfosByDevice 0; GetCoreNumByType 0 "aiv";
                NpuLaunch l]) /\
     n_num_tokens l = 0 /\ n_loop_cnt l = 0)
  /\
  (gpu_accepts env c = true ->
   exists l,
     rotary_embedding env c [] =
       (Ok tt, [SetDevice (device (query c)); GpuLaunch l]) /\
     g_grid l = 0).
Proof.
  intros Hz. split; intros Ha.
  - exists (npu_submission env c). rewrite (npu_accepted env c [] Ha).
    split; [reflexivity|]. simpl. rewrite Hz.
    rewrite Z.quot_0_l by
      (destruct (shapes_ok_spec c (npu_accepts_shapes env c Ha)); tauto).
    split; [reflexivity|].
    pose proof (aiv_num_positive env c Ha) as Hpos.
    destruct (@loop_cnt_of_ceil 0 (aiv_num env) ltac:(lia) ltac:(lia)
                ltac:(lia)) as [_ Hex].
    rewrite Hex; unfold ceil_div; simpl; [reflexivity | lia].
  - exists (gpu_submission env c). rewrite (gpu_accepted env c [] Ha).
    split; [reflexivity|]. simpl. unfold grid_dim. simpl. rewrite Hz.
    rewrite Z.quot_0_l by
      (destruct (shapes_ok_spec c (gpu_accepts_shapes env c Ha)); tauto).
    reflexivity.
Qed.

Lemma empty_batch_is_submitted_witness :
  numel (query call_empty) = 0 /\
  launches (snd (rotary_embedding env_ex call_empty []))
    = [GpuLaunch (gpu_submission env_ex call_empty)] /\
  exists l,
    vllm_ascend.rotary_embedding env_ex call_empty [] =
      (Ok tt, [GetRuntimePlatformInfosByDevice 0; GetCoreNumByType 0 "aiv";
               NpuLaunch l]) /\
    n_num_tokens l = 0 /\ n_loop_cnt l = 0.
Proof.
  split; [reflexivity|]. split; [reflexivity|].
  exact (proj1 (@empty_batch_is_submitted env_ex call_empty eq_refl) eq_refl).
Defined.

(** ** Errors and their order *)

(** X7.  A query of rank 0 is rejected by the very first statement of
    both entry points, [query.size(-1)]: an index error for dimension -1
    of a tensor of rank 0, whatever the other arguments are, and nothing
    has happened yet. *)
Theorem scalar_query_rejected (env : Env) (c : Call) (tr : trace) :
  dim (query c) = 0 ->
  vllm_ascend.rotary_embedding env c tr = (Throws (IndexError (-1) 0), tr) /\
  rotary_embedding env c tr = (Throws (IndexError (-1) 0), tr).
Proof.
  intros Hd. split; entry_unfold; rewrite Hd; reflexivity.
Qed.

Lemma scalar_query_rejected_witness :
  dim (query call_scalar) = 0 /\
  vllm_ascend.rotary_embedding env_ex call_scalar [] =
    (Throws (IndexError (-1) 0), []).
Proof.
  split; [reflexivity|].
  exact (proj1 (@scalar_query_rejected env_ex call_scalar [] eq_refl)).
Defined.

(** X8.  A query of rank 1 (a single row given without its leading
    dimension) gets through the shape arithmetic and is rejected by
    [query.stride(-2)], an index error for dimension -2 of a tensor of
    rank 1.  The NPU backend reads the typed pointer of the positions
    before the strides, so there positions that are not [int64] are
    reported first. *)
Theorem one_dimensional_query_rejected (env : Env) (c : Call) (tr : trace) :
  dim (query c) = 1 -> last_dim (query c) <> 0 ->
  2 <= dim (cos_sin_cache c) -> c_head_size c <> 0 -> 1 <= dim (key c) ->
  vllm_ascend.rotary_embedding env c tr =
    (if ScalarType_eqb (scalar_type (positions c)) Long
     then Throws (IndexError (-2) 1)
     else Throws (ScalarTypeError Long (scalar_type (positions c))), tr)
  /\ rotary_embedding env c tr = (Throws (IndexError (-2) 1), tr).
Proof.
  intros Hd Hw Hc Hh Hk. split.
  - entry_unfold. unfold typed_data_ptr. rewrite Hd. simpl.
    eqb_false (last_dim (query c) =? 0); simpl.
    leb_true (2 <=? dim (cos_sin_cache c)); simpl.
    eqb_false (c_head_size c =? 0); simpl.
    leb_true (1 <=? dim (key c)); simpl.
    destruct (ScalarType_eqb (scalar_type (positions c)) Long); reflexivity.
  - entry_unfold. rewrite Hd. simpl.
    eqb_false (last_dim (query c) =? 0); simpl.
    leb_true (2 <=? dim (cos_sin_cache c)); simpl.
    eqb_false (c_head_size c =? 0); simpl.
    leb_true (1 <=? dim (key c)); simpl. reflexivity.
Qed.

Lemma one_dimensional_query_rejected_witness :
  dim (query call_flat_query) = 1 /\
  vllm_ascend.rotary_embedding env_ex call_flat_query [] =
    (Throws (IndexError (-2) 1), []) /\
  rotary_embedding env_ex call_flat_query [] =
    (Throws (IndexError (-2) 1), []).
Proof.
  split; [reflexivity|].
  apply (@one_dimensional_query_rejected env_ex call_flat_query []);
    vm_compute; congruence.
Defined.

(** X9.  A cos/sin cache of rank below 2 is rejected by
    [cos_sin_cache.size(1)] with an index error for dimension 1, once the
    token count has been computed from a query of rank at least 1 with
    non-empty rows. *)
Theorem flat_cache_rejected (env : Env) (c : Call) (tr : trace) :
  1 <= dim (query c) -> last_dim (query c) <> 0 ->
  dim (cos_sin_cache c) < 2 ->
  vllm_ascend.rotary_embedding env c tr =
    (Throws (IndexError 1 (dim (cos_sin_cache c))), tr) /\
  rotary_embedding env c tr =
    (Throws (IndexError 1 (dim (cos_sin_cache c))), tr).
Proof.
  intros Hd Hw Hc.
  split; entry_unfold; leb_true (1 <=? dim (query c)); simpl;
    eqb_false (last_dim (query c) =? 0); simpl;
    leb_false (2 <=? dim (cos_sin_cache c)); reflexivity.
Qed.

Lemma flat_cache_rejected_witness :
  dim (cos_sin_cache call_flat_cache) = 1 /\
  rotary_embedding env_ex call_flat_cache [] =
    (Throws (IndexError 1 1), []).
Proof.
  split; [reflexivity|].
  apply (@flat_cache_rejected env_ex call_flat_cache []);
    vm_compute; congruence.
Defined.

(** X10.  Zero divisors are not guarded.  With a query of rank at least 1
    whose rows are empty, [query.numel() / query.size(-1)] divides by
    zero; with non-empty rows, a cache of rank at least 2 and
    [head_size] 0, [query.size(-1) / head_size] does.  Either way both
    entry points reach an undefined division before anything is emitted. *)
Theorem zero_divisor_undefined (env : Env) (c : Call) (tr : trace) :
  1 <= dim (query c) ->
  last_dim (query c) = 0 \/
  (2 <= dim (cos_sin_cache c) /\ c_head_size c = 0) ->
  vllm_ascend.rotary_embedding env c tr = (Undefined DivisionByZero, tr) /\
  rotary_embedding env c tr = (Undefined DivisionByZero, tr).
Proof.
  intros Hd [Hw | [Hc Hh]].
  - split; entry_unfold; leb_true (1 <=? dim (query c)); simpl;
      rewrite Hw; reflexivity.
  - destruct (Z.eq_dec (last_dim (query c)) 0) as [Hw | Hw].
    + split; entry_unfold; leb_true (1 <=? dim (query c)); simpl;
        rewrite Hw; reflexivity.
    + split; entry_unfold; leb_true (1 <=? dim (query c)); simpl;
        eqb_false (last_dim (query c) =? 0); simpl;
        leb_true (2 <=? dim (cos_sin_cache c)); simpl;
        rewrite Hh; reflexivity.
Qed.

Lemma zero_divisor_undefined_witness :
  last_dim (query call_zero_width) = 0 /\
  vllm_ascend.rotary_embedding env_ex call_zero_width [] =
    (Undefined DivisionByZero, []) /\
  rotary_embedding env_ex call_zero_width [] = (Undefined DivisionByZero, []).
Proof.
  split; [reflexivity|].
  apply (@zero_divisor_undefined env_ex call_zero_width []);
    [vm_compute; congruence | left; reflexivity].
Defined.

(** X11.  The trace of a call of the NPU entry point has one of three
    shapes: nothing; the two platform queries for device 0, when the
    platform reports no "aiv" core and the loop count divides by zero;
    or the two queries followed by one kernel call with at least one
    core.  So the platform is queried at most once, only for device 0
    and always before the kernel call, and a kernel call is never
    submitted for zero cores. *)
Theorem npu_trace_shape (env : Env) (c : Call) :
  let r := vllm_ascend.rotary_embedding env c [] in
  (snd r = [] /\ is_ok (fst r) = false)
  \/
  (snd r = [GetRuntimePlatformInfosByDevice 0; GetCoreNumByType 0 "aiv"] /\
   fst r = Undefined DivisionByZero /\ aiv_num env = 0)
  \/
  (exists l,
     snd r = [GetRuntimePlatformInfosByDevice 0; GetCoreNumByType 0 "aiv";
              NpuLaunch l] /\
     fst r = Ok tt /\ 0 < n_aivNum l).
Proof.
  cbv zeta.
  destruct (shapes_ok c && ScalarType_eqb (scalar_type (positions c)) Long)
    eqn:Hs.
  - apply andb_true_iff in Hs as [Hs Hp].
    rewrite (npu_late_path env c [] Hs Hp).
    destruct (getCurrentNPUStream env) as [s|]; [|left; split; reflexivity].
    destruct (get_dtype_from_torch env (scalar_type (query c)));
      try (left; split; reflexivity).
    destruct (Z.eqb_spec (aiv_num env) 0) as [E | Hne].
    + right; left. repeat split. exact E.
    + right; right. exists (npu_submission env c).
      split; [reflexivity|]. split; [reflexivity|].
      change (n_aivNum (npu_submission env c)) with (aiv_num env).
      pose proof (to_uint32_range (core_num env 0 "aiv")).
      unfold aiv_num in *. lia.
  - destruct (npu_early_path env c [] Hs) as (f & Ef & Hf).
    left. rewrite Ef. split; [reflexivity | exact Hf].
Qed.

(** X12.  The trace of a call of the GPU entry point has one of three
    shapes: nothing, when the shape computations fail; the device guard
    for the query's device alone, when the stream lookup, the dtype
    dispatch or a typed pointer fails; or the guard followed by one
    launch.  A launch is always on the current stream of the query's
    device, instantiated for the query's element type, and key and cache
    then have that element type. *)
Theorem gpu_trace_shape (env : Env) (c : Call) :
  let r := rotary_embedding env c [] in
  (snd r = [] /\ is_ok (fst r) = false)
  \/
  (snd r = [SetDevice (device (query c))] /\ is_ok (fst r) = false)
  \/
  (exists l,
     snd r = [SetDevice (device (query c)); GpuLaunch l] /\
     fst r = Ok tt /\
     getCurrentCUDAStream env (device (query c)) = Some (g_stream l) /\
     g_scalar_t l = scalar_type (query c) /\
     scalar_type (key c) = scalar_type (query c) /\
     scalar_type (cos_sin_cache c) = scalar_type (query c)).
Proof.
  cbv zeta. destruct (shapes_ok c) eqn:Hs.
  - rewrite (gpu_late_path env c [] Hs). cbv zeta. simpl app.
    destruct (getCurrentCUDAStream env (device (query c))) as [s|] eqn:Est;
      [|right; left; split; reflexivity].
    destruct (dispatch_floating_types env (scalar_type (query c))); simpl;
      [|right; left; split; reflexivity].
    destruct (first_failure (scalar_type (query c)) c
                (argument_order env ++ written_order)) eqn:Ef;
      [right; left; split; reflexivity|].
    apply first_failure_complete in Ef as (_ & Hk & Hc).
    right; right. eexists. split; [reflexivity|]. simpl. rewrite Est.
    repeat split; auto.
  - destruct (gpu_early_path env c [] Hs) as (f & Ef & Hf).
    left. rewrite Ef. split; [reflexivity | exact Hf].
Qed.

(** X13.  In the NPU backend the dtype helper is the first thing the
    handler calls: when it throws, that exception is the outcome of the
    call, and neither the platform has been queried nor anything
    submitted. *)
Theorem npu_helper_error_propagates (env : Env) (c : Call) (tr : trace)
    (s : Z) (e : exn) :
  shapes_ok c = true -> scalar_type (positions c) = Long ->
  getCurrentNPUStream env = Some s ->
  get_dtype_from_torch env (scalar_type (query c)) = Throws e ->
  vllm_ascend.rotary_embedding env c tr = (Throws e, tr).
Proof.
  intros Hs Hp Hst Hd.
  rewrite (npu_late_path env c tr Hs) by (now apply ScalarType_eqb_eq).
  now rewrite Hst, Hd.
Qed.

Lemma npu_helper_error_propagates_witness :
  get_dtype_from_torch env_ex (scalar_type (query call_double))
    = Throws (DtypeError Double) /\
  vllm_ascend.rotary_embedding env_ex call_double [] =
    (Throws (DtypeError Double), []).
Proof.
  split; [reflexivity|].
  apply (@npu_helper_error_propagates env_ex call_double [] 1);
    reflexivity.
Defined.

(** X14.  In the GPU backend an element type of the query for which the
    dispatch macro has no case is reported under the operator's name,
    after the device guard has been set and before any launch. *)
Theorem gpu_unsupported_dtype (env : Env) (c : Call) (tr : trace) (s : Z) :
  shapes_ok c = true ->
  getCurrentCUDAStream env (device (query c)) = Some s ->
  dispatch_floating_types env (scalar_type (query c)) = false ->
  rotary_embedding env c tr =
  (Throws (NotImplementedError "rotary_embedding" (scalar_type (query c))),
   tr ++ [SetDevice (device (query c))]).
Proof.
  intros Hs Hst Hd. rewrite (gpu_late_path env c tr Hs). cbv zeta.
  now rewrite Hst, Hd.
Qed.

Lemma gpu_unsupported_dtype_witness :
  dispatch_floating_types env_ex (scalar_type (query call_double)) = false /\
  rotary_embedding env_ex call_double [] =
    (Throws (NotImplementedError "rotary_embedding" Double), [SetDevice 0]).
Proof.
  split; [reflexivity|].
  apply (@gpu_unsupported_dtype env_ex call_double [] 2); reflexivity.
Defined.

(** X15.  The GPU backend takes the element type of key and cache from
    the query: when the positions are [int64] and the key or the cache
    has another element type than the query, the call fails with a
    scalar-type error that expects the query's type and names the
    differing element type of the key or of the cache, and nothing is
    launched.  When both differ, which of the two is named depends on the
    order in which the compiler evaluates the arguments of the launch. *)
Theorem gpu_mixed_dtypes_rejected (env : Env) (c : Call) (tr : trace)
    (s : Z) :
  shapes_ok c = true ->
  getCurrentCUDAStream env (device (query c)) = Some s ->
  dispatch_floating_types env (scalar_type (query c)) = true ->
  scalar_type (positions c) = Long ->
  scalar_type (key c) <> scalar_type (query c) \/
  scalar_type (cos_sin_cache c) <> scalar_type (query c) ->
  exists other,
    other <> scalar_type (query c) /\
    (other = scalar_type (key c) \/ other = scalar_type (cos_sin_cache c)) /\
    rotary_embedding env c tr =
    (Throws (ScalarTypeError (scalar_type (query c)) other),
     tr ++ [SetDevice (device (query c))]).
Proof.
  intros Hs Hst Hd Hp Hmix. rewrite (gpu_late_path env c tr Hs). cbv zeta.
  rewrite Hst, Hd. cbn [negb].
  destruct (first_failure (scalar_type (query c)) c
              (argument_order env ++ written_order)) as [e|] eqn:Ef.
  - apply first_failure_some in Ef as [[Hne _] | [[Hne ->] | [Hne ->]]].
    + contradiction.
    + exists (scalar_type (key c)). auto.
    + exists (scalar_type (cos_sin_cache c)). auto.
  - apply first_failure_complete in Ef as (_ & Hk & Hc).
    destruct Hmix; contradiction.
Qed.

Lemma gpu_mixed_dtypes_rejected_witness :
  scalar_type (cos_sin_cache call_mixed) <> scalar_type (query call_mixed) /\
  exists other,
    other <> scalar_type (query call_mixed) /\
    (other = scalar_type (key call_mixed) \/
     other = scalar_type (cos_sin_cache call_mixed)) /\
    rotary_embedding env_ex call_mixed [] =
      (Throws (ScalarTypeError Half other), [SetDevice 0]).
Proof.
  assert (Hne : scalar_type (cos_sin_cache call_mixed)
                <> scalar_type (query call_mixed)) by discriminate.
  split; [exact Hne|].
  exact (@gpu_mixed_dtypes_rejected env_ex call_mixed [] 2 eq_refl eq_refl
           eq_refl eq_refl (or_intror Hne)).
Defined.

(** When the key and the cache both differ from the query, the error
    names the cache under right-to-left evaluation of the launch
    arguments and the key under left-to-right evaluation. *)
Example argument_order_decides :
  rotary_embedding env_ex call_both_mixed [] =
    (Throws (ScalarTypeError Half Double), [SetDevice 0]) /\
  rotary_embedding env_left_to_right call_both_mixed [] =
    (Throws (ScalarTypeError Half Float), [SetDevice 0]).
Proof. split; reflexivity. Qed.

(** ** What is never read *)

(** X16.  The NPU backend never looks at the element type of the key or
    of the cache (nor at their devices): a key and a cache with the same
    sizes, strides and data pointers but any element types give the same
    outcome and the same submission, which carries the query's element
    type alone. *)
Theorem npu_ignores_key_and_cache_dtype (env : Env) (c : Call)
    (k' cs' : Tensor) (tr : trace) :
  sizes k' = sizes (key c) -> strides k' = strides (key c) ->
  data_ptr k' = data_ptr (key c) ->
  sizes cs' = sizes (cos_sin_cache c) ->
  data_ptr cs' = data_ptr (cos_sin_cache c) ->
  vllm_ascend.rotary_embedding env
    (mkCall (positions c) (query c) k' (c_head_size c) cs' (is_neox c)) tr
  = vllm_ascend.rotary_embedding env c tr.
Proof.
  intros Hks Hkst Hkp Hcs Hcp.
  unfold vllm_ascend.rotary_embedding, vllm_ascend.resolve, size, stride, dim.
  simpl. rewrite Hks, Hkst, Hkp, Hcs, Hcp. reflexivity.
Qed.

(** The call that the GPU backend rejects for its single-precision cache
    is submitted by the NPU backend like the all-half-precision call. *)
Lemma npu_ignores_key_and_cache_dtype_witness :
  vllm_ascend.rotary_embedding env_ex call_mixed []
  = vllm_ascend.rotary_embedding env_ex call_ok [] /\
  is_ok (fst (vllm_ascend.rotary_embedding env_ex call_mixed [])) = true.
Proof.
  split; [|reflexivity].
  exact (@npu_ignores_key_and_cache_dtype env_ex call_ok
           (key call_mixed) (cos_sin_cache call_mixed) []
           eq_refl eq_refl eq_refl eq_refl eq_refl).
Defined.

(** X17.  Neither entry point reads the shape of the positions or the
    number of rows of the cache: positions of any sizes and strides, and
    a cache of any sizes with the same [size(1)], give the same outcome
    and the same submission as long as element types and data pointers
    are the same.  In particular the number of positions is never
    compared with the token count. *)
Theorem positions_shape_and_cache_rows_unchecked (env : Env) (c : Call)
    (p' cs' : Tensor) (tr : trace) :
  scalar_type p' = scalar_type (positions c) ->
  data_ptr p' = data_ptr (positions c) ->
  size cs' 1 = size (cos_sin_cache c) 1 ->
  scalar_type cs' = scalar_type (cos_sin_cache c) ->
  data_ptr cs' = data_ptr (cos_sin_cache c) ->
  let c' := mkCall p' (query c) (key c) (c_head_size c) cs' (is_neox c) in
  vllm_ascend.rotary_embedding env c' tr = vllm_ascend.rotary_embedding env c tr
  /\ rotary_embedding env c' tr = rotary_embedding env c tr.
Proof.
  intros Hpt Hpp Hcs Hct Hcp. cbv zeta. split.
  - unfold vllm_ascend.rotary_embedding, vllm_ascend.resolve, typed_data_ptr.
    simpl. rewrite Hpt, Hpp, Hcs, Hcp. reflexivity.
  - assert (Ha : forall st order tr0,
               eval_args st
                 (mkCall p' (query c) (key c) (c_head_size c) cs' (is_neox c))
                 order tr0
               = eval_args st c order tr0).
    { intros st order tr0. rewrite !eval_args_run.
      replace (first_failure st
                 (mkCall p' (query c) (key c) (c_head_size c) cs'
                    (is_neox c)) order)
        with (first_failure st c order); [reflexivity|].
      induction order as [|a rest IH]; [reflexivity|].
      cbn [first_failure]. rewrite IH.
      destruct a; cbn [arg_ptr]; unfold typed_data_ptr; simpl;
        rewrite ?Hpt, ?Hct;
        match goal with
        | |- context [ScalarType_eqb ?x ?y] => destruct (ScalarType_eqb x y)
        end; reflexivity. }
    unfold rotary_embedding. apply bind_ext.
    + intros tr0. unfold resolve. simpl. rewrite Hcs. reflexivity.
    + intros sh tr0. simpl.
      apply bind_ext; [reflexivity|]. intros _ tr1.
      apply bind_ext; [reflexivity|]. intros stream tr2.
      unfold VLLM_DISPATCH_FLOATING_TYPES.
      destruct (dispatch_floating_types env (scalar_type (query c)));
        [|reflexivity].
      apply bind_ext; [apply Ha|]. intros _ tr3.
      unfold typed_data_ptr, bind, lift. simpl.
      rewrite Hpt, Hpp, Hct, Hcp. reflexivity.
Qed.

(** One position for two tokens and a cache of a single row: accepted
    like [call_ok]. *)
Lemma positions_shape_and_cache_rows_unchecked_witness :
  rotary_embedding env_ex
    (mkCall (tensor_ex [1] [1] Long 100) (query call_ok) (key call_ok) 4
       (tensor_ex [1; 4] [4; 1] Half 400) true) []
  = rotary_embedding env_ex call_ok [] /\
  is_ok (fst (rotary_embedding env_ex call_ok [])) = true.
Proof.
  split; [|reflexivity].
  exact (proj2 (@positions_shape_and_cache_rows_unchecked env_ex call_ok
                  (tensor_ex [1] [1] Long 100)
                  (tensor_ex [1; 4] [4; 1] Half 400) []
                  eq_refl eq_refl eq_refl eq_refl eq_refl)).
Defined.
